(** * MidiConvert: the [Midi] class of [src/Midi.js]

    A shallow embedding of the decode / re-time pipeline of the [Midi] class:
    the per-track event loop of [decode], the channel/instrument splitter,
    [applyTempoChanges], the [bpm] setter, [toJSON] and [load].

    Numbers.  A JavaScript number is modelled by an exact rational ([Qc], the
    canonical rationals, so that equality is Leibniz equality and every
    definition still computes).  Integer-valued fields that the code only
    compares or uses as array indices (channel, instrument, controller
    number, note number) are [Z].  Rounding, [NaN] and the infinities of
    IEEE doubles are outside this model; every concrete value used below is
    a dyadic rational on which double arithmetic is exact. *)

From Stdlib Require Import ZArith QArith Qcanon List String Lia.
From stdpp Require Import base option list sorting gmap strings.

Local Open Scope Z_scope.

(** ** Numbers *)

Definition Z2Qc (z : Z) : Qc := Q2Qc (inject_Z z).

Definition Qcltb (x y : Qc) : bool :=
  match (x ?= y)%Qc with Lt => true | _ => false end.

Definition Qcleb (x y : Qc) : bool :=
  match (x ?= y)%Qc with Gt => false | _ => true end.

(** ** Data model *)

(** [new Control(null, absoluteTime, newBpm)]: an entry of [tempoChanges].
    The warp reads only [.time] and [.value] of it. *)
Module Control.
Record t : Type := mk { time : Qc; value : Qc }.
End Control.

(** Keys of [track.controlChanges]: a controller number, or the string
    ['pitchBend'] (the event subtype passed to [track.cc] at line 165). *)
Inductive ControlType : Type :=
  | Controller (number : Z)
  | PitchBend.

#[global] Instance ControlType_eq_dec : EqDecision ControlType.
Proof. solve_decision. Defined.

Module Header.
(** [this.header]: the constructor's defaults are [bpm : 120],
    [timeSignature : [4, 4]], [PPQ : 480]; [name] is optional. *)
Record t : Type := mk {
  name : option string;
  bpm : Qc;
  timeSignature : Z * Z;
  PPQ : Z
}.
End Header.

Module Note.
(** Modelled from the spec: the note objects are built by [Track.noteOn]
    ([./Track] is not among the sources).  Spec 3: pitch, time, duration
    (or unset), velocity, channel, instrument (or -1). *)
Record t : Type := mk {
  pitch : Z;
  time : Qc;
  duration : option Qc;
  velocity : Qc;
  channel : Z;
  instrument : Z
}.
End Note.

Module ControlChange.
(** Modelled from the spec: the control-change objects are built by
    [Track.cc].  Spec 3: controllerId, time, value, channel, instrument. *)
Record t : Type := mk {
  number : ControlType;
  time : Qc;
  value : Qc;
  channel : Z;
  instrument : Z
}.
End ControlChange.

Module Track.
(** Modelled from the spec: the [Track] class ([./Track]) is not among the
    sources.  Spec 3: id, name, channelNumber (or -1), instrumentNumber
    (or -1), notes, controlChanges (a mapping from controller id to a
    sequence, here the object's own keys in [Object.keys] order).
    [midiType] is the field written at line 188. *)
Record t : Type := mk {
  id : option nat;
  name : option string;
  channelNumber : Z;
  instrumentNumber : Z;
  notes : list Note.t;
  controlChanges : list (ControlType * list ControlChange.t);
  midiType : option Z
}.

(** Modelled from the spec: [new Track(name, instrument, channel)]; a
    track made without arguments has no name and the sentinel -1 for its
    channel and instrument numbers, and starts with no element. *)
Definition new (name : option string) (instrumentNumber channel : Z) : t :=
  mk None name channel instrumentNumber [] [] None.

Definition set_id (i : nat) (tr : t) : t :=
  mk (Some i) (name tr) (channelNumber tr) (instrumentNumber tr)
     (notes tr) (controlChanges tr) (midiType tr).

Definition set_name (s : string) (tr : t) : t :=
  mk (id tr) (Some s) (channelNumber tr) (instrumentNumber tr)
     (notes tr) (controlChanges tr) (midiType tr).

Definition set_channelNumber (c : Z) (tr : t) : t :=
  mk (id tr) (name tr) c (instrumentNumber tr)
     (notes tr) (controlChanges tr) (midiType tr).

Definition set_notes (ns : list Note.t) (tr : t) : t :=
  mk (id tr) (name tr) (channelNumber tr) (instrumentNumber tr)
     ns (controlChanges tr) (midiType tr).

Definition set_controlChanges
    (ccs : list (ControlType * list ControlChange.t)) (tr : t) : t :=
  mk (id tr) (name tr) (channelNumber tr) (instrumentNumber tr)
     (notes tr) ccs (midiType tr).

Definition set_midiType (ty : Z) (tr : t) : t :=
  mk (id tr) (name tr) (channelNumber tr) (instrumentNumber tr)
     (notes tr) (controlChanges tr) (Some ty).

(** Modelled from the spec: [track.patch(id)] sets the track's
    instrument number. *)
Definition patch (i : Z) (tr : t) : t :=
  mk (id tr) (name tr) (channelNumber tr) i
     (notes tr) (controlChanges tr) (midiType tr).

(** Modelled from the spec: [track.noteOn(pitch, time, velocity, channel,
    instrument)] emits a note whose duration is left unset. *)
Definition noteOn (pitch : Z) (time velocity : Qc) (channel instrument : Z)
    (tr : t) : t :=
  set_notes (notes tr ++ [Note.mk pitch time None velocity channel instrument]) tr.

(** Modelled from the spec: [track.noteOff(pitch, time, channel)] closes
    the oldest pending note of the same (pitch, channel), setting
    [duration = time - note.time]; with none pending it is ignored. *)
Fixpoint close_pending (pitch : Z) (time : Qc) (channel : Z)
    (ns : list Note.t) : list Note.t :=
  match ns with
  | [] => []
  | n :: rest =>
      if bool_decide (Note.pitch n = pitch)
         && bool_decide (Note.channel n = channel)
         && bool_decide (Note.duration n = None)
      then Note.mk (Note.pitch n) (Note.time n)
             (Some (time - Note.time n)%Qc)
             (Note.velocity n) (Note.channel n) (Note.instrument n) :: rest
      else n :: close_pending pitch time channel rest
  end.

Definition noteOff (pitch : Z) (time : Qc) (channel : Z) (tr : t) : t :=
  set_notes (close_pending pitch time channel (notes tr)) tr.

(** [obj[key].push(x)], creating [obj[key] = []] first when it is
    undefined.  A new controller-number key takes its place in ascending
    numeric order before any string key, as [Object.keys] enumerates. *)
Definition key_before (k k' : ControlType) : bool :=
  match k, k' with
  | Controller a, Controller b => a <? b
  | Controller _, PitchBend => true
  | PitchBend, _ => false
  end.

Fixpoint push_control (k : ControlType) (c : ControlChange.t)
    (obj : list (ControlType * list ControlChange.t))
    : list (ControlType * list ControlChange.t) :=
  match obj with
  | [] => [(k, [c])]
  | (k', l) :: rest =>
      if bool_decide (k' = k) then (k', l ++ [c]) :: rest
      else if key_before k k' then (k, [c]) :: (k', l) :: rest
      else (k', l) :: push_control k c rest
  end.

(** Modelled from the spec: [track.cc(number, time, value, channel,
    instrument)] emits a control change under its controller id. *)
Definition cc (number : ControlType) (time value : Qc)
    (channel instrument : Z) (tr : t) : t :=
  set_controlChanges
    (push_control number
       (ControlChange.mk number time value channel instrument)
       (controlChanges tr)) tr.

(** Modelled from the spec (4.3 post-scan): whether the track produced
    any note or control change. *)
Definition is_empty (tr : t) : bool :=
  match notes tr, controlChanges tr with
  | [], [] => true
  | _, _ => false
  end.

(** Modelled from the spec (4.6): [track.scale(ratio)] rescales every
    note and control-change time and every note duration. *)
Definition scale_note (ratio : Qc) (n : Note.t) : Note.t :=
  Note.mk (Note.pitch n) (Note.time n * ratio)%Qc
    (option_map (fun d => (d * ratio)%Qc) (Note.duration n))
    (Note.velocity n) (Note.channel n) (Note.instrument n).

Definition scale_control (ratio : Qc) (c : ControlChange.t)
    : ControlChange.t :=
  ControlChange.mk (ControlChange.number c)
    (ControlChange.time c * ratio)%Qc
    (ControlChange.value c) (ControlChange.channel c)
    (ControlChange.instrument c).

Definition scale (ratio : Qc) (tr : t) : t :=
  set_controlChanges
    (map (fun kl => (fst kl, map (scale_control ratio) (snd kl)))
       (controlChanges tr))
    (set_notes (map (scale_note ratio) (notes tr)) tr).
End Track.

Module Midi.
Record t : Type := mk {
  header : Header.t;
  tracks : list Track.t
}.
End Midi.

(** Modelled from the spec: [Util.ticksToSeconds] ([./Util] is not among
    the sources).  Spec 4.1:
    [deltaTicks / header.pulsesPerQuarter * (60 / header.beatsPerMinute)]. *)
Definition ticksToSeconds (deltaTicks : Z) (header : Header.t) : Qc :=
  (Z2Qc deltaTicks / Z2Qc (Header.PPQ header)
   * (Z2Qc 60 / Header.bpm header))%Qc.

(** ** [BinaryInsert] *)

Module BinaryInsert.

(** Modelled from the spec: [BinaryInsert] lives in [./BinaryInsert], which
    is not among the sources.  Spec 4.2: locate the rightmost existing
    position whose time is <= the new breakpoint's time via binary search
    over the already-sorted sequence, then insert immediately after it.

    [search_loop] is the bisection on the half-open window [lo, hi): it
    returns the position just after the rightmost entry whose time is
    <= [t] (0 when there is none). *)
Fixpoint search_loop (fuel : nat) (array : list Control.t) (t : Qc)
    (lo hi : nat) : nat :=
  match fuel with
  | O => lo
  | S fuel' =>
      if (lo <? hi)%nat then
        let mid := ((lo + hi) / 2)%nat in
        match array !! mid with
        | Some ev =>
            if Qcleb (Control.time ev) t
            then search_loop fuel' array t (S mid) hi
            else search_loop fuel' array t lo mid
        | None => lo
        end
      else lo
  end.

Definition search (array : list Control.t) (t : Qc) : nat :=
  search_loop (length array) array t 0 (length array).

(** [array.splice(index + 1, 0, event)] *)
Definition splice (array : list Control.t) (pos : nat) (event : Control.t)
    : list Control.t :=
  take pos array ++ event :: drop pos array.

Definition insert (array : list Control.t) (event : Control.t)
    : list Control.t :=
  splice array (search array (Control.time event)) event.

End BinaryInsert.

(** ** The byte-codec's tokens *)

(** The events of [midi-file-parser], the external byte-codec (spec 6):
    every event carries its [deltaTime]; channel events carry a [channel],
    meta events do not.  [OtherChannelEvent] stands for the channel events
    the loop has no branch for (aftertouch and the like), [OtherMetaEvent]
    for such meta events (time signature, end of track, ...). *)
Inductive EventBody : Type :=
  | NoteOn (channel noteNumber velocity : Z)
  | NoteOff (channel noteNumber velocity : Z)
  | ControllerEvent (channel controllerType value : Z)
  | ProgramChange (channel programNumber : Z)
  | PitchBendEvent (channel value : Z)
  | OtherChannelEvent (channel : Z)
  | TrackName (text : string)
  | InstrumentName (text : string)
  | SetTempo (microsecondsPerBeat : Z)
  | OtherMetaEvent.

Record Event : Type := mkEvent { deltaTime : Z; body : EventBody }.

(** [event.channel] ([undefined] on a meta event). *)
Definition event_channel (event : Event) : option Z :=
  match body event with
  | NoteOn c _ _ | NoteOff c _ _ | ControllerEvent c _ _
  | ProgramChange c _ | PitchBendEvent c _ | OtherChannelEvent c => Some c
  | TrackName _ | InstrumentName _ | SetTempo _ | OtherMetaEvent => None
  end.

(** JavaScript truthiness of a number: [0] is falsy. *)
Definition truthy (z : Z) : bool := negb (z =? 0).

(** ** [decode]: the per-track event loop (lines 93-173) *)

Section Decode.
(** [Util.cleanName], and the instrument number a fresh track gets from
    the setter [instrumentTrack.instrument = event.text]: external
    collaborators, not among the sources. *)
Context (cleanName : string -> string) (instrumentByName : string -> Z).

(** The variables of the loop: [track], [channel], [instrument],
    [absoluteTime], [channelCC], [channelPitchBendRange] are per raw
    track; [tempoChanges], [channelInstruments] and [this.header] are
    shared by all raw tracks. *)
Record Scan : Type := mkScan {
  track : Track.t;
  channel : Z;
  instrument : Z;
  absoluteTime : Qc;
  channelCC : gmap Z (gmap Z Z);
  channelPitchBendRange : gmap Z Z;
  tempoChanges : list Control.t;
  channelInstruments : gmap Z Z;
  header : Header.t
}.

Definition with_track (f : Track.t -> Track.t) (s : Scan) : Scan :=
  mkScan (f (track s)) (channel s) (instrument s) (absoluteTime s)
    (channelCC s) (channelPitchBendRange s) (tempoChanges s)
    (channelInstruments s) (header s).

(** [(channelInstruments[channel] === undefined) ? -1 :
     channelInstruments[channel]] *)
Definition instrument_of (s : Scan) (c : Z) : Z :=
  default (-1) (channelInstruments s !! c).

(** Lines 106-109: the time is accumulated and the track's channel is
    taken from the event when [event.channel] is truthy. *)
Definition advance_time (event : Event) (s : Scan) : Scan :=
  mkScan (track s) (channel s) (instrument s)
    (absoluteTime s + ticksToSeconds (deltaTime event) (header s))%Qc
    (channelCC s) (channelPitchBendRange s) (tempoChanges s)
    (channelInstruments s) (header s).

Definition assign_channel (event : Event) (s : Scan) : Scan :=
  match event_channel event with
  | Some c =>
      if truthy c && bool_decide (Track.channelNumber (track s) = -1)
      then with_track (Track.set_channelNumber c) s
      else s
  | None => s
  end.

(** Lines 112-117 *)
Definition record_controller (event : Event) (s : Scan) : Scan :=
  match body event with
  | ControllerEvent c controllerType value =>
      if truthy controllerType then
        mkScan (track s) (channel s) (instrument s) (absoluteTime s)
          (<[c := <[controllerType := value]> (default ∅ (channelCC s !! c))]>
             (channelCC s))
          (channelPitchBendRange s) (tempoChanges s)
          (channelInstruments s) (header s)
      else s
  | _ => s
  end.

(** Line 136: [event.controllerType === 6 && channelCC[event.channel] &&
    !channelCC[event.channel][100] && channelCC[event.channel][101] === 0] *)
Definition selects_bend_range (s : Scan) (c controllerType : Z) : bool :=
  bool_decide (controllerType = 6)
  && match channelCC s !! c with
     | Some cc =>
         negb (truthy (default 0 (cc !! 100)))
         && bool_decide (cc !! 101 = Some 0)
     | None => false
     end.

(** Lines 119-166: the dispatch on the event. *)
Definition dispatch (event : Event) (s : Scan) : Scan :=
  match body event with
  | TrackName text =>
      with_track (Track.set_name (cleanName text)) s
  | NoteOn c noteNumber velocity =>
      let s1 :=
        if bool_decide (Track.channelNumber (track s) = -1)
        then with_track (Track.set_channelNumber c) s else s in
      let i := instrument_of s1 c in
      mkScan
        (Track.noteOn noteNumber (absoluteTime s1)
           (Z2Qc velocity / Z2Qc 127)%Qc c i (track s1))
        c i (absoluteTime s1) (channelCC s1) (channelPitchBendRange s1)
        (tempoChanges s1) (channelInstruments s1) (header s1)
  | NoteOff c noteNumber _ =>
      with_track (Track.noteOff noteNumber (absoluteTime s) c) s
  | ControllerEvent c controllerType value =>
      if truthy controllerType then
        let i := instrument_of s c in
        mkScan
          (Track.cc (Controller controllerType) (absoluteTime s)
             (Z2Qc value / Z2Qc 127)%Qc c i (track s))
          c i (absoluteTime s) (channelCC s)
          (if selects_bend_range s c controllerType
           then <[c := value]> (channelPitchBendRange s)
           else channelPitchBendRange s)
          (tempoChanges s) (channelInstruments s) (header s)
      else s
  | InstrumentName text =>
      (* [channel = event.channel || channel]: a meta event has no channel *)
      let c := channel s in
      let i := instrumentByName text in
      mkScan
        (if bool_decide (Track.instrumentNumber (track s) = -1)
         then Track.patch i (track s) else track s)
        c i (absoluteTime s) (channelCC s) (channelPitchBendRange s)
        (tempoChanges s) (<[c := i]> (channelInstruments s)) (header s)
  | SetTempo microsecondsPerBeat =>
      let newBpm :=
        (Z2Qc 60 / (Z2Qc microsecondsPerBeat / Z2Qc 1000000))%Qc in
      let st := Control.mk (absoluteTime s) newBpm in
      mkScan (track s) (channel s) (instrument s) (absoluteTime s)
        (channelCC s) (channelPitchBendRange s)
        (BinaryInsert.insert (tempoChanges s) st)
        (channelInstruments s) (header s)
  | ProgramChange c programNumber =>
      mkScan
        (if bool_decide (Track.instrumentNumber (track s) = -1)
         then Track.patch programNumber (track s) else track s)
        c programNumber (absoluteTime s) (channelCC s)
        (channelPitchBendRange s) (tempoChanges s)
        (<[c := programNumber]> (channelInstruments s)) (header s)
  | PitchBendEvent c value =>
      let pitchBendRange :=
        match channelPitchBendRange s !! c with
        | Some r => if truthy r then r else 2
        | None => 2
        end in
      let pitchBendValue :=
        (Z2Qc pitchBendRange * (Z2Qc value - Z2Qc 8192) / Z2Qc 8192)%Qc in
      let i := instrument_of s c in
      mkScan
        (Track.cc PitchBend (absoluteTime s) pitchBendValue c i (track s))
        c i (absoluteTime s) (channelCC s) (channelPitchBendRange s)
        (tempoChanges s) (channelInstruments s) (header s)
  | OtherChannelEvent _ | OtherMetaEvent => s
  end.

(** The body of [trackData.forEach((event) => ...)]. *)
Definition on_event (s : Scan) (event : Event) : Scan :=
  dispatch event (record_controller event (assign_channel event (advance_time event s))).

(** Lines 95-103 and 169-172: a raw track is scanned from a fresh
    [Track]; afterwards an empty, named track gives the file its name. *)
Definition adopt_name (tr : Track.t) (h : Header.t) : Header.t :=
  match Header.name h with
  | Some (String _ _) => h
  | _ =>
      if Track.is_empty tr then
        match Track.name tr with
        | Some (String a n) =>
            Header.mk (Some (String a n)) (Header.bpm h)
              (Header.timeSignature h) (Header.PPQ h)
        | _ => h
        end
      else h
  end.

(** What the outer loop carries from one raw track to the next. *)
Record Shared : Type := mkShared {
  mixedTracks : list Track.t;
  sharedTempoChanges : list Control.t;
  sharedInstruments : gmap Z Z;
  sharedHeader : Header.t
}.

Definition scan_track (trackData : list Event) (g : Shared) : Scan :=
  fold_left on_event trackData
    (mkScan (Track.new None (-1) (-1)) (-1) (-1) (Q2Qc 0) ∅ ∅
       (sharedTempoChanges g) (sharedInstruments g) (sharedHeader g)).

Definition on_track (g : Shared) (trackData : list Event) : Shared :=
  let s := scan_track trackData g in
  mkShared (mixedTracks g ++ [track s]) (tempoChanges s)
    (channelInstruments s) (adopt_name (track s) (header s)).

Definition scan_tracks (h : Header.t) (tracksData : list (list Event))
    : Shared :=
  fold_left on_track tracksData (mkShared [] [] ∅ h).

End Decode.

(** ** JavaScript arrays written by index *)

Module JsArray.
(** An array that is only written as [a[k] = v] and read as [a[k]] and
    by [forEach]: [elems] are the positions [0 .. length-1], with [None]
    for a hole; [others] holds the properties whose key is not an array
    index (a negative number, or one above 2^32 - 2), which [forEach]
    never visits. *)
Record t (A : Type) : Type := mk {
  elems : list (option A);
  others : gmap Z A
}.
Arguments mk {A} _ _.
Arguments elems {A} _.
Arguments others {A} _.

Definition empty {A} : t A := mk [] ∅.

(** An array index is an integer in [0, 2^32 - 2]. *)
Definition is_index (k : Z) : bool := (0 <=? k) && (k <? 4294967295).

(** [a[k]] *)
Definition get {A} (k : Z) (a : t A) : option A :=
  if is_index k then mjoin (elems a !! Z.to_nat k) else others a !! k.

(** [a[k] = v]: writing past the end extends the array with holes. *)
Definition write {A} (n : nat) (v : A) (l : list (option A))
    : list (option A) :=
  if (n <? length l)%nat then <[n := Some v]> l
  else l ++ replicate (n - length l) None ++ [Some v].

Definition set {A} (k : Z) (v : A) (a : t A) : t A :=
  if is_index k then mk (write (Z.to_nat k) v (elems a)) (others a)
  else mk (elems a) (<[k := v]> (others a)).

(** The values [a.forEach] visits, in order: holes are skipped. *)
Definition values {A} (a : t A) : list A := omap id (elems a).
End JsArray.

(** ** [decode]: the channel/instrument splitter (lines 180-236) *)

Section Split.
(** [midiData.header.formatType] *)
Context (formatType : Z).

Abbreviation SubTracks := (JsArray.t (JsArray.t Track.t)).

(** [getSubtrack(channel, instrument)]: the rows and the track are made
    on first use; the track it returns is [subTracks[channel][instrument]]
    of the table it leaves. *)
Definition getSubtrack (mixedTrack : Track.t) (channel instrument : Z)
    (subTracks : SubTracks) : SubTracks :=
  let subTracks1 :=
    match JsArray.get channel subTracks with
    | None => JsArray.set channel JsArray.empty subTracks
    | Some _ => subTracks
    end in
  let row := default JsArray.empty (JsArray.get channel subTracks1) in
  match JsArray.get instrument row with
  | None =>
      JsArray.set channel
        (JsArray.set instrument
           (Track.set_midiType formatType
              (Track.new (Track.name mixedTrack) instrument channel))
           row)
        subTracks1
  | Some _ => subTracks1
  end.

(** A write through the reference [subTracks[channel][instrument]]. *)
Definition update_subtrack (channel instrument : Z)
    (f : Track.t -> Track.t) (subTracks : SubTracks) : SubTracks :=
  match JsArray.get channel subTracks with
  | Some row =>
      match JsArray.get instrument row with
      | Some tr =>
          JsArray.set channel (JsArray.set instrument (f tr) row) subTracks
      | None => subTracks
      end
  | None => subTracks
  end.

(** Lines 195-203 and 210-219: the fallback chains. *)
Definition resolve_channel (mixedTrack : Track.t) (channel : Z) : Z :=
  if bool_decide (channel = -1) then Track.channelNumber mixedTrack
  else channel.

Definition resolve_instrument (mixedTrack : Track.t) (instrument : Z) : Z :=
  if bool_decide (instrument = -1) then
    let i := Track.instrumentNumber mixedTrack in
    if bool_decide (i = -1) then 0 else i
  else instrument.

Definition resolve_note (mixedTrack : Track.t) (note : Note.t) : Note.t :=
  Note.mk (Note.pitch note) (Note.time note) (Note.duration note)
    (Note.velocity note)
    (resolve_channel mixedTrack (Note.channel note))
    (resolve_instrument mixedTrack (Note.instrument note)).

Definition resolve_control (mixedTrack : Track.t) (cc : ControlChange.t)
    : ControlChange.t :=
  ControlChange.mk (ControlChange.number cc) (ControlChange.time cc)
    (ControlChange.value cc)
    (resolve_channel mixedTrack (ControlChange.channel cc))
    (resolve_instrument mixedTrack (ControlChange.instrument cc)).

(** The body of [mixedTrack.notes.forEach((note) => ...)]. *)
Definition add_note (mixedTrack : Track.t) (subTracks : SubTracks)
    (note : Note.t) : SubTracks :=
  let note' := resolve_note mixedTrack note in
  let c := Note.channel note' in
  let i := Note.instrument note' in
  update_subtrack c i
    (fun tr => Track.set_notes (Track.notes tr ++ [note']) tr)
    (getSubtrack mixedTrack c i subTracks).

(** The body of [mixedTrack.controlChanges[controlType].forEach((cc) =>
    ...)]. *)
Definition add_control (mixedTrack : Track.t) (controlType : ControlType)
    (subTracks : SubTracks) (cc : ControlChange.t) : SubTracks :=
  let cc' := resolve_control mixedTrack cc in
  let c := ControlChange.channel cc' in
  let i := ControlChange.instrument cc' in
  update_subtrack c i
    (fun tr =>
       Track.set_controlChanges
         (Track.push_control controlType cc' (Track.controlChanges tr)) tr)
    (getSubtrack mixedTrack c i subTracks).

Definition add_controls (mixedTrack : Track.t) (subTracks : SubTracks)
    (entry : ControlType * list ControlChange.t) : SubTracks :=
  fold_left (add_control mixedTrack (fst entry)) (snd entry) subTracks.

(** [const subTracks = []] filled by the two loops. *)
Definition subTracks_of (mixedTrack : Track.t) : SubTracks :=
  fold_left (add_controls mixedTrack) (Track.controlChanges mixedTrack)
    (fold_left (add_note mixedTrack) (Track.notes mixedTrack)
       JsArray.empty).

(** Lines 229-235: the sub tracks in channel-major order. *)
Definition flatten (subTracks : SubTracks) : list Track.t :=
  concat (map JsArray.values (JsArray.values subTracks)).

(** [track.id = trackId; this.tracks.push(track); trackId++] *)
Fixpoint number_from (trackId : nat) (l : list Track.t) : list Track.t :=
  match l with
  | [] => []
  | tr :: rest => Track.set_id trackId tr :: number_from (S trackId) rest
  end.

(** The body of [tracks.forEach((mixedTrack) => ...)], on
    [this.tracks] (whose length is [trackId]). *)
Definition split_track (out : list Track.t) (mixedTrack : Track.t)
    : list Track.t :=
  out ++ number_from (length out) (flatten (subTracks_of mixedTrack)).

Definition split (mixedTracks : list Track.t) : list Track.t :=
  fold_left split_track mixedTracks [].

End Split.

(** ** [applyTempoChanges] (lines 362-410) *)

(** What [applyTempo] reads and writes of an element: [element.time], and
    [element.duration] when it is not [undefined]. *)
Class Element (A : Type) : Type := {
  time : A -> Qc;
  duration : A -> option Qc;
  set_time : Qc -> A -> A;
  set_duration : Qc -> A -> A
}.

#[global] Instance Note_Element : Element Note.t := {
  time := Note.time;
  duration := Note.duration;
  set_time := fun t n =>
    Note.mk (Note.pitch n) t (Note.duration n) (Note.velocity n)
      (Note.channel n) (Note.instrument n);
  set_duration := fun d n =>
    Note.mk (Note.pitch n) (Note.time n) (Some d) (Note.velocity n)
      (Note.channel n) (Note.instrument n)
}.

(** A control change has no [duration] property. *)
#[global] Instance ControlChange_Element : Element ControlChange.t := {
  time := ControlChange.time;
  duration := fun _ => None;
  set_time := fun t c =>
    ControlChange.mk (ControlChange.number c) t (ControlChange.value c)
      (ControlChange.channel c) (ControlChange.instrument c);
  set_duration := fun _ c => c
}.

Section ApplyTempo.
Context (changes : list Control.t) (bpm : Qc).

(** [let oldTime = 0, newTime = 0, index = 0, speed = 1] *)
Record Warp : Type := mkWarp {
  oldTime : Qc;
  newTime : Qc;
  index : nat;
  speed : Qc
}.

Definition warp0 : Warp := mkWarp (Q2Qc 0) (Q2Qc 0) 0 (Q2Qc 1).

(** [while (changes[index + 1] && element.time >= changes[index + 1].time)]:
    every turn increments [index], so the loop takes fewer than
    [length changes] turns. *)
Fixpoint skip_changes (fuel : nat) (t : Qc) (w : Warp) : Warp :=
  match fuel with
  | O => w
  | S fuel' =>
      match changes !! (index w + 1)%nat with
      | Some next =>
          if Qcleb (Control.time next) t then
            skip_changes fuel' t
              (mkWarp (Control.time next)
                 (newTime w + (Control.time next - oldTime w) * speed w)%Qc
                 (index w + 1)
                 (bpm / Control.value next)%Qc)
          else w
      | None => w
      end
  end.

(** The body of [elements.forEach((element) => ...)].  [changes[index]]
    is always defined: [changes] is not empty and [index] only moves to
    a position that was just read. *)
Definition retime {A} `{Element A} (w : Warp) (element : A) : Warp * A :=
  match changes !! index w with
  | None => (w, element)
  | Some current =>
      if Qcltb (time element) (Control.time current) then (w, element)
      else
        let w1 :=
          mkWarp (Control.time current) (newTime w) (index w)
            (bpm / Control.value current)%Qc in
        let w2 := skip_changes (length changes) (time element) w1 in
        let element1 :=
          set_time ((time element - oldTime w2) * speed w2 + newTime w2)%Qc
            element in
        let element2 :=
          match duration element1 with
          | Some d => set_duration (d * speed w2)%Qc element1
          | None => element1
          end in
        (w2, element2)
  end.

Fixpoint retime_all {A} `{Element A} (w : Warp) (elements : list A)
    : list A :=
  match elements with
  | [] => []
  | element :: rest =>
      let '(w', element') := retime w element in
      element' :: retime_all w' rest
  end.

Definition applyTempo {A} `{Element A} (elements : list A) : list A :=
  match elements with
  | [] => []
  | _ => retime_all warp0 elements
  end.

Definition applyTempo_track (tr : Track.t) : Track.t :=
  Track.set_controlChanges
    (map (fun kl => (fst kl, applyTempo (snd kl))) (Track.controlChanges tr))
    (Track.set_notes (applyTempo (Track.notes tr)) tr).

End ApplyTempo.

Definition applyTempoChanges (changes : list Control.t) (bpm : Qc)
    (midi : Midi.t) : Midi.t :=
  match changes with
  | [] => midi
  | _ =>
      Midi.mk (Midi.header midi)
        (map (applyTempo_track changes bpm) (Midi.tracks midi))
  end.

(** ** [decode] (lines 75-242) *)

(** [midiData] is the byte-codec's result and [header] what [parseHeader]
    ([./Header], not among the sources) makes of it. *)
Definition decode (cleanName : string -> string)
    (instrumentByName : string -> Z) (formatType : Z)
    (header : Header.t) (tracksData : list (list Event)) : Midi.t :=
  let g := scan_tracks cleanName instrumentByName header tracksData in
  applyTempoChanges (sharedTempoChanges g) (Header.bpm (sharedHeader g))
    (Midi.mk (sharedHeader g) (split formatType (mixedTracks g))).

(** ** [set bpm] (lines 432-439) *)

Definition set_bpm (bpm : Qc) (midi : Midi.t) : Midi.t :=
  let prevTempo := Header.bpm (Midi.header midi) in
  let header' :=
    Header.mk (Header.name (Midi.header midi)) bpm
      (Header.timeSignature (Midi.header midi))
      (Header.PPQ (Midi.header midi)) in
  let ratio := (prevTempo / bpm)%Qc in
  Midi.mk header' (map (Track.scale ratio) (Midi.tracks midi)).

(** ** [startTime], [duration] and [toJSON] (lines 302-316, 416-463) *)

(** [toJSON] stores [this.header] itself in the record it returns, and then
    writes through the record.  Headers therefore live in a store and both
    the [Midi] and the record hold a reference into it. *)
Module Store.
Abbreviation ref := nat.
Abbreviation t := (gmap nat Header.t).

(** A [Midi] object: [this.header] is a reference. *)
Record MidiObject : Type := mkMidi {
  header : ref;
  tracks : list Track.t
}.

(** The [Midi] value an object stands for. *)
Definition read (store : t) (this : MidiObject) : option Midi.t :=
  h ← store !! header this; Some (Midi.mk h (tracks this)).
End Store.

Section ToJSON.
(** [track.toJSON()], [track.startTime] and [track.duration] belong to
    [./Track], which is not among the sources; they read the track. *)
Context {TrackJSON : Type} (Track_toJSON : Track.t -> TrackJSON)
  (Track_startTime Track_duration : Track.t -> Qc).

Definition Qcmin (x y : Qc) : Qc := if Qcleb x y then x else y.
Definition Qcmax (x y : Qc) : Qc := if Qcleb x y then y else x.

(** [Math.min.apply(Math, startTimes) || 0], 0 without tracks. *)
Definition startTime (tracks : list Track.t) : Qc :=
  match map Track_startTime tracks with
  | [] => Q2Qc 0
  | t :: ts => fold_left Qcmin ts t
  end.

(** [Math.max.apply(Math, durations) || 0], 0 without tracks. *)
Definition duration_of (tracks : list Track.t) : Qc :=
  match map Track_duration tracks with
  | [] => Q2Qc 0
  | t :: ts => fold_left Qcmax ts t
  end.

Record MidiJSON : Type := mkJSON {
  json_header : Store.ref;
  json_startTime : Qc;
  json_duration : Qc;
  json_tracks : list TrackJSON
}.

(** [!header.name]: the name is [undefined] or the empty string. *)
Definition name_is_falsy (h : Header.t) : bool :=
  match Header.name h with
  | Some (String _ _) => false
  | _ => true
  end.

Definition set_header_name (s : string) (h : Header.t) : Header.t :=
  Header.mk (Some s) (Header.bpm h) (Header.timeSignature h) (Header.PPQ h).

Definition toJSON (this : Store.MidiObject) (store : Store.t)
    : MidiJSON * Store.t :=
  let ret :=
    mkJSON (Store.header this) (startTime (Store.tracks this))
      (duration_of (Store.tracks this))
      (map Track_toJSON (Store.tracks this)) in
  match store !! json_header ret with
  | Some h =>
      if name_is_falsy h
      then (ret, <[json_header ret := set_header_name EmptyString h]> store)
      else (ret, store)
  | None => (ret, store)
  end.

End ToJSON.

(** ** [load] (lines 50-68) *)

Module Promise.
Inductive state (A E : Type) : Type :=
  | Pending
  | Fulfilled (value : A)
  | Rejected (reason : E).
Arguments Pending {A E}.
Arguments Fulfilled {A E} _.
Arguments Rejected {A E} _.
End Promise.

Section Load.
(** The response bytes, the byte-codec [Decoder] (it throws on a stream
    it cannot tokenize: [None]) and [parseHeader] are external. *)
Context {Bytes ErrorEvent : Type}.
Context (cleanName : string -> string) (instrumentByName : string -> Z).

Record MidiData : Type := mkMidiData {
  formatType : Z;
  tracksData : list (list Event)
}.

Context (Decoder : Bytes -> option MidiData)
  (parseHeader : MidiData -> Header.t).

(** [this.decode(request.response)]; [None] when the byte-codec throws. *)
Definition decode_response (response : Bytes) : option Midi.t :=
  midiData ← Decoder response;
  Some (decode cleanName instrumentByName (formatType midiData)
          (parseHeader midiData) (tracksData midiData)).

(** What the request delivers to its listeners. *)
Inductive Delivery : Type :=
  | OnLoad (readyState status : Z) (response : Bytes)
  | OnError (event : ErrorEvent).

(** What [fail] is called with. *)
Inductive Failure : Type :=
  | Status (status : Z)
  | NetworkError (event : ErrorEvent).

(** What the returned promise can resolve with: the [Midi] passed to
    [success], or the [undefined] the [catch] handler returns. *)
Inductive Resolution : Type :=
  | Decoded (midi : Midi.t)
  | Undefined.

(** The promise built by [new Promise((success, fail) => ...)].  An
    exception of [decode] leaves the ['load'] listener without calling
    [success] or [fail]. *)
Definition request (d : Delivery) : Promise.state Resolution Failure :=
  match d with
  | OnLoad readyState status response =>
      if bool_decide (readyState = 4) && bool_decide (status = 200) then
        match decode_response response with
        | Some midi => Promise.Fulfilled (Decoded midi)
        | None => Promise.Pending
        end
      else Promise.Rejected (Status status)
  | OnError event => Promise.Rejected (NetworkError event)
  end.

(** [.catch(function(error) { console.log(error); })]: the handler
    returns [undefined], so a rejection becomes a fulfilment.  The second
    component is what was written to the console. *)
Definition catch_log (p : Promise.state Resolution Failure)
    : Promise.state Resolution Failure * list Failure :=
  match p with
  | Promise.Rejected error => (Promise.Fulfilled Undefined, [error])
  | _ => (p, [])
  end.

Definition load (d : Delivery)
    : Promise.state Resolution Failure * list Failure :=
  catch_log (request d).

(** A transport failure: a network error, or a response whose status
    is not 200. *)
Definition transport_failure (d : Delivery) : Prop :=
  match d with
  | OnLoad _ status _ => status <> 200
  | OnError _ => True
  end.

(** What a failed delivery hands to [fail]: [request.status] (line 60),
    or the event of the ['error'] listener (line 63). *)
Definition fail_argument (d : Delivery) : Failure :=
  match d with
  | OnLoad _ status _ => Status status
  | OnError event => NetworkError event
  end.

End Load.

(** ** What the warp leaves alone *)

(** A note, a control change and a track without their times and
    durations. *)
Definition note_rest (n : Note.t) : Z * Qc * Z * Z :=
  (Note.pitch n, Note.velocity n, Note.channel n, Note.instrument n).

Definition control_rest (c : ControlChange.t) : ControlType * Qc * Z * Z :=
  (ControlChange.number c, ControlChange.value c, ControlChange.channel c,
   ControlChange.instrument c).

Record TrackRest : Type := mkTrackRest {
  rest_id : option nat;
  rest_name : option string;
  rest_channelNumber : Z;
  rest_instrumentNumber : Z;
  rest_midiType : option Z;
  rest_notes : list (Z * Qc * Z * Z);
  rest_controlChanges : list (ControlType * list (ControlType * Qc * Z * Z))
}.

Definition track_rest (tr : Track.t) : TrackRest :=
  mkTrackRest (Track.id tr) (Track.name tr) (Track.channelNumber tr)
    (Track.instrumentNumber tr) (Track.midiType tr)
    (map note_rest (Track.notes tr))
    (map (fun kl => (fst kl, map control_rest (snd kl)))
       (Track.controlChanges tr)).

(** ** Decidable equality of the data model *)

#[global] Instance Qc_eq_decision : EqDecision Qc := Qc_eq_dec.

#[global] Instance Control_eq_dec : EqDecision Control.t.
Proof. solve_decision. Defined.

#[global] Instance Header_eq_dec : EqDecision Header.t.
Proof. solve_decision. Defined.

#[global] Instance Note_eq_dec : EqDecision Note.t.
Proof. solve_decision. Defined.

#[global] Instance ControlChange_eq_dec : EqDecision ControlChange.t.
Proof. solve_decision. Defined.

#[global] Instance Track_eq_dec : EqDecision Track.t.
Proof. solve_decision. Defined.

#[global] Instance Midi_eq_dec : EqDecision Midi.t.
Proof. solve_decision. Defined.

(** ** The two-track scenario of spec 8 *)

Module Scenario.
(** PPQ 480, reference tempo 120 BPM. *)
Definition header : Header.t := Header.mk None (Z2Qc 120) (4, 4) 480.

(** Track 0: a set-tempo to 60 BPM (1000000 microseconds per beat) at
    tick 480.  Track 1: a note-on at tick 960 and its note-off 480 ticks
    later. *)
Definition tracksData : list (list Event) :=
  [ [mkEvent 480 (SetTempo 1000000)];
    [mkEvent 960 (NoteOn 0 60 127); mkEvent 480 (NoteOff 0 60 0)] ].

Definition scanned : Shared :=
  scan_tracks (fun s => s) (fun _ => -1) header tracksData.

(** The Midi before the warp, on the nominal timeline. *)
Definition nominal : Midi.t :=
  Midi.mk (sharedHeader scanned) (split 1 (mixedTracks scanned)).

Definition changes : list Control.t := sharedTempoChanges scanned.

Definition warped : Midi.t :=
  applyTempoChanges changes (Z2Qc 120) nominal.

Definition notes_of (midi : Midi.t) : list Note.t :=
  concat (map Track.notes (Midi.tracks midi)).
End Scenario.

(** ** A small Midi *)

Module Sample.
Definition header : Header.t := Header.mk None (Z2Qc 120) (4, 4) 480.

Definition note : Note.t :=
  Note.mk 60 (Z2Qc 1) (Some (Q2Qc (1 # 2))) (Z2Qc 1) 0 0.

Definition control : ControlChange.t :=
  ControlChange.mk (Controller 7) (Q2Qc (3 # 4)) (Q2Qc (1 # 2)) 0 0.

Definition track : Track.t :=
  Track.mk (Some 0%nat) None 0 0 [note] [(Controller 7, [control])] (Some 1).

Definition midi : Midi.t := Midi.mk header [track].
End Sample.

(** ** A raw track that starts on channel 0 *)

Module ChannelZero.
(** A volume controller on channel 0, then one on channel 1. *)
Definition trackData : list Event :=
  [ mkEvent 0 (ControllerEvent 0 7 100);
    mkEvent 0 (ControllerEvent 1 7 100) ].

Definition scanned : Scan :=
  scan_track (fun s => s) (fun _ => -1) trackData
    (mkShared [] [] ∅ Sample.header).

(** The same with two events that the loop has no branch for (channel
    aftertouch), so that no method of [Track] is called. *)
Definition aftertouch : list Event :=
  [ mkEvent 0 (OtherChannelEvent 0); mkEvent 0 (OtherChannelEvent 1) ].

Definition scanned_aftertouch : Scan :=
  scan_track (fun s => s) (fun _ => -1) aftertouch
    (mkShared [] [] ∅ Sample.header).
End ChannelZero.

(** ** Reading the splitter's table *)

(** [subTracks[channel][instrument]], [undefined] when the row or the
    entry is missing. *)
Definition subtrack_at (channel instrument : Z)
    (subTracks : JsArray.t (JsArray.t Track.t)) : option Track.t :=
  JsArray.get instrument (default JsArray.empty (JsArray.get channel subTracks)).

(** [subTracks[channel][instrument] = tr], in the row [subTracks[channel]]
    (an empty row when there is none yet). *)
Definition put_subtrack (channel instrument : Z) (tr : Track.t)
    (subTracks : JsArray.t (JsArray.t Track.t))
    : JsArray.t (JsArray.t Track.t) :=
  JsArray.set channel
    (JsArray.set instrument tr
       (default JsArray.empty (JsArray.get channel subTracks)))
    subTracks.

(** All the notes of a list of tracks, track after track. *)
Definition notes_of_tracks (l : list Track.t) : list Note.t :=
  concat (map Track.notes l).

(** A note reaches the output when both its keys are array indices. *)
Definition placeable (n : Note.t) : bool :=
  JsArray.is_index (Note.channel n) && JsArray.is_index (Note.instrument n).

(** The notes of a raw track with their channel and instrument resolved. *)
Definition resolved_notes (mixedTrack : Track.t) : list Note.t :=
  map (resolve_note mixedTrack) (Track.notes mixedTrack).

(** The ranges of the data model (spec 3): a note's channel is 0-15, an
    instrument is a program number 0-127 or -1. *)
Definition note_in_range (n : Note.t) : Prop :=
  0 <= Note.channel n <= 15 /\ -1 <= Note.instrument n <= 127.

Definition raw_track_in_range (tr : Track.t) : Prop :=
  -1 <= Track.instrumentNumber tr <= 127
  /\ Forall note_in_range (Track.notes tr).

(** The ranges of the byte-codec's tokens: a channel is a 4-bit number and
    a program number a 7-bit one. *)
Definition event_in_range (event : Event) : Prop :=
  match body event with
  | NoteOn c _ _ | NoteOff c _ _ | ControllerEvent c _ _
  | PitchBendEvent c _ | OtherChannelEvent c => 0 <= c <= 15
  | ProgramChange c p => 0 <= c <= 15 /\ 0 <= p <= 127
  | TrackName _ | InstrumentName _ | SetTempo _ | OtherMetaEvent => True
  end.

(** What the event loop maintains on such tokens. *)
Definition scan_in_range (s : Scan) : Prop :=
  raw_track_in_range (track s)
  /\ map_Forall (fun _ i => -1 <= i <= 127) (channelInstruments s).

(** A track keyed by (channel, instrument) that holds a note, or a
    control change under its controller id. *)
Definition holds_note (c i : Z) (note : Note.t) (tr : Track.t) : Prop :=
  Track.channelNumber tr = c /\ Track.instrumentNumber tr = i
  /\ note ∈ Track.notes tr.

Definition holds_control (c i : Z) (k : ControlType) (cc : ControlChange.t)
    (tr : Track.t) : Prop :=
  Track.channelNumber tr = c /\ Track.instrumentNumber tr = i
  /\ exists l, (k, l) ∈ Track.controlChanges tr /\ cc ∈ l.

(** Every sub track of the table carries its own keys. *)
Definition keyed (subTracks : JsArray.t (JsArray.t Track.t)) : Prop :=
  forall c i tr, subtrack_at c i subTracks = Some tr ->
    Track.channelNumber tr = c /\ Track.instrumentNumber tr = i.

(** One step of either loop of the splitter: the sub track at (c, i), made
    if missing, is replaced by its image under [f]. *)
Definition touch (formatType : Z) (mixedTrack : Track.t) (c i : Z)
    (f : Track.t -> Track.t) (subTracks : JsArray.t (JsArray.t Track.t))
    : JsArray.t (JsArray.t Track.t) :=
  put_subtrack c i
    (f (default
          (Track.set_midiType formatType
             (Track.new (Track.name mixedTrack) i c))
          (subtrack_at c i subTracks)))
    subTracks.

(** The fallback order in the words of spec 4.4: "its own if set, else the
    raw track's channel"; "its own if set, else the raw track's instrument,
    else 0 as final fallback".  Unset is the sentinel -1. *)
Module Spec.
Definition is_set (z : Z) : bool := negb (z =? -1).

Definition effective_channel (own raw_track : Z) : Z :=
  if is_set own then own else raw_track.

Definition effective_instrument (own raw_track : Z) : Z :=
  if is_set own then own
  else if is_set raw_track then raw_track
  else 0.
End Spec.

(** The tempo-change sequence is non-decreasing by time. *)
Fixpoint nondecreasing (l : list Control.t) : Prop :=
  match l with
  | [] => True
  | a :: l' =>
      Forall (fun b => (Control.time a <= Control.time b)%Qc) l'
      /\ nondecreasing l'
  end.

(** ** Reading the splitter's output *)

(** The sub track that [forEach] finds at position [n] of the row at
    position [m]. *)
Definition track_at (m n : nat)
    (subTracks : JsArray.t (JsArray.t Track.t)) : option Track.t :=
  row ← mjoin (JsArray.elems subTracks !! m);
  mjoin (JsArray.elems row !! n).

(** The control changes of a track, key after key, and of a list of
    tracks. *)
Definition controls_of (tr : Track.t) : list ControlChange.t :=
  concat (map snd (Track.controlChanges tr)).

Definition controls_of_tracks (l : list Track.t) : list ControlChange.t :=
  concat (map controls_of l).

(** The control changes of a raw track with their channel and instrument
    resolved. *)
Definition resolved_controls (mixedTrack : Track.t) : list ControlChange.t :=
  map (resolve_control mixedTrack) (controls_of mixedTrack).

Definition control_in_range (c : ControlChange.t) : Prop :=
  0 <= ControlChange.channel c <= 15 /\ -1 <= ControlChange.instrument c <= 127.

Definition raw_controls_in_range (tr : Track.t) : Prop :=
  -1 <= Track.instrumentNumber tr <= 127
  /\ Forall control_in_range (controls_of tr).

(** The (channel, instrument) key of a track, and the order in which the
    splitter emits the keys: channel first, then instrument. *)
Definition key_of (tr : Track.t) : Z * Z :=
  (Track.channelNumber tr, Track.instrumentNumber tr).

Definition key_lt (k1 k2 : Z * Z) : Prop :=
  fst k1 < fst k2 \/ (fst k1 = fst k2 /\ snd k1 < snd k2).

(** Whether a note or a control change carries the key (c, i). *)
Definition note_has_key (c i : Z) (n : Note.t) : bool :=
  bool_decide (Note.channel n = c) && bool_decide (Note.instrument n = i).

Definition control_has_key (c i : Z) (x : ControlChange.t) : bool :=
  bool_decide (ControlChange.channel x = c)
  && bool_decide (ControlChange.instrument x = i).

(** What holds of every sub track the splitter makes from the raw track
    [mixedTrack], stored under the key (c, i). *)
Definition made_from (formatType : Z) (mixedTrack : Track.t) (c i : Z)
    (tr : Track.t) : Prop :=
  Track.channelNumber tr = c
  /\ Track.instrumentNumber tr = i
  /\ Track.name tr = Track.name mixedTrack
  /\ Track.midiType tr = Some formatType
  /\ Track.id tr = None
  /\ Forall (fun n => note_has_key c i n = true) (Track.notes tr)
  /\ Forall (fun x => control_has_key c i x = true) (controls_of tr)
  /\ (0 < length (Track.notes tr) + length (controls_of tr))%nat.

(** A property of the sub tracks that [forEach] reaches, by position. *)
Definition table_all (Q : Z -> Z -> Track.t -> Prop)
    (subTracks : JsArray.t (JsArray.t Track.t)) : Prop :=
  forall m n tr, track_at m n subTracks = Some tr ->
    JsArray.is_index (Z.of_nat m) = true
    /\ JsArray.is_index (Z.of_nat n) = true
    /\ Q (Z.of_nat m) (Z.of_nat n) tr.

(** The track [new Track(mixedTrack.name, instrument, channel)] with its
    [midiType] set (lines 187-188). *)
Definition fresh_subtrack (formatType : Z) (mixedTrack : Track.t)
    (c i : Z) : Track.t :=
  Track.set_midiType formatType (Track.new (Track.name mixedTrack) i c).

(** What the output tracks keep of a sub track: everything but the id. *)
Definition same_but_id (tr tr' : Track.t) : Prop :=
  exists j, tr' = Track.set_id j tr.

(** The notes found so far ([seen], resolved) are filed by key: every
    reachable sub track holds exactly the notes with its key, in the order
    they were found, and every note with index keys has its sub track. *)
Definition notes_by_key (seen : list Note.t)
    (subTracks : JsArray.t (JsArray.t Track.t)) : Prop :=
  table_all
    (fun c i tr => Track.notes tr = List.filter (note_has_key c i) seen)
    subTracks
  /\ forall n, n ∈ seen -> placeable n = true ->
       is_Some (track_at (Z.to_nat (Note.channel n))
                  (Z.to_nat (Note.instrument n)) subTracks).

(** The order of two tracks by their keys. *)
Definition track_key_lt (a b : Track.t) : Prop :=
  key_lt (key_of a) (key_of b).

(** A control change reaches the output when both its keys are array
    indices. *)
Definition placeable_control (x : ControlChange.t) : bool :=
  JsArray.is_index (ControlChange.channel x)
  && JsArray.is_index (ControlChange.instrument x).

(** The state of the warp after an element at time [t] that is not
    before the current breakpoint: the breakpoint's time and speed, and the
    breakpoint is not after [t]. *)
Definition settled (changes : list Control.t) (bpm t : Qc) (w : Warp)
    : Prop :=
  exists current,
    changes !! index w = Some current
    /\ oldTime w = Control.time current
    /\ speed w = (bpm / Control.value current)%Qc
    /\ (Control.time current <= t)%Qc.

(** ** [track] and [get] (lines 323-340) *)

(** [track(name)]: a track made by [new Track(name)] is pushed and
    returned. *)
Definition add_track (name : option string) (midi : Midi.t)
    : Track.t * Midi.t :=
  let track := Track.new name (-1) (-1) in
  (track, Midi.mk (Midi.header midi) (Midi.tracks midi ++ [track])).

(** The argument of [get]: a number ([Util.isNumber]), or anything else,
    which is compared with the track names ([None] for [undefined]). *)
Inductive TrackRef : Type :=
  | ByNumber (trackNumber : Z)
  | ByName (trackName : option string).

(** [get(trackName)]: [this.tracks[trackName]] ([undefined] off the
    array) or [this.tracks.find((t) => t.name === trackName)]. *)
Definition get (trackName : TrackRef) (midi : Midi.t) : option Track.t :=
  match trackName with
  | ByNumber n =>
      if 0 <=? n then Midi.tracks midi !! Z.to_nat n else None
  | ByName name =>
      List.find (fun t => bool_decide (Track.name t = name)) (Midi.tracks midi)
  end.

(** ** [slice] and the [bpm] setter on stored headers (lines 349-354,
    432-439) *)

Section Slice.
(** [track.slice(startTime, endTime)] and [track.duration] belong to
    [./Track]. *)
Context (Track_slice : Qc -> Qc -> Track.t -> Track.t)
  (Track_duration : Track.t -> Qc).

(** [slice(startTime=0, endTime=this.duration)]: an argument left out is
    [None]; the new Midi gets [this.header] itself. *)
Definition slice (startTime endTime : option Qc) (this : Store.MidiObject)
    : Store.MidiObject :=
  let startTime := default (Q2Qc 0) startTime in
  let endTime :=
    default (duration_of Track_duration (Store.tracks this)) endTime in
  Store.mkMidi (Store.header this)
    (map (Track_slice startTime endTime) (Store.tracks this)).
End Slice.

(** [this.bpm = bpm] on a Midi whose header is in the store; [None] when
    the reference dangles. *)
Definition set_bpm_stored (bpm : Qc) (this : Store.MidiObject)
    (store : Store.t) : option (Store.MidiObject * Store.t) :=
  h ← store !! Store.header this;
  let prevTempo := Header.bpm h in
  let store' :=
    <[Store.header this :=
        Header.mk (Header.name h) bpm (Header.timeSignature h) (Header.PPQ h)]>
      store in
  let ratio := (prevTempo / bpm)%Qc in
  Some (Store.mkMidi (Store.header this)
          (map (Track.scale ratio) (Store.tracks this)),
        store').

(** The [bpm] getter (lines 429-431) on a Midi whose header is in the
    store. *)
Definition get_bpm (this : Store.MidiObject) (store : Store.t) : option Qc :=
  Header.bpm <$> store !! Store.header this.

(** ** What the event loop leaves on a raw track and in the header *)

(** The instrument number that lines 139-146 and 153-158 take from an
    event: the program number, or the number the [instrument] setter of
    [Track] finds for the name. *)
Definition instrument_value (instrumentByName : string -> Z)
    (event : Event) : option Z :=
  match body event with
  | ProgramChange _ programNumber => Some programNumber
  | InstrumentName text => Some (instrumentByName text)
  | _ => None
  end.

(** The first of the instrument numbers that is not the sentinel -1. *)
Definition first_instrument (values : list Z) : Z :=
  default (-1) (List.find (fun i => negb (i =? -1)) values).

(** [!track.length && track.name] of line 170. *)
Definition names_file (tr : Track.t) : bool :=
  Track.is_empty tr
  && match Track.name tr with
     | Some (String _ _) => true
     | _ => false
     end.

Definition not_controller_zero (c : ControlChange.t) : Prop :=
  ControlChange.number c <> Controller 0.

(** What a note-on event says of its note (line 127): pitch, velocity
    and channel; and the same three fields of a note. *)
Definition note_on_of (event : Event) : option (Z * Qc * Z) :=
  match body event with
  | NoteOn c noteNumber velocity =>
      Some (noteNumber, (Z2Qc velocity / Z2Qc 127)%Qc, c)
  | _ => None
  end.

Definition note_sound (n : Note.t) : Z * Qc * Z :=
  (Note.pitch n, Note.velocity n, Note.channel n).

(** ** [fromJSON] (lines 19-29) *)

(** [Track.fromJSON] belongs to [./Track].  The header object that
    [new Midi()] makes is dropped at once for [json.header], so no header
    is added to the store. *)
Definition fromJSON {TrackJSON : Type} (Track_fromJSON : TrackJSON -> Track.t)
    (json : @MidiJSON TrackJSON) : Store.MidiObject :=
  Store.mkMidi (json_header json) (map Track_fromJSON (json_tracks json)).

(** * Properties *)

Lemma Qcleb_le (x y : Qc) : Qcleb x y = true <-> (x <= y)%Qc.
Proof.
  rewrite Qcle_alt. unfold Qcleb.
  destruct (x ?= y)%Qc; split; intros H; congruence.
Qed.

Lemma Qcleb_gt (x y : Qc) : Qcleb x y = false <-> (y < x)%Qc.
Proof.
  rewrite Qclt_nge, <- Qcleb_le. destruct (Qcleb x y); split; congruence.
Qed.

Lemma Qcltb_lt (x y : Qc) : Qcltb x y = true <-> (x < y)%Qc.
Proof.
  rewrite Qclt_alt. unfold Qcltb.
  destruct (x ?= y)%Qc; split; congruence.
Qed.

Lemma Qcltb_ge (x y : Qc) : Qcltb x y = false <-> (y <= x)%Qc.
Proof.
  rewrite Qcle_ngt, <- Qcltb_lt. destruct (Qcltb x y); split; congruence.
Qed.

(** ** The tempo-change sequence *)

Section TempoCurve.
Implicit Types (l : list Control.t) (x ev : Control.t) (t : Qc).

Lemma nondecreasing_lookup l i j a b :
  nondecreasing l -> (i <= j)%nat ->
  l !! i = Some a -> l !! j = Some b ->
  (Control.time a <= Control.time b)%Qc.
Proof.
  revert i j. induction l as [|c l IH]; intros i j Hs Hij Ha Hb.
  - by rewrite lookup_nil in Ha.
  - destruct Hs as [Hc Hs]. destruct i as [|i], j as [|j]; simpl in *.
    + simplify_eq. apply Qcle_refl.
    + simplify_eq. rewrite Forall_forall in Hc. apply Hc.
      eapply list_elem_of_lookup_2; eauto.
    + lia.
    + apply (IH i j); auto with lia.
Qed.

Lemma nondecreasing_app_cons l1 l2 x :
  nondecreasing (l1 ++ l2) ->
  Forall (fun a => (Control.time a <= Control.time x)%Qc) l1 ->
  Forall (fun b => (Control.time x <= Control.time b)%Qc) l2 ->
  nondecreasing (l1 ++ x :: l2).
Proof.
  induction l1 as [|a l1 IH]; simpl; intros Hs H1 H2.
  - auto.
  - destruct Hs as [Ha Hs]. inversion H1; subst. split; [|auto].
    apply Forall_app in Ha as [Ha1 Ha2].
    apply Forall_app; split; [done|]. constructor; done.
Qed.

(** The bisection, on a sorted array, stops at the boundary between the
    entries with time <= [t] and those with time > [t]; the fuel
    [hi - lo] is never exhausted before the window closes. *)
Lemma search_loop_spec l t fuel : forall lo hi,
  nondecreasing l ->
  (lo <= hi <= length l)%nat -> (hi - lo <= fuel)%nat ->
  (forall j a, (j < lo)%nat -> l !! j = Some a -> (Control.time a <= t)%Qc) ->
  (forall j a, (hi <= j)%nat -> l !! j = Some a -> (t < Control.time a)%Qc) ->
  let r := BinaryInsert.search_loop fuel l t lo hi in
  (lo <= r <= hi)%nat
  /\ (forall j a, (j < r)%nat -> l !! j = Some a -> (Control.time a <= t)%Qc)
  /\ (forall j a, (r <= j)%nat -> l !! j = Some a -> (t < Control.time a)%Qc).
Proof.
  induction fuel as [|fuel IH]; intros lo hi Hs Hb Hf Hlo Hhi;
    cbn [BinaryInsert.search_loop]; cbv zeta.
  - assert (lo = hi) by lia. subst. auto with lia.
  - destruct (Nat.ltb_spec lo hi) as [Hlt|Hge].
    2:{ assert (lo = hi) by lia. subst. auto with lia. }
    set (mid := ((lo + hi) / 2)%nat).
    assert (lo <= mid < hi)%nat as Hmid.
    { subst mid. split.
      - apply Nat.div_le_lower_bound; lia.
      - apply Nat.Div0.div_lt_upper_bound; lia. }
    destruct (lookup_lt_is_Some_2 l mid) as [ev Hev]; [lia|].
    rewrite Hev. destruct (Qcleb (Control.time ev) t) eqn:Hc.
    + apply Qcleb_le in Hc.
      assert (forall j a, (j < S mid)%nat -> l !! j = Some a ->
                          (Control.time a <= t)%Qc) as Hlo'.
      { intros j a Hj Ha. eapply Qcle_trans; [|exact Hc].
        eapply (nondecreasing_lookup l j mid); eauto with lia. }
      destruct (IH (S mid) hi Hs) as (Hr & H1 & H2); [lia|lia|done|done|].
      repeat split; auto with lia.
    + apply Qcleb_gt in Hc.
      assert (forall j a, (mid <= j)%nat -> l !! j = Some a ->
                          (t < Control.time a)%Qc) as Hhi'.
      { intros j a Hj Ha. eapply Qclt_le_trans; [exact Hc|].
        eapply (nondecreasing_lookup l mid j); eauto with lia. }
      destruct (IH lo mid Hs) as (Hr & H1 & H2); [lia|lia|done|done|].
      repeat split; auto with lia.
Qed.

Lemma search_spec l t :
  nondecreasing l ->
  let r := BinaryInsert.search l t in
  Forall (fun a => (Control.time a <= t)%Qc) (take r l)
  /\ Forall (fun b => (t < Control.time b)%Qc) (drop r l).
Proof.
  intros Hs r.
  destruct (search_loop_spec l t (length l) 0 (length l) Hs)
    as (Hr & H1 & H2).
  - lia.
  - lia.
  - intros j a Hj. lia.
  - intros j a Hj Ha. apply lookup_lt_Some in Ha. lia.
  - fold (BinaryInsert.search l t) in Hr, H1, H2. fold r in Hr, H1, H2.
    split; apply Forall_lookup_2; intros j a Ha.
    + apply lookup_take_Some in Ha as [Ha Hj]. eauto.
    + rewrite lookup_drop in Ha. eapply H2; [|exact Ha]. lia.
Qed.

(** One insertion splits the sequence at the boundary and keeps it
    sorted. *)
Lemma insert_split l x :
  nondecreasing l ->
  exists l1 l2,
    l = l1 ++ l2
    /\ BinaryInsert.insert l x = l1 ++ x :: l2
    /\ Forall (fun a => (Control.time a <= Control.time x)%Qc) l1
    /\ Forall (fun b => (Control.time x < Control.time b)%Qc) l2.
Proof.
  intros Hs. destruct (search_spec l (Control.time x) Hs) as [H1 H2].
  eexists _, _. split; [symmetry; apply take_drop|].
  split; [reflexivity|]. split; done.
Qed.

Lemma insert_nondecreasing l x :
  nondecreasing l -> nondecreasing (BinaryInsert.insert l x).
Proof.
  intros Hs. destruct (insert_split l x Hs) as (l1 & l2 & El & Ei & H1 & H2).
  rewrite Ei. apply nondecreasing_app_cons; [by rewrite <- El|done|].
  eapply Forall_impl; [exact H2|]. intros b. apply Qclt_le_weak.
Qed.

Lemma insert_all_nondecreasing (discovered : list Control.t) l :
  nondecreasing l ->
  nondecreasing (fold_left BinaryInsert.insert discovered l).
Proof.
  revert l. induction discovered as [|x d IH]; simpl; intros l Hs; [done|].
  apply IH, insert_nondecreasing, Hs.
Qed.

End TempoCurve.

(** ** The stages of the event loop *)

Section Stages.
Context (cleanName : string -> string) (instrumentByName : string -> Z).
Implicit Types (s : Scan) (event : Event).

Lemma advance_time_track event s : track (advance_time event s) = track s.
Proof. reflexivity. Qed.

Lemma advance_time_tempoChanges event s :
  tempoChanges (advance_time event s) = tempoChanges s.
Proof. reflexivity. Qed.

Lemma advance_time_channelInstruments event s :
  channelInstruments (advance_time event s) = channelInstruments s.
Proof. reflexivity. Qed.

Lemma assign_channel_tempoChanges event s :
  tempoChanges (assign_channel event s) = tempoChanges s.
Proof. unfold assign_channel. by repeat case_match. Qed.

Lemma assign_channel_channelInstruments event s :
  channelInstruments (assign_channel event s) = channelInstruments s.
Proof. unfold assign_channel. by repeat case_match. Qed.

(** Lines 107-109 change nothing of the track but its channel number. *)
Lemma assign_channel_track event s :
  track (assign_channel event s) = track s
  \/ exists c, event_channel event = Some c /\ c <> 0
               /\ Track.channelNumber (track s) = -1
               /\ track (assign_channel event s)
                  = Track.set_channelNumber c (track s).
Proof.
  unfold assign_channel. destruct (event_channel event) as [c|]; [|by left].
  unfold truthy. destruct (Z.eqb_spec c 0) as [->|Hc]; simpl; [by left|].
  case_bool_decide as Hu; [|by left]. right. by exists c.
Qed.

Lemma record_controller_track event s :
  track (record_controller event s) = track s.
Proof. unfold record_controller. by repeat case_match. Qed.

Lemma record_controller_tempoChanges event s :
  tempoChanges (record_controller event s) = tempoChanges s.
Proof. unfold record_controller. by repeat case_match. Qed.

Lemma record_controller_channelInstruments event s :
  channelInstruments (record_controller event s) = channelInstruments s.
Proof. unfold record_controller. by repeat case_match. Qed.

Lemma dispatch_tempoChanges event s :
  tempoChanges (dispatch cleanName instrumentByName event s) = tempoChanges s
  \/ exists st,
       tempoChanges (dispatch cleanName instrumentByName event s)
       = BinaryInsert.insert (tempoChanges s) st.
Proof.
  unfold dispatch, with_track.
  destruct (body event); simpl; repeat case_match; simpl; eauto.
Qed.

(** The dispatch leaves a channel number that is set, and sets an unset
    one only on a note-on. *)
Lemma dispatch_channelNumber event s :
  Track.channelNumber (track (dispatch cleanName instrumentByName event s))
  = match body event with
    | NoteOn c _ _ =>
        if bool_decide (Track.channelNumber (track s) = -1) then c
        else Track.channelNumber (track s)
    | _ => Track.channelNumber (track s)
    end.
Proof.
  unfold dispatch, with_track.
  destruct (body event); simpl; repeat case_match; simpl; done.
Qed.
End Stages.

(** The event loop only ever changes [tempoChanges] by [BinaryInsert]. *)
Lemma on_event_tempoChanges cleanName instrumentByName s event :
  tempoChanges (on_event cleanName instrumentByName s event) = tempoChanges s
  \/ exists st,
       tempoChanges (on_event cleanName instrumentByName s event)
       = BinaryInsert.insert (tempoChanges s) st.
Proof.
  unfold on_event.
  pose proof (dispatch_tempoChanges cleanName instrumentByName event
                (record_controller event
                   (assign_channel event (advance_time event s)))) as H.
  by rewrite record_controller_tempoChanges, assign_channel_tempoChanges,
    advance_time_tempoChanges in H.
Qed.

Lemma scan_tracks_nondecreasing cleanName instrumentByName h tracksData :
  nondecreasing
    (sharedTempoChanges (scan_tracks cleanName instrumentByName h tracksData)).
Proof.
  unfold scan_tracks.
  assert (nondecreasing (sharedTempoChanges (mkShared [] [] ∅ h))) as H0
    by exact I.
  revert H0. generalize (mkShared [] [] ∅ h).
  induction tracksData as [|trackData rest IH]; intros g Hg; simpl; [done|].
  apply IH. unfold on_track, scan_track. simpl.
  match goal with |- nondecreasing (tempoChanges (fold_left _ _ ?s0)) =>
    assert (nondecreasing (tempoChanges s0)) as Hs by exact Hg;
    revert Hs; generalize s0 end.
  induction trackData as [|event evs IHe]; intros s Hs; simpl; [done|].
  apply IHe.
  destruct (on_event_tempoChanges cleanName instrumentByName s event)
    as [->|[st ->]]; [done|by apply insert_nondecreasing].
Qed.

(** C7.  Whatever the breakpoints discovered and whatever their order, the
    sequence built by inserting them one after the other is non-decreasing
    by time; one more insertion keeps it so and puts the new breakpoint
    after every entry whose time is less than or equal to its own (so after
    the existing entries of equal time) and before every later one. *)
Theorem tempo_changes_nondecreasing :
  forall (discovered : list Control.t) (x : Control.t),
    let curve := fold_left BinaryInsert.insert discovered [] in
    nondecreasing curve
    /\ nondecreasing (BinaryInsert.insert curve x)
    /\ exists before after,
         curve = before ++ after
         /\ BinaryInsert.insert curve x = before ++ x :: after
         /\ Forall (fun a => (Control.time a <= Control.time x)%Qc) before
         /\ Forall (fun b => (Control.time x < Control.time b)%Qc) after.
Proof.
  intros discovered x curve.
  assert (nondecreasing curve) as Hs
    by (apply insert_all_nondecreasing; exact I).
  split; [done|]. split; [by apply insert_nondecreasing|].
  by apply insert_split.
Qed.

(** ** The warp's loop over the breakpoints *)

Section WarpLoop.
Context (changes : list Control.t) (bpm : Qc).

(** [index] only moves to a position that holds a breakpoint. *)
Lemma skip_changes_index fuel t : forall w,
  (index w < length changes)%nat ->
  (index (skip_changes changes bpm fuel t w) < length changes)%nat.
Proof.
  induction fuel as [|fuel IH]; intros w Hw; simpl; [done|].
  destruct (changes !! (index w + 1)%nat) as [next|] eqn:Hnext; [|done].
  case_match; [|done]. apply IH. simpl.
  by apply lookup_lt_Some in Hnext.
Qed.

(** The loop has stopped by itself once the fuel covers the breakpoints
    after [index]: more fuel changes nothing. *)
Lemma skip_changes_fuel fuel t : forall w,
  (length changes - (index w + 1) <= fuel)%nat ->
  skip_changes changes bpm (S fuel) t w
  = skip_changes changes bpm fuel t w.
Proof.
  induction fuel as [|fuel IH]; intros w Hf.
  - simpl. rewrite lookup_ge_None_2 by lia. done.
  - cbn [skip_changes].
    destruct (changes !! (index w + 1)%nat) as [next|] eqn:Hnext; [|done].
    case_match; [|done]. rewrite <- IH by (simpl; lia). done.
Qed.

(** In particular the fuel [length changes] that [retime] gives the loop
    is enough. *)
Lemma skip_changes_enough extra t w :
  skip_changes changes bpm (length changes + extra) t w
  = skip_changes changes bpm (length changes) t w.
Proof.
  induction extra as [|extra IH].
  - by rewrite Nat.add_0_r.
  - rewrite Nat.add_succ_r, skip_changes_fuel by lia. exact IH.
Qed.

Lemma retime_index {A} `{Element A} w (element : A) :
  (index w < length changes)%nat ->
  is_Some (changes !! index w)
  /\ (index (fst (retime changes bpm w element)) < length changes)%nat.
Proof.
  intros Hw. split; [by apply lookup_lt_is_Some_2|].
  unfold retime. destruct (changes !! index w); [|done].
  case_match; [done|]. simpl. by apply skip_changes_index.
Qed.
End WarpLoop.

(** ** The tempo warp *)

(** C9.  With an empty breakpoint sequence [applyTempoChanges] returns the
    Midi as it is: no time and no duration changes. *)
Theorem applyTempoChanges_no_changes :
  forall (bpm : Qc) (midi : Midi.t), applyTempoChanges [] bpm midi = midi.
Proof. reflexivity. Qed.

Section Frame.
Context (changes : list Control.t) (bpm : Qc).
Context {A B : Type} `{Element A} (rest : A -> B).
Hypothesis rest_set_time : forall t a, rest (set_time t a) = rest a.
Hypothesis rest_set_duration : forall d a, rest (set_duration d a) = rest a.

Lemma retime_rest w a : rest (snd (retime changes bpm w a)) = rest a.
Proof.
  unfold retime. destruct (changes !! index w); [|done].
  case_match; [done|]. simpl. case_match.
  - by rewrite rest_set_duration, rest_set_time.
  - by rewrite rest_set_time.
Qed.

Lemma retime_all_rest l : forall w,
  map rest (retime_all changes bpm w l) = map rest l.
Proof.
  induction l as [|a l IH]; intros w; simpl; [done|].
  pose proof (retime_rest w a) as Ha.
  destruct (retime changes bpm w a) as [w' a']. simpl in *.
  by rewrite Ha, IH.
Qed.

Lemma applyTempo_rest l : map rest (applyTempo changes bpm l) = map rest l.
Proof. destruct l; [done|]. apply retime_all_rest. Qed.
End Frame.

Lemma applyTempo_track_rest changes bpm tr :
  track_rest (applyTempo_track changes bpm tr) = track_rest tr.
Proof.
  unfold track_rest, applyTempo_track. simpl. f_equal.
  - by apply applyTempo_rest.
  - rewrite map_map. apply map_ext. intros [k l]. simpl. f_equal.
    by apply applyTempo_rest.
Qed.

(** C10.  [applyTempoChanges] writes nothing but times and durations: the
    header is the same, and the tracks, once times and durations are
    projected away, are the same list (same number of tracks, same ids,
    names, channel and instrument numbers, and in every track the same
    notes and control changes in the same order with the same pitch,
    velocity, value, controller id, channel and instrument). *)
Theorem applyTempoChanges_frame :
  forall (changes : list Control.t) (bpm : Qc) (midi : Midi.t),
    Midi.header (applyTempoChanges changes bpm midi) = Midi.header midi
    /\ map track_rest (Midi.tracks (applyTempoChanges changes bpm midi))
       = map track_rest (Midi.tracks midi).
Proof.
  intros changes bpm midi. destruct changes as [|c cs]; [done|].
  split; [done|]. simpl. rewrite map_map. apply map_ext.
  intros tr. apply applyTempo_track_rest.
Qed.

(** Closed facts about concrete values are settled by evaluation. *)
Ltac by_evaluation :=
  match goal with
  | |- ?P => apply (bool_decide_eq_true_1 P); vm_compute; reflexivity
  end.

(** ** The scenario of spec 8 *)

Lemma scenario_changes :
  Scenario.changes = [Control.mk (Q2Qc (1 # 2)) (Z2Qc 60)].
Proof. by_evaluation. Qed.

Lemma scenario_nominal_notes :
  Scenario.notes_of Scenario.nominal
  = [Note.mk 60 (Z2Qc 1) (Some (Q2Qc (1 # 2))) (Z2Qc 1) 0 0].
Proof. by_evaluation. Qed.

Lemma scenario_warped_notes :
  Scenario.notes_of Scenario.warped
  = [Note.mk 60 (Z2Qc 1) (Some (Z2Qc 1)) (Z2Qc 1) 0 0].
Proof. by_evaluation. Qed.

(** The warp is the last step of [decode]. *)
Lemma scenario_decode :
  decode (fun s => s) (fun _ => -1) 1 Scenario.header Scenario.tracksData
  = Scenario.warped.
Proof. by_evaluation. Qed.

(** The note's start after the warp: [(1 - 1/2) * 2 + newTime] with
    [newTime] still 0, since the half second before the first breakpoint
    is not added to it. *)
Lemma scenario_warped_time :
  map Note.time (Scenario.notes_of Scenario.warped) = [Z2Qc 1].
Proof. by rewrite scenario_warped_notes. Qed.

(** With a single breakpoint at [t0], a note that starts exactly at [t0]
    is moved to time 0, whatever [t0] is: the time before the first
    breakpoint is not counted. *)
Lemma retime_at_first_breakpoint (t0 v bpm : Qc) (n : Note.t) :
  Note.time n = t0 ->
  Note.time (snd (retime [Control.mk t0 v] bpm warp0 n)) = Q2Qc 0.
Proof.
  intros Ht. unfold retime. simpl. rewrite Ht.
  rewrite (proj2 (Qcltb_ge t0 t0)) by apply Qcle_refl.
  simpl. destruct (Note.duration n); simpl; ring.
Qed.

(** C1, as stated, fails: after the warp the note starts at 1.0 s, not at
    1.5 s, and lasts 1.0 s, not 0.5 s. *)
Lemma scenario_not_as_stated :
  exists n,
    Scenario.notes_of Scenario.warped = [n]
    /\ Note.time n <> Q2Qc (3 # 2)
    /\ Note.duration n <> Some (Q2Qc (1 # 2)).
Proof.
  eexists. split; [exact scenario_warped_notes|]. simpl.
  split; intros Heq; discriminate Heq.
Qed.

(** C1, amended.  In the scenario the breakpoint is (0.5 s, 60 BPM), the
    note lasts 0.5 s on the nominal timeline (480 ticks at 120 BPM), and
    the warp with reference 120 BPM rewrites its duration to 1.0 s. *)
Theorem scenario_warped_duration :
  Scenario.changes = [Control.mk (Q2Qc (1 # 2)) (Z2Qc 60)]
  /\ map Note.duration (Scenario.notes_of Scenario.nominal)
     = [Some (Q2Qc (1 # 2))]
  /\ map Note.duration (Scenario.notes_of Scenario.warped)
     = [Some (Z2Qc 1)].
Proof.
  split; [exact scenario_changes|].
  by rewrite scenario_nominal_notes, scenario_warped_notes.
Qed.

(** ** The [bpm] setter *)

Lemma scale_note_inverse (r1 r2 : Qc) n :
  (r1 * r2 = 1)%Qc -> Track.scale_note r2 (Track.scale_note r1 n) = n.
Proof.
  intros Hr. destruct n as [p t d v c i]. unfold Track.scale_note. simpl.
  f_equal.
  - rewrite <- Qcmult_assoc, Hr. apply Qcmult_1_r.
  - destruct d as [d|]; simpl; [|done]. f_equal.
    rewrite <- Qcmult_assoc, Hr. apply Qcmult_1_r.
Qed.

Lemma scale_control_inverse (r1 r2 : Qc) c :
  (r1 * r2 = 1)%Qc -> Track.scale_control r2 (Track.scale_control r1 c) = c.
Proof.
  intros Hr. destruct c as [k t v c i]. unfold Track.scale_control. simpl.
  f_equal. rewrite <- Qcmult_assoc, Hr. apply Qcmult_1_r.
Qed.

Lemma scale_inverse (r1 r2 : Qc) tr :
  (r1 * r2 = 1)%Qc -> Track.scale r2 (Track.scale r1 tr) = tr.
Proof.
  intros Hr. destruct tr as [i n c p ns ccs ty].
  unfold Track.scale, Track.set_controlChanges, Track.set_notes. simpl.
  f_equal.
  - rewrite map_map. rewrite <- (map_id ns) at 2. apply map_ext.
    intros a. by apply scale_note_inverse.
  - rewrite map_map. rewrite <- (map_id ccs) at 2. apply map_ext.
    intros [k l]. simpl. f_equal.
    rewrite map_map. rewrite <- (map_id l) at 2. apply map_ext.
    intros a. by apply scale_control_inverse.
Qed.

(** C5.  From a Midi whose bpm is [b1], setting the bpm to [b2] and then
    back to [b1] gives back the same Midi: every note time and duration
    and every control-change time has its original value (exactly, in
    rational arithmetic). *)
Theorem set_bpm_inverse (midi : Midi.t) (b2 : Qc) :
  let b1 := Header.bpm (Midi.header midi) in
  (0 < b1)%Qc -> (0 < b2)%Qc ->
  set_bpm b1 (set_bpm b2 midi) = midi.
Proof.
  intros b1 H1 H2. destruct midi as [[n b ts ppq] tracks].
  unfold set_bpm. simpl in *. subst b1. f_equal.
  rewrite map_map. rewrite <- (map_id tracks) at 2. apply map_ext.
  intros tr. apply scale_inverse.
  assert (b <> 0)%Qc
    by (intros ->; revert H1; apply Qcle_not_lt, Qcle_refl).
  assert (b2 <> 0)%Qc
    by (intros ->; revert H2; apply Qcle_not_lt, Qcle_refl).
  field. done.
Qed.

(** The round trip 120 -> 60 -> 120 on the small Midi. *)
Lemma set_bpm_inverse_witness :
  (0 < Header.bpm (Midi.header Sample.midi))%Qc
  /\ (0 < Z2Qc 60)%Qc
  /\ set_bpm (Header.bpm (Midi.header Sample.midi))
       (set_bpm (Z2Qc 60) Sample.midi) = Sample.midi.
Proof.
  split; [reflexivity|]. split; [reflexivity|].
  apply (set_bpm_inverse Sample.midi (Z2Qc 60)); reflexivity.
Defined.

(** ** [toJSON] *)

(** C3, as stated, fails: on a Midi without tracks whose header has no
    name, the Midi read back after [toJSON] is not the Midi read before. *)
Lemma toJSON_changes_unnamed_header :
  let store : Store.t := {[ 0%nat := Sample.header ]} in
  let this := Store.mkMidi 0%nat [] in
  let after :=
    snd (toJSON (fun _ => tt) (fun _ => Q2Qc 0) (fun _ => Q2Qc 0) this store) in
  Header.name Sample.header = None
  /\ Store.read after this <> Store.read store this
  /\ (Header.name <$> after !! Store.header this) = Some (Some EmptyString).
Proof.
  simpl. split; [done|]. split; [|by_evaluation].
  intros Heq. apply (f_equal (fun o => Header.name <$> (Midi.header <$> o))) in Heq.
  vm_compute in Heq. discriminate Heq.
Qed.

Section ToJSONFacts.
Context {TrackJSON : Type} (Track_toJSON : Track.t -> TrackJSON)
  (Track_startTime Track_duration : Track.t -> Qc).

(** C3, amended.  [toJSON] returns a record that holds the Midi's own
    header; it leaves the tracks, the bpm, the time signature and the
    PPQ of the Midi as they are, and every other header of the store;
    a non-empty header name is kept, and an unset (or empty) one becomes
    the empty string. *)
Theorem toJSON_normalises_name
    (this : Store.MidiObject) (store : Store.t) (h : Header.t) :
  store !! Store.header this = Some h ->
  let result :=
    toJSON Track_toJSON Track_startTime Track_duration this store in
  let name' :=
    match Header.name h with
    | Some (String a s) => Some (String a s)
    | _ => Some EmptyString
    end in
  json_header (fst result) = Store.header this
  /\ Store.read (snd result) this
     = Some (Midi.mk
               (Header.mk name' (Header.bpm h) (Header.timeSignature h)
                  (Header.PPQ h))
               (Store.tracks this))
  /\ forall r, r <> Store.header this -> snd result !! r = store !! r.
Proof.
  intros Hh. unfold toJSON, Store.read. simpl. rewrite Hh.
  destruct h as [[[|a s]|] b ts ppq]; simpl.
  - split; [done|]. rewrite lookup_insert_eq. split; [done|].
    intros r Hr. by rewrite lookup_insert_ne.
  - rewrite Hh. done.
  - split; [done|]. rewrite lookup_insert_eq. split; [done|].
    intros r Hr. by rewrite lookup_insert_ne.
Qed.
End ToJSONFacts.

(** On a stored header without a name. *)
Lemma toJSON_normalises_name_witness :
  let this := Store.mkMidi 0%nat [Sample.track] in
  let store : Store.t := {[ 0%nat := Sample.header ]} in
  let result :=
    toJSON (fun tr => Track.name tr) (fun _ => Q2Qc 0) (fun _ => Q2Qc 0)
      this store in
  store !! Store.header this = Some Sample.header
  /\ Store.read (snd result) this
     = Some (Midi.mk (Header.mk (Some EmptyString) (Z2Qc 120) (4, 4) 480)
               [Sample.track]).
Proof.
  split; [reflexivity|].
  apply (toJSON_normalises_name (fun tr => Track.name tr)
           (fun _ => Q2Qc 0) (fun _ => Q2Qc 0)
           (Store.mkMidi 0%nat [Sample.track])
           {[ 0%nat := Sample.header ]} Sample.header).
  reflexivity.
Defined.

(** ** [load] *)

Section LoadFacts.
Context {Bytes ErrorEvent : Type}.
Context (cleanName : string -> string) (instrumentByName : string -> Z).
Context (Decoder : Bytes -> option MidiData)
  (parseHeader : MidiData -> Header.t).

Let load_ := @load Bytes ErrorEvent cleanName instrumentByName Decoder
               parseHeader.

(** A decoded response resolves the promise with the Midi. *)
Lemma load_success response midi :
  decode_response cleanName instrumentByName Decoder parseHeader response
  = Some midi ->
  load_ (OnLoad 4 200 response) = (Promise.Fulfilled (Decoded midi), []).
Proof. intros Hd. unfold load_, load, request. simpl. by rewrite Hd. Qed.

(** When the byte-codec throws, the promise is never settled. *)
Lemma load_parse_failure response :
  Decoder response = None ->
  load_ (OnLoad 4 200 response) = (Promise.Pending, []).
Proof.
  intros Hd. unfold load_, load, request, decode_response. simpl.
  by rewrite Hd.
Qed.

(** C2, amended.  On every transport failure [fail] is called with the
    status of the response or with the error event, [load]'s own [catch]
    handler writes exactly that to the console, and the promise [load]
    returns is fulfilled with [undefined], never rejected.  This outcome
    differs from that of a parse failure, which leaves the promise
    pending, and from that of a successful load, which fulfils the
    promise with the Midi. *)
Theorem load_transport_failure (d : Delivery) :
  transport_failure d ->
  request cleanName instrumentByName Decoder parseHeader d
  = Promise.Rejected (fail_argument d)
  /\ load_ d = (Promise.Fulfilled Undefined, [fail_argument d])
  /\ (forall reason, fst (load_ d) <> Promise.Rejected reason)
  /\ (forall response,
        Decoder response = None ->
        fst (load_ (OnLoad 4 200 response)) = Promise.Pending
        /\ load_ d <> load_ (OnLoad 4 200 response))
  /\ (forall response midi,
        decode_response cleanName instrumentByName Decoder parseHeader
          response = Some midi ->
        fst (load_ (OnLoad 4 200 response))
        = Promise.Fulfilled (Decoded midi)
        /\ load_ d <> load_ (OnLoad 4 200 response)).
Proof.
  intros Hf.
  assert (request cleanName instrumentByName Decoder parseHeader d
          = Promise.Rejected (fail_argument d)) as Hr.
  { destruct d as [readyState status response|event]; simpl in *; [|done].
    rewrite (bool_decide_eq_false_2 (status = 200)) by done.
    by rewrite andb_false_r. }
  assert (load_ d = (Promise.Fulfilled Undefined, [fail_argument d])) as Hl
    by (unfold load_, load; by rewrite Hr).
  split; [done|]. split; [done|]. split; [by rewrite Hl|]. split.
  - intros response Hd. rewrite Hl, (load_parse_failure response Hd).
    split; [done|discriminate].
  - intros response midi Hd. rewrite Hl, (load_success response midi Hd).
    split; [done|discriminate].
Qed.
End LoadFacts.

(** C2, as stated, fails: on a response with status 404 the promise that
    [load] returns is fulfilled, not rejected. *)
Lemma load_fulfilled_on_404 :
  let d : @Delivery unit unit := OnLoad 4 404 tt in
  let returned :=
    fst (load (fun s => s) (fun _ => -1) (fun _ => None)
           (fun _ => Sample.header) d) in
  transport_failure d
  /\ returned = Promise.Fulfilled Undefined
  /\ ~ (exists reason, returned = Promise.Rejected reason).
Proof.
  simpl. split; [done|]. split; [reflexivity|].
  intros [reason Hr]. vm_compute in Hr. discriminate Hr.
Qed.

(** On a response with status 404: [fail] gets 404, and 404 is what the
    console shows. *)
Lemma load_transport_failure_witness :
  let d : @Delivery unit unit := OnLoad 4 404 tt in
  transport_failure d
  /\ load (fun s => s) (fun _ => -1) (fun _ => None)
       (fun _ => Sample.header) d
     = (Promise.Fulfilled Undefined, [Status 404]).
Proof.
  split; [simpl; lia|].
  destruct (load_transport_failure (fun s => s) (fun _ => -1)
              (fun _ : unit => None) (fun _ => Sample.header)
              (OnLoad 4 404 tt : @Delivery unit unit))
    as (_ & Hl & _); [simpl; lia|].
  exact Hl.
Defined.

(** ** The track's channel number in the event loop *)

Section ChannelNumber.
Context (cleanName : string -> string) (instrumentByName : string -> Z).

Let step := on_event cleanName instrumentByName.

(** The channel number after one event, stage by stage. *)
Lemma step_channelNumber s event :
  Track.channelNumber (track (step s event))
  = let before :=
      Track.channelNumber (track (assign_channel event (advance_time event s)))
    in
    match body event with
    | NoteOn c _ _ => if bool_decide (before = -1) then c else before
    | _ => before
    end.
Proof.
  unfold step, on_event. rewrite dispatch_channelNumber.
  by rewrite record_controller_track.
Qed.

Lemma assign_channel_kept s event :
  Track.channelNumber (track s) <> -1 ->
  Track.channelNumber (track (assign_channel event (advance_time event s)))
  = Track.channelNumber (track s).
Proof.
  intros Hset.
  destruct (assign_channel_track event (advance_time event s))
    as [->|(c & _ & _ & Hu & _)]; [done|].
  by rewrite advance_time_track in Hu.
Qed.

(** Once set, the channel number is never overwritten. *)
Lemma channelNumber_kept s event :
  Track.channelNumber (track s) <> -1 ->
  Track.channelNumber (track (step s event))
  = Track.channelNumber (track s).
Proof.
  intros Hset. rewrite step_channelNumber. simpl.
  rewrite (assign_channel_kept s event Hset).
  rewrite (bool_decide_eq_false_2 _ Hset). by destruct (body event).
Qed.

Lemma channelNumber_kept_all events : forall s,
  Track.channelNumber (track s) <> -1 ->
  Track.channelNumber (track (fold_left step events s))
  = Track.channelNumber (track s).
Proof.
  induction events as [|event rest IH]; intros s Hset; simpl; [done|].
  rewrite IH.
  - by apply channelNumber_kept.
  - by rewrite channelNumber_kept.
Qed.

(** An event without a channel leaves it as it is. *)
Lemma channelNumber_meta s event :
  event_channel event = None ->
  Track.channelNumber (track (step s event))
  = Track.channelNumber (track s).
Proof.
  intros Hc. rewrite step_channelNumber. simpl.
  assert (track (assign_channel event (advance_time event s)) = track s)
    as -> by (unfold assign_channel; by rewrite Hc).
  unfold event_channel in Hc. by destruct (body event).
Qed.

(** An unset channel number is taken from an event on a channel other
    than 0, and from a note-on on any channel. *)
Lemma channelNumber_taken s event c :
  Track.channelNumber (track s) = -1 ->
  event_channel event = Some c ->
  c <> 0 \/ (exists n v, body event = NoteOn c n v) ->
  Track.channelNumber (track (step s event)) = c.
Proof.
  intros Hunset Hc Hor. rewrite step_channelNumber. simpl.
  assert (Track.channelNumber
            (track (assign_channel event (advance_time event s)))
          = if truthy c then c else -1) as ->.
  { unfold assign_channel. rewrite Hc, advance_time_track.
    rewrite (bool_decide_eq_true_2 _ Hunset), andb_true_r.
    destruct (truthy c); simpl; done. }
  unfold truthy. destruct (Z.eqb_spec c 0) as [->|Hne]; simpl.
  - destruct Hor as [?|(n & v & ->)]; [done|]. done.
  - unfold event_channel in Hc.
    destruct (body event); try done; injection Hc as ->; try done.
    by case_bool_decide.
Qed.
End ChannelNumber.

(** C4 on channel 0.  The first event of the track carries channel 0, yet
    after the loop the track's channel number is 1, the channel of the
    second event: an event other than a note-on does not assign channel 0.
    This is so for two controller events and for two aftertouch events. *)
Theorem channelNumber_skips_channel_zero :
  (event_channel <$> head ChannelZero.trackData) = Some (Some 0)
  /\ Track.channelNumber (track ChannelZero.scanned) = 1
  /\ (event_channel <$> head ChannelZero.aftertouch) = Some (Some 0)
  /\ Track.channelNumber (track ChannelZero.scanned_aftertouch) = 1.
Proof.
  split; [reflexivity|]. split; [by_evaluation|].
  split; [reflexivity|by_evaluation].
Qed.

(** ** The raw tracks the event loop builds are in range *)

Section ScanRange.
Context (cleanName : string -> string) (instrumentByName : string -> Z).
Hypothesis instrumentByName_range :
  forall text, -1 <= instrumentByName text <= 127.

Lemma close_pending_in_range pitch t c ns :
  Forall note_in_range ns ->
  Forall note_in_range (Track.close_pending pitch t c ns).
Proof.
  induction 1 as [|n ns Hn Hns IH]; simpl; [done|].
  case_match; constructor; done.
Qed.

Lemma instrument_of_range s c :
  scan_in_range s -> -1 <= instrument_of s c <= 127.
Proof.
  intros [_ Hm]. unfold instrument_of.
  destruct (channelInstruments s !! c) as [i|] eqn:Hi; simpl; [|lia].
  by apply (Hm c i).
Qed.

Lemma dispatch_in_range s event :
  event_in_range event -> scan_in_range s ->
  scan_in_range (dispatch cleanName instrumentByName event s).
Proof.
  intros He Hs.
  assert (forall c, -1 <= default (-1) (channelInstruments s !! c) <= 127)
    as Hio by (intros c; by apply instrument_of_range).
  destruct Hs as [[Hi Hn] Hm].
  unfold dispatch, with_track, instrument_of.
  unfold scan_in_range, raw_track_in_range, event_in_range in *.
  destruct (body event) as [c n v|c n v|c ct v|c p|c v|c|text|text|us|];
    simpl in *; repeat case_match; simpl in *;
    (refine (conj (conj _ _) _);
     [ try done; try lia; try apply instrumentByName_range
     | try done; try (by apply close_pending_in_range);
       try (apply Forall_app; split; [done|]; repeat constructor; simpl;
            try lia; apply Hio)
     | try done; try (apply map_Forall_insert_2; [|done]);
       try apply instrumentByName_range; try lia ]).
Qed.

Lemma on_event_in_range s event :
  event_in_range event -> scan_in_range s ->
  scan_in_range (on_event cleanName instrumentByName s event).
Proof.
  intros He Hs. unfold on_event. apply dispatch_in_range; [done|].
  destruct Hs as [[Hi Hn] Hm]. unfold scan_in_range.
  rewrite record_controller_channelInstruments,
    assign_channel_channelInstruments, advance_time_channelInstruments.
  split; [|done]. rewrite record_controller_track.
  destruct (assign_channel_track event (advance_time event s))
    as [->|(c & _ & _ & _ & ->)]; rewrite advance_time_track; done.
Qed.

Lemma scan_tracks_in_range h tracksData :
  Forall (Forall event_in_range) tracksData ->
  Forall raw_track_in_range
    (mixedTracks (scan_tracks cleanName instrumentByName h tracksData)).
Proof.
  intros Hall. unfold scan_tracks.
  assert (Forall raw_track_in_range (mixedTracks (mkShared [] [] ∅ h))
          /\ map_Forall (fun _ i => -1 <= i <= 127)
               (sharedInstruments (mkShared [] [] ∅ h))) as H0.
  { split; [constructor|apply map_Forall_empty]. }
  revert H0. generalize (mkShared [] [] ∅ h).
  induction Hall as [|trackData rest Hev Hrest IH]; intros g [Hg Hm];
    simpl; [done|].
  apply IH. unfold on_track, scan_track. simpl.
  match goal with |- context [fold_left _ _ ?s0] =>
    assert (scan_in_range s0) as Hs;
      [|revert Hs; generalize s0] end.
  { split; [|done]. split; simpl; [lia|constructor]. }
  induction Hev as [|event evs He Hevs IHe]; intros s Hs; simpl.
  - destruct Hs as [Htr Hmap]. split; [|done].
    apply Forall_app. split; [done|]. by constructor.
  - by apply IHe, on_event_in_range.
Qed.
End ScanRange.

(** ** Arrays written by index behave as maps *)

Section JsArrayFacts.
Context {A : Type}.
Implicit Types (l : list (option A)) (a : JsArray.t A) (v w : A).

Lemma write_lookup_eq n v l :
  JsArray.write n v l !! n = Some (Some v).
Proof.
  unfold JsArray.write. destruct (Nat.ltb_spec n (length l)) as [Hlt|Hge].
  - by apply list_lookup_insert_eq.
  - rewrite lookup_app_r by done.
    rewrite lookup_app_r by (rewrite length_replicate; lia).
    rewrite length_replicate, Nat.sub_diag. done.
Qed.

Lemma write_lookup_ne n n' v l :
  n <> n' ->
  mjoin (JsArray.write n v l !! n') = mjoin (l !! n').
Proof.
  intros Hne. unfold JsArray.write.
  destruct (Nat.ltb_spec n (length l)) as [Hlt|Hge].
  - by rewrite list_lookup_insert_ne.
  - destruct (Nat.lt_ge_cases n' (length l)) as [Hlt'|Hge'].
    + by rewrite lookup_app_l.
    + rewrite (lookup_ge_None_2 l n') by done.
      rewrite lookup_app_r by done.
      destruct (Nat.lt_ge_cases n' n) as [Hlt''|Hge''].
      * rewrite lookup_app_l by (rewrite length_replicate; lia).
        rewrite lookup_replicate_2 by lia. done.
      * rewrite lookup_app_r by (rewrite length_replicate; lia).
        rewrite length_replicate.
        rewrite lookup_ge_None_2 by (simpl; lia). done.
Qed.

Lemma write_write n v w l :
  JsArray.write n v (JsArray.write n w l) = JsArray.write n v l.
Proof.
  unfold JsArray.write at 2 3.
  destruct (Nat.ltb_spec n (length l)) as [Hlt|Hge].
  - unfold JsArray.write. rewrite length_insert.
    destruct (Nat.ltb_spec n (length l)); [|lia].
    apply list_insert_insert_eq.
  - unfold JsArray.write.
    rewrite !length_app, length_replicate. simpl.
    destruct (Nat.ltb_spec n (length l + (n - length l + 1))); [|lia].
    rewrite insert_app_r_alt by done.
    rewrite insert_app_r_alt by (rewrite length_replicate; lia).
    rewrite length_replicate, Nat.sub_diag. done.
Qed.

Lemma omap_replicate_None n :
  omap id (replicate n (@None A)) = [].
Proof. induction n; simpl; done. Qed.

(** A write puts [v] at one place of the visited values, where the old
    entry (if any) was. *)
Lemma write_values n v l :
  exists xs ys : list A,
    omap id (JsArray.write n v l) = xs ++ v :: ys
    /\ omap id l = xs ++ option_list (mjoin (l !! n)) ++ ys.
Proof.
  unfold JsArray.write. destruct (Nat.ltb_spec n (length l)) as [Hlt|Hge].
  - destruct (lookup_lt_is_Some_2 l n Hlt) as [x Hx].
    exists (omap id (take n l)), (omap id (drop (S n) l)). split.
    + rewrite insert_take_drop by done. by rewrite omap_app.
    + rewrite <- (take_drop_middle l n x Hx) at 1.
      rewrite omap_app, Hx. simpl. by destruct x.
  - exists (omap id l), []. split.
    + rewrite !omap_app, omap_replicate_None. done.
    + rewrite (lookup_ge_None_2 l n) by done. simpl.
      by rewrite app_nil_r.
Qed.

Lemma is_index_to_nat k k' :
  JsArray.is_index k = true -> JsArray.is_index k' = true ->
  k <> k' -> Z.to_nat k <> Z.to_nat k'.
Proof. unfold JsArray.is_index. lia. Qed.

Lemma get_set_eq k v a : JsArray.get k (JsArray.set k v a) = Some v.
Proof.
  unfold JsArray.get, JsArray.set. destruct (JsArray.is_index k); simpl.
  - by rewrite write_lookup_eq.
  - by rewrite lookup_insert_eq.
Qed.

Lemma get_set_ne k k' v a :
  k <> k' -> JsArray.get k' (JsArray.set k v a) = JsArray.get k' a.
Proof.
  intros Hne. unfold JsArray.get, JsArray.set.
  destruct (JsArray.is_index k) eqn:Hk, (JsArray.is_index k') eqn:Hk';
    simpl; try done.
  - apply write_lookup_ne. by apply is_index_to_nat.
  - by rewrite lookup_insert_ne.
Qed.

Lemma set_set k v w a :
  JsArray.set k v (JsArray.set k w a) = JsArray.set k v a.
Proof.
  unfold JsArray.set. destruct (JsArray.is_index k); simpl.
  - by rewrite write_write.
  - by rewrite insert_insert_eq.
Qed.

Lemma get_empty k : JsArray.get k (@JsArray.empty A) = None.
Proof. unfold JsArray.get. by destruct (JsArray.is_index k). Qed.

(** What [forEach] visits before and after [a[k] = v]. *)
Lemma set_values k v a :
  exists xs ys : list A,
    JsArray.values (JsArray.set k v a)
    = xs ++ (if JsArray.is_index k then [v] else []) ++ ys
    /\ JsArray.values a
       = xs ++ (if JsArray.is_index k
                then option_list (JsArray.get k a) else []) ++ ys.
Proof.
  unfold JsArray.values, JsArray.set, JsArray.get.
  destruct (JsArray.is_index k); simpl.
  - apply write_values.
  - exists (omap id (JsArray.elems a)), []. by rewrite app_nil_r.
Qed.

Lemma get_values k v a :
  JsArray.is_index k = true -> JsArray.get k a = Some v ->
  v ∈ JsArray.values a.
Proof.
  unfold JsArray.get, JsArray.values. intros -> Hget.
  apply list_elem_of_omap. exists (Some v). split; [|done].
  destruct (JsArray.elems a !! Z.to_nat k) as [x|] eqn:Hx; [|done].
  simpl in Hget. subst x. by eapply list_elem_of_lookup_2.
Qed.
End JsArrayFacts.

(** ** The splitter's table *)

Section SubTrackTable.
Context (formatType : Z).
Implicit Types (st : JsArray.t (JsArray.t Track.t)) (tr mt : Track.t).

Lemma subtrack_at_put_eq c i tr st :
  subtrack_at c i (put_subtrack c i tr st) = Some tr.
Proof.
  unfold subtrack_at, put_subtrack. rewrite get_set_eq. simpl.
  apply get_set_eq.
Qed.

Lemma subtrack_at_put_ne c i c' i' tr st :
  (c', i') <> (c, i) ->
  subtrack_at c' i' (put_subtrack c i tr st) = subtrack_at c' i' st.
Proof.
  intros Hne. unfold subtrack_at, put_subtrack.
  destruct (decide (c = c')) as [<-|Hc].
  - rewrite get_set_eq. simpl. apply get_set_ne. congruence.
  - by rewrite get_set_ne.
Qed.

Lemma put_put c i tr tr' st :
  put_subtrack c i tr (put_subtrack c i tr' st) = put_subtrack c i tr st.
Proof.
  unfold put_subtrack. rewrite get_set_eq. simpl.
  by rewrite !set_set.
Qed.

Lemma subtrack_at_row c i tr st :
  subtrack_at c i st = Some tr ->
  exists row, JsArray.get c st = Some row /\ JsArray.get i row = Some tr.
Proof.
  unfold subtrack_at. destruct (JsArray.get c st) as [row|]; simpl.
  - eauto.
  - by rewrite get_empty.
Qed.

Lemma getSubtrack_put mt c i st :
  getSubtrack formatType mt c i st
  = match subtrack_at c i st with
    | Some _ => st
    | None =>
        put_subtrack c i
          (Track.set_midiType formatType (Track.new (Track.name mt) i c)) st
    end.
Proof.
  unfold getSubtrack, subtrack_at, put_subtrack.
  destruct (JsArray.get c st) as [row|] eqn:Hrow; simpl.
  - rewrite Hrow. simpl. by destruct (JsArray.get i row).
  - rewrite get_set_eq. simpl. rewrite !get_empty. by rewrite set_set.
Qed.

Lemma update_subtrack_put c i f st :
  update_subtrack c i f st
  = match subtrack_at c i st with
    | Some tr => put_subtrack c i (f tr) st
    | None => st
    end.
Proof.
  unfold update_subtrack, subtrack_at, put_subtrack.
  destruct (JsArray.get c st) as [row|]; simpl.
  - done.
  - by rewrite get_empty.
Qed.

(** Fetching the sub track and writing through the reference amounts to
    one write into the table. *)
Lemma update_getSubtrack mt c i f st :
  update_subtrack c i f (getSubtrack formatType mt c i st)
  = put_subtrack c i
      (f (default
            (Track.set_midiType formatType (Track.new (Track.name mt) i c))
            (subtrack_at c i st)))
      st.
Proof.
  rewrite update_subtrack_put, getSubtrack_put.
  destruct (subtrack_at c i st) as [tr|] eqn:Hat; simpl.
  - by rewrite Hat.
  - by rewrite subtrack_at_put_eq, put_put.
Qed.

Lemma flatten_put c i tr st :
  exists xs ys : list Track.t,
    flatten (put_subtrack c i tr st)
    = xs ++ (if JsArray.is_index c && JsArray.is_index i
             then [tr] else []) ++ ys
    /\ flatten st
       = xs ++ (if JsArray.is_index c && JsArray.is_index i
                then option_list (subtrack_at c i st) else []) ++ ys.
Proof.
  unfold flatten, put_subtrack, subtrack_at.
  set (row := default JsArray.empty (JsArray.get c st)).
  destruct (set_values c (JsArray.set i tr row) st) as (xs & ys & E1 & E2).
  destruct (set_values i tr row) as (rs & rt & R1 & R2).
  rewrite E1, E2. destruct (JsArray.is_index c); simpl.
  - exists (concat (map JsArray.values xs) ++ rs),
           (rt ++ concat (map JsArray.values ys)).
    rewrite !map_app, !concat_app. simpl. rewrite R1.
    assert (concat (map JsArray.values (option_list (JsArray.get c st)))
            = JsArray.values row) as ->.
    { subst row. destruct (JsArray.get c st); simpl; [|done].
      by rewrite app_nil_r. }
    rewrite R2. by rewrite <- !app_assoc.
  - exists (concat (map JsArray.values xs)), (concat (map JsArray.values ys)).
    by rewrite !map_app, !concat_app.
Qed.
End SubTrackTable.

(** ** The splitter keeps the notes *)

Section SplitNotes.
Context (formatType : Z).
Implicit Types (st : JsArray.t (JsArray.t Track.t)) (tr mt : Track.t).

Lemma notes_of_tracks_app (l1 l2 : list Track.t) :
  notes_of_tracks (l1 ++ l2) = notes_of_tracks l1 ++ notes_of_tracks l2.
Proof. unfold notes_of_tracks. by rewrite map_app, concat_app. Qed.

(** Replacing a sub track by one that has [extra] more notes. *)
Lemma put_subtrack_notes c i tr st extra :
  Track.notes tr
  = notes_of_tracks (option_list (subtrack_at c i st)) ++ extra ->
  notes_of_tracks (flatten (put_subtrack c i tr st))
  ≡ₚ notes_of_tracks (flatten st)
     ++ (if JsArray.is_index c && JsArray.is_index i then extra else []).
Proof.
  intros Hnotes. destruct (flatten_put c i tr st) as (xs & ys & -> & ->).
  rewrite !notes_of_tracks_app.
  destruct (JsArray.is_index c && JsArray.is_index i).
  - unfold notes_of_tracks at 2. simpl. rewrite app_nil_r, Hnotes.
    rewrite <- !app_assoc. do 2 f_equiv. apply Permutation_app_comm.
  - by rewrite app_nil_r.
Qed.

Lemma new_or_existing_notes mt c i st :
  Track.notes
    (default (Track.set_midiType formatType (Track.new (Track.name mt) i c))
       (subtrack_at c i st))
  = notes_of_tracks (option_list (subtrack_at c i st)).
Proof.
  destruct (subtrack_at c i st); simpl; [|done].
  unfold notes_of_tracks. simpl. by rewrite app_nil_r.
Qed.

Lemma add_note_notes mt st n :
  notes_of_tracks (flatten (add_note formatType mt st n))
  ≡ₚ notes_of_tracks (flatten st)
     ++ (if placeable (resolve_note mt n) then [resolve_note mt n] else []).
Proof.
  unfold add_note. rewrite update_getSubtrack.
  apply put_subtrack_notes. simpl. by rewrite new_or_existing_notes.
Qed.

Lemma add_control_notes mt k st cc :
  notes_of_tracks (flatten (add_control formatType mt k st cc))
  ≡ₚ notes_of_tracks (flatten st).
Proof.
  unfold add_control. rewrite update_getSubtrack.
  rewrite put_subtrack_notes with (extra := []).
  - destruct (_ && _); by rewrite app_nil_r.
  - simpl. by rewrite new_or_existing_notes, app_nil_r.
Qed.

Lemma add_notes_notes mt ns : forall st,
  notes_of_tracks (flatten (fold_left (add_note formatType mt) ns st))
  ≡ₚ notes_of_tracks (flatten st)
     ++ List.filter placeable (map (resolve_note mt) ns).
Proof.
  induction ns as [|n ns IH]; intros st; simpl.
  - by rewrite app_nil_r.
  - rewrite IH, add_note_notes. rewrite <- app_assoc. f_equiv.
    by destruct (placeable (resolve_note mt n)).
Qed.

Lemma add_controls_notes mt entries : forall st,
  notes_of_tracks (flatten (fold_left (add_controls formatType mt) entries st))
  ≡ₚ notes_of_tracks (flatten st).
Proof.
  induction entries as [|[k l] entries IH]; intros st; simpl; [done|].
  rewrite IH. unfold add_controls. simpl. clear IH.
  revert st. induction l as [|cc l IHl]; intros st; simpl; [done|].
  by rewrite IHl, add_control_notes.
Qed.

Lemma subTracks_of_notes mt :
  notes_of_tracks (flatten (subTracks_of formatType mt))
  ≡ₚ List.filter placeable (resolved_notes mt).
Proof.
  unfold subTracks_of. rewrite add_controls_notes, add_notes_notes. done.
Qed.

Lemma number_from_notes l : forall k,
  notes_of_tracks (number_from k l) = notes_of_tracks l.
Proof.
  induction l as [|tr l IH]; intros k; [done|].
  unfold notes_of_tracks in *. simpl. by rewrite IH.
Qed.

(** In general the output holds the placeable notes, each once. *)
Lemma split_notes mixedTracks : forall out,
  notes_of_tracks (fold_left (split_track formatType) mixedTracks out)
  ≡ₚ notes_of_tracks out
     ++ concat (map (fun mt => List.filter placeable (resolved_notes mt))
                  mixedTracks).
Proof.
  induction mixedTracks as [|mt rest IH]; intros out; simpl.
  - by rewrite app_nil_r.
  - rewrite IH. unfold split_track.
    rewrite notes_of_tracks_app, number_from_notes, subTracks_of_notes.
    by rewrite <- app_assoc.
Qed.

Lemma in_range_placeable mt n :
  raw_track_in_range mt -> n ∈ Track.notes mt ->
  placeable (resolve_note mt n) = true.
Proof.
  intros [Hi Hn] Hin. rewrite Forall_forall in Hn.
  destruct (Hn n Hin) as [Hc Hin'].
  unfold placeable, resolve_note, resolve_channel, resolve_instrument,
    JsArray.is_index. simpl.
  repeat case_bool_decide; lia.
Qed.

Lemma in_range_filter mt :
  raw_track_in_range mt ->
  List.filter placeable (resolved_notes mt) = resolved_notes mt.
Proof.
  intros Hr. unfold resolved_notes.
  assert (Forall (fun n => n ∈ Track.notes mt) (Track.notes mt)) as Hall
    by (by apply Forall_forall).
  induction Hall as [|n ns Hn Hns IH]; simpl; [done|].
  by rewrite (in_range_placeable mt n Hr Hn), IH.
Qed.
End SplitNotes.

(** C6.  The notes of the output tracks are the notes of the raw tracks
    (with channel and instrument resolved), each exactly once, so their
    total numbers are equal.  The raw tracks are those of the data model:
    note channels 0-15, instruments -1 or 0-127. *)
Theorem split_preserves_notes (formatType : Z) (mixedTracks : list Track.t) :
  Forall raw_track_in_range mixedTracks ->
  notes_of_tracks (split formatType mixedTracks)
  ≡ₚ concat (map resolved_notes mixedTracks)
  /\ length (notes_of_tracks (split formatType mixedTracks))
     = length (notes_of_tracks mixedTracks).
Proof.
  intros Hr.
  assert (notes_of_tracks (split formatType mixedTracks)
          ≡ₚ concat (map resolved_notes mixedTracks)) as Hp.
  { unfold split. rewrite split_notes. simpl.
    induction Hr as [|mt rest Hmt Hrest IH]; simpl; [done|].
    by rewrite in_range_filter, IH. }
  split; [done|]. rewrite Hp. unfold notes_of_tracks, resolved_notes.
  clear. induction mixedTracks as [|mt rest IH]; simpl; [done|].
  by rewrite !length_app, length_map, IH.
Qed.

(** On the one track of the small Midi. *)
Lemma split_preserves_notes_witness :
  Forall raw_track_in_range [Sample.track]
  /\ length (notes_of_tracks (split 1 [Sample.track]))
     = length (notes_of_tracks [Sample.track]).
Proof.
  assert (Forall raw_track_in_range [Sample.track]) as Hr.
  { repeat constructor; simpl; lia. }
  split; [exact Hr|].
  apply (split_preserves_notes 1 [Sample.track] Hr).
Defined.

(** ** Where the splitter puts an element *)

Section Placement.
Context (formatType : Z).
Implicit Types (st : JsArray.t (JsArray.t Track.t)) (tr mt : Track.t).

Lemma keyed_empty : keyed JsArray.empty.
Proof.
  intros c i tr. unfold subtrack_at.
  by rewrite !get_empty; simpl; rewrite get_empty.
Qed.

Lemma touch_keyed mt c i f st :
  (forall tr, Track.channelNumber (f tr) = Track.channelNumber tr
              /\ Track.instrumentNumber (f tr) = Track.instrumentNumber tr) ->
  keyed st -> keyed (touch formatType mt c i f st).
Proof.
  intros Hf Hk c' i' tr'. unfold touch.
  destruct (decide ((c', i') = (c, i))) as [[= -> ->]|Hne].
  - rewrite subtrack_at_put_eq. intros [= <-].
    destruct (Hf (default
      (Track.set_midiType formatType (Track.new (Track.name mt) i c))
      (subtrack_at c i st))) as [-> ->].
    destruct (subtrack_at c i st) as [tr|] eqn:Hat; simpl; [|done].
    by apply Hk.
  - rewrite subtrack_at_put_ne by done. apply Hk.
Qed.

Lemma touch_adds mt c i f st (R : Track.t -> Prop) :
  (forall tr, R (f tr)) ->
  exists tr, subtrack_at c i (touch formatType mt c i f st) = Some tr /\ R tr.
Proof.
  intros Hf. unfold touch. rewrite subtrack_at_put_eq. eauto.
Qed.

Lemma touch_keeps mt c i f st c0 i0 (R : Track.t -> Prop) :
  (forall tr, R tr -> R (f tr)) ->
  (exists tr, subtrack_at c0 i0 st = Some tr /\ R tr) ->
  exists tr, subtrack_at c0 i0 (touch formatType mt c i f st) = Some tr /\ R tr.
Proof.
  intros Hf (tr & Hat & HR). unfold touch.
  destruct (decide ((c0, i0) = (c, i))) as [[= -> ->]|Hne].
  - rewrite subtrack_at_put_eq, Hat. simpl. eauto.
  - rewrite subtrack_at_put_ne by done. eauto.
Qed.

Lemma add_note_touch mt st n :
  add_note formatType mt st n
  = touch formatType mt (Note.channel (resolve_note mt n))
      (Note.instrument (resolve_note mt n))
      (fun tr =>
         Track.set_notes (Track.notes tr ++ [resolve_note mt n]) tr) st.
Proof. unfold add_note, touch. by rewrite update_getSubtrack. Qed.

Lemma add_control_touch mt k st cc :
  add_control formatType mt k st cc
  = touch formatType mt (ControlChange.channel (resolve_control mt cc))
      (ControlChange.instrument (resolve_control mt cc))
      (fun tr =>
         Track.set_controlChanges
           (Track.push_control k (resolve_control mt cc)
              (Track.controlChanges tr)) tr) st.
Proof. unfold add_control, touch. by rewrite update_getSubtrack. Qed.

Lemma push_control_adds k c obj :
  exists l, (k, l) ∈ Track.push_control k c obj /\ c ∈ l.
Proof.
  induction obj as [|[k' l'] obj IH]; simpl.
  - exists [c]. split; apply list_elem_of_here.
  - case_bool_decide as Hk.
    + subst k'. exists (l' ++ [c]). split; [apply list_elem_of_here|].
      apply elem_of_app. right. apply list_elem_of_here.
    + destruct (Track.key_before k k').
      * exists [c]. split; apply list_elem_of_here.
      * destruct IH as (l & Hl & Hc). exists l. split; [|done].
        by apply list_elem_of_further.
Qed.

Lemma push_control_keeps k c obj k0 l0 (x : ControlChange.t) :
  (k0, l0) ∈ obj -> x ∈ l0 ->
  exists l, (k0, l) ∈ Track.push_control k c obj /\ x ∈ l.
Proof.
  intros Hin Hx. induction obj as [|[k' l'] obj IH]; simpl.
  - by apply elem_of_nil in Hin.
  - apply elem_of_cons in Hin as [[= <- <-]|Hin].
    + case_bool_decide as Hk.
      * exists (l0 ++ [c]). split; [apply list_elem_of_here|].
        apply elem_of_app. by left.
      * destruct (Track.key_before k k0).
        -- exists l0. split; [|done].
           apply list_elem_of_further, list_elem_of_here.
        -- exists l0. split; [apply list_elem_of_here|done].
    + destruct (IH Hin) as (l & Hl & Hxl).
      case_bool_decide as Hk.
      * exists l0. split; [by apply list_elem_of_further|done].
      * destruct (Track.key_before k k').
        -- exists l0. split; [|done].
           by do 2 apply list_elem_of_further.
        -- exists l. split; [by apply list_elem_of_further|done].
Qed.
End Placement.

Section PlacementLoops.
Context (formatType : Z).
Implicit Types (st : JsArray.t (JsArray.t Track.t)) (tr mt : Track.t).

(** The code's fallback chains compute the effective channel and
    instrument of the spec. *)
Lemma resolve_channel_spec mt c :
  resolve_channel mt c
  = Spec.effective_channel c (Track.channelNumber mt).
Proof.
  unfold resolve_channel, Spec.effective_channel, Spec.is_set.
  case_bool_decide as Hc.
  - subst c. done.
  - by destruct (Z.eqb_spec c (-1)).
Qed.

Lemma resolve_instrument_spec mt i :
  resolve_instrument mt i
  = Spec.effective_instrument i (Track.instrumentNumber mt).
Proof.
  unfold resolve_instrument, Spec.effective_instrument, Spec.is_set.
  case_bool_decide as Hi.
  - subst i. simpl. case_bool_decide as Ht.
    + by rewrite Ht.
    + by destruct (Z.eqb_spec (Track.instrumentNumber mt) (-1)).
  - by destruct (Z.eqb_spec i (-1)).
Qed.

Lemma add_note_keyed mt st n :
  keyed st -> keyed (add_note formatType mt st n).
Proof. rewrite add_note_touch. by apply touch_keyed. Qed.

Lemma add_control_keyed mt k st cc :
  keyed st -> keyed (add_control formatType mt k st cc).
Proof. rewrite add_control_touch. by apply touch_keyed. Qed.

Lemma add_notes_keyed mt ns : forall st,
  keyed st -> keyed (fold_left (add_note formatType mt) ns st).
Proof.
  induction ns as [|n ns IH]; intros st Hk; simpl; [done|].
  by apply IH, add_note_keyed.
Qed.

Lemma add_controls_keyed mt entries : forall st,
  keyed st -> keyed (fold_left (add_controls formatType mt) entries st).
Proof.
  induction entries as [|[k l] entries IH]; intros st Hk; simpl; [done|].
  apply IH. unfold add_controls. simpl. clear IH. revert st Hk.
  induction l as [|cc l IHl]; intros st Hk; simpl; [done|].
  by apply IHl, add_control_keyed.
Qed.

Lemma subTracks_of_keyed mt : keyed (subTracks_of formatType mt).
Proof.
  unfold subTracks_of.
  apply add_controls_keyed, add_notes_keyed, keyed_empty.
Qed.

(** A note or control change that is in a sub track stays there. *)
Lemma add_notes_keep mt ns c0 i0 (R : Track.t -> Prop) :
  (forall tr m, R tr -> R (Track.set_notes (Track.notes tr ++ [m]) tr)) ->
  forall st,
  (exists tr, subtrack_at c0 i0 st = Some tr /\ R tr) ->
  exists tr,
    subtrack_at c0 i0 (fold_left (add_note formatType mt) ns st) = Some tr
    /\ R tr.
Proof.
  intros HR. induction ns as [|n ns IH]; intros st Hst; simpl; [done|].
  apply IH. rewrite add_note_touch. apply touch_keeps; [|done].
  intros tr. apply HR.
Qed.

Lemma add_controls_keep mt entries c0 i0 (R : Track.t -> Prop) :
  (forall tr k cc, R tr ->
     R (Track.set_controlChanges
          (Track.push_control k cc (Track.controlChanges tr)) tr)) ->
  forall st,
  (exists tr, subtrack_at c0 i0 st = Some tr /\ R tr) ->
  exists tr,
    subtrack_at c0 i0
      (fold_left (add_controls formatType mt) entries st) = Some tr
    /\ R tr.
Proof.
  intros HR. induction entries as [|[k l] entries IH]; intros st Hst;
    simpl; [done|].
  apply IH. unfold add_controls. simpl. clear IH. revert st Hst.
  induction l as [|cc l IHl]; intros st Hst; simpl; [done|].
  apply IHl. rewrite add_control_touch. apply touch_keeps; [|done].
  intros tr. apply HR.
Qed.

Lemma note_placed mt ns n : forall st,
  n ∈ ns ->
  exists tr,
    subtrack_at (Note.channel (resolve_note mt n))
      (Note.instrument (resolve_note mt n))
      (fold_left (add_note formatType mt) ns st) = Some tr
    /\ resolve_note mt n ∈ Track.notes tr.
Proof.
  induction ns as [|m ns IH]; intros st Hin.
  - by apply elem_of_nil in Hin.
  - simpl. apply elem_of_cons in Hin as [<-|Hin]; [|by apply IH].
    apply (add_notes_keep mt ns _ _
             (fun tr => resolve_note mt n ∈ Track.notes tr)).
    { intros tr m' Hm. simpl. apply elem_of_app. by left. }
    rewrite add_note_touch.
    apply (touch_adds formatType mt _ _ _ st
             (fun tr => resolve_note mt n ∈ Track.notes tr)).
    intros tr. simpl. apply elem_of_app. right. apply list_elem_of_here.
Qed.

Lemma control_placed mt entries k l cc : forall st,
  (k, l) ∈ entries -> cc ∈ l ->
  exists tr,
    subtrack_at (ControlChange.channel (resolve_control mt cc))
      (ControlChange.instrument (resolve_control mt cc))
      (fold_left (add_controls formatType mt) entries st) = Some tr
    /\ exists l',
         (k, l') ∈ Track.controlChanges tr /\ resolve_control mt cc ∈ l'.
Proof.
  set (R := fun tr : Track.t =>
              exists l', (k, l') ∈ Track.controlChanges tr
                         /\ resolve_control mt cc ∈ l').
  assert (forall tr k' cc', R tr ->
            R (Track.set_controlChanges
                 (Track.push_control k' cc' (Track.controlChanges tr)) tr))
    as HR.
  { intros tr k' cc' (l' & Hl' & Hcc). simpl.
    by apply (push_control_keeps k' cc' _ k l'). }
  induction entries as [|[k1 l1] entries IH]; intros st Hin Hcc.
  - by apply elem_of_nil in Hin.
  - simpl. apply elem_of_cons in Hin as [[= <- <-]|Hin]; [|by apply IH].
    apply (add_controls_keep mt entries _ _ R HR).
    unfold add_controls. simpl. clear IH. revert st.
    induction l as [|c1 l IHl]; intros st.
    + by apply elem_of_nil in Hcc.
    + simpl. apply elem_of_cons in Hcc as [<-|Hcc]; [|by apply IHl].
      clear IHl.
      assert (exists tr,
                subtrack_at (ControlChange.channel (resolve_control mt cc))
                  (ControlChange.instrument (resolve_control mt cc))
                  (add_control formatType mt k st cc) = Some tr /\ R tr)
        as Hnow.
      { rewrite add_control_touch. apply touch_adds. intros tr. simpl.
        apply push_control_adds. }
      revert Hnow. generalize (add_control formatType mt k st cc).
      induction l as [|c2 l IHl]; intros st' Hst'; simpl; [done|].
      apply IHl. rewrite add_control_touch. apply touch_keeps; [|done].
      intros tr. apply HR.
Qed.

(** A sub track under index keys is among the tracks pushed to
    [this.tracks], with its id set. *)
Lemma subtrack_in_flatten c i tr st :
  JsArray.is_index c = true -> JsArray.is_index i = true ->
  subtrack_at c i st = Some tr -> tr ∈ flatten st.
Proof.
  intros Hc Hi Hat. destruct (subtrack_at_row c i tr st Hat)
    as (row & Hrow & Htr).
  unfold flatten. apply list_elem_of_In, in_concat.
  exists (JsArray.values row). split.
  - apply in_map, list_elem_of_In. by apply (get_values c).
  - apply list_elem_of_In. by apply (get_values i).
Qed.

Lemma number_from_elem tr l : forall j,
  tr ∈ l -> exists k, Track.set_id k tr ∈ number_from j l.
Proof.
  induction l as [|x l IH]; intros j Hin.
  - by apply elem_of_nil in Hin.
  - simpl. apply elem_of_cons in Hin as [<-|Hin].
    + exists j. apply list_elem_of_here.
    + destruct (IH (S j) Hin) as [k Hk]. exists k.
      by apply list_elem_of_further.
Qed.

Lemma subtrack_in_output c i tr out mt :
  JsArray.is_index c = true -> JsArray.is_index i = true ->
  subtrack_at c i (subTracks_of formatType mt) = Some tr ->
  exists k, Track.set_id k tr ∈ split_track formatType out mt.
Proof.
  intros Hc Hi Hat. unfold split_track.
  destruct (number_from_elem tr (flatten (subTracks_of formatType mt))
              (length out)) as [k Hk].
  { by apply (subtrack_in_flatten c i). }
  exists k. apply elem_of_app. by right.
Qed.
End PlacementLoops.

(** C8.  For every note of a raw track, with [c] its own channel if set and
    else the raw track's, and [i] its own instrument if set, else the raw
    track's, else 0: the sub track [subTracks[c][i]] is a track whose
    channel and instrument numbers are [c] and [i] and which holds the
    note (with [c] and [i] written into it), and when [c] and [i] are array
    indices that track is among the output tracks.  The same holds for
    every control change, under its controller id. *)
Theorem split_places_by_channel_and_instrument
    (formatType : Z) (out : list Track.t) (mixedTrack : Track.t) :
  (forall note, note ∈ Track.notes mixedTrack ->
     let c := Spec.effective_channel (Note.channel note)
                (Track.channelNumber mixedTrack) in
     let i := Spec.effective_instrument (Note.instrument note)
                (Track.instrumentNumber mixedTrack) in
     let note' :=
       Note.mk (Note.pitch note) (Note.time note) (Note.duration note)
         (Note.velocity note) c i in
     (exists tr,
        subtrack_at c i (subTracks_of formatType mixedTrack) = Some tr
        /\ holds_note c i note' tr)
     /\ (JsArray.is_index c = true -> JsArray.is_index i = true ->
         exists tr,
           tr ∈ split_track formatType out mixedTrack
           /\ holds_note c i note' tr))
  /\ (forall k l cc,
        (k, l) ∈ Track.controlChanges mixedTrack -> cc ∈ l ->
        let c := Spec.effective_channel (ControlChange.channel cc)
                   (Track.channelNumber mixedTrack) in
        let i := Spec.effective_instrument (ControlChange.instrument cc)
                   (Track.instrumentNumber mixedTrack) in
        let cc' :=
          ControlChange.mk (ControlChange.number cc) (ControlChange.time cc)
            (ControlChange.value cc) c i in
        (exists tr,
           subtrack_at c i (subTracks_of formatType mixedTrack) = Some tr
           /\ holds_control c i k cc' tr)
        /\ (JsArray.is_index c = true -> JsArray.is_index i = true ->
            exists tr,
              tr ∈ split_track formatType out mixedTrack
              /\ holds_control c i k cc' tr)).
Proof.
  pose proof (subTracks_of_keyed formatType mixedTrack) as Hkeyed.
  split.
  - intros note Hin c i note'.
    assert (resolve_note mixedTrack note = note') as Hres.
    { unfold resolve_note. subst note' c i.
      by rewrite resolve_channel_spec, resolve_instrument_spec. }
    assert (exists tr,
              subtrack_at c i (subTracks_of formatType mixedTrack) = Some tr
              /\ holds_note c i note' tr) as (tr & Hat & Hh).
    { unfold subTracks_of.
      destruct (add_controls_keep formatType mixedTrack
                  (Track.controlChanges mixedTrack) c i
                  (fun tr => note' ∈ Track.notes tr)) with
        (st := fold_left (add_note formatType mixedTrack)
                 (Track.notes mixedTrack) JsArray.empty)
        as (tr & Hat & Hn); [done| |].
      - pose proof (note_placed formatType mixedTrack
                      (Track.notes mixedTrack) note JsArray.empty Hin) as H.
        by rewrite Hres in H.
      - exists tr. split; [done|].
        destruct (Hkeyed c i tr Hat) as [Hc Hi]. done. }
    split; [by exists tr|]. intros Hc Hi.
    destruct (subtrack_in_output formatType c i tr out mixedTrack Hc Hi Hat)
      as [k Hk].
    exists (Track.set_id k tr). split; [done|]. exact Hh.
  - intros k l cc Hin Hcc c i cc'.
    assert (resolve_control mixedTrack cc = cc') as Hres.
    { unfold resolve_control. subst cc' c i.
      by rewrite resolve_channel_spec, resolve_instrument_spec. }
    assert (exists tr,
              subtrack_at c i (subTracks_of formatType mixedTrack) = Some tr
              /\ holds_control c i k cc' tr) as (tr & Hat & Hh).
    { unfold subTracks_of.
      pose proof (control_placed formatType mixedTrack
                    (Track.controlChanges mixedTrack) k l cc
                    (fold_left (add_note formatType mixedTrack)
                       (Track.notes mixedTrack) JsArray.empty) Hin Hcc) as H.
      rewrite Hres in H. simpl in H. destruct H as (tr & Hat & Hl).
      exists tr. split; [done|].
      destruct (Hkeyed c i tr Hat) as [Hc Hi]. done. }
    split; [by exists tr|]. intros Hc Hi.
    destruct (subtrack_in_output formatType c i tr out mixedTrack Hc Hi Hat)
      as [j Hj].
    exists (Track.set_id j tr). split; [done|]. exact Hh.
Qed.

(** The note of the small Midi's track lands in the output track keyed
    by channel 0 and instrument 0. *)
Lemma split_places_witness :
  Sample.note ∈ Track.notes Sample.track
  /\ exists tr,
       tr ∈ split_track 1 [] Sample.track /\ holds_note 0 0 Sample.note tr.
Proof.
  split; [apply list_elem_of_here|].
  destruct (split_places_by_channel_and_instrument 1 [] Sample.track)
    as [Hnotes _].
  destruct (Hnotes Sample.note) as [_ Hout]; [apply list_elem_of_here|].
  apply Hout; reflexivity.
Defined.

(** * Further properties *)

(** ** The splitter's table by position *)

Section TableByPosition.
Context (formatType : Z).
Implicit Types (st : JsArray.t (JsArray.t Track.t)) (tr mt : Track.t).

Lemma write_lookup {A} n m (v : A) (l : list (option A)) :
  mjoin (JsArray.write n v l !! m)
  = if decide (m = n) then Some v else mjoin (l !! m).
Proof.
  case_decide as Hm.
  - subst m. by rewrite write_lookup_eq.
  - by apply write_lookup_ne.
Qed.

Lemma index_of_nat k :
  JsArray.is_index k = true -> Z.of_nat (Z.to_nat k) = k.
Proof. unfold JsArray.is_index. lia. Qed.

Lemma subtrack_at_track_at c i st :
  JsArray.is_index c = true -> JsArray.is_index i = true ->
  subtrack_at c i st = track_at (Z.to_nat c) (Z.to_nat i) st.
Proof.
  intros Hc Hi. unfold subtrack_at, track_at, JsArray.get. rewrite Hc.
  destruct (mjoin (JsArray.elems st !! Z.to_nat c)) as [row|]; simpl.
  - by rewrite Hi.
  - by rewrite Hi.
Qed.

(** A write into the table changes one position, and only when both keys
    are array indices. *)
Lemma track_at_put c i tr st m n :
  track_at m n (put_subtrack c i tr st)
  = if JsArray.is_index c && JsArray.is_index i
       && bool_decide (m = Z.to_nat c) && bool_decide (n = Z.to_nat i)
    then Some tr else track_at m n st.
Proof.
  unfold track_at, put_subtrack, JsArray.set, JsArray.get.
  destruct (JsArray.is_index c) eqn:Hc; simpl; [|done].
  rewrite write_lookup. case_decide as Hm; simpl.
  - subst m. rewrite bool_decide_eq_true_2 by done.
    destruct (JsArray.is_index i) eqn:Hi; simpl.
    + rewrite write_lookup. case_decide as Hn.
      * by rewrite bool_decide_eq_true_2.
      * rewrite bool_decide_eq_false_2 by done.
        by destruct (mjoin (JsArray.elems st !! Z.to_nat c)).
    + by destruct (mjoin (JsArray.elems st !! Z.to_nat c)).
  - rewrite (bool_decide_eq_false_2 (m = Z.to_nat c)) by done.
    by rewrite andb_false_r.
Qed.

Lemma track_at_empty m n : track_at m n JsArray.empty = None.
Proof. reflexivity. Qed.

Lemma omap_id_elem {A} (l : list (option A)) x :
  x ∈ omap id l <-> exists m, l !! m = Some (Some x).
Proof.
  rewrite list_elem_of_omap. split.
  - intros (o & Ho & Hx). simpl in Hx. subst o.
    by apply list_elem_of_lookup_1.
  - intros [m Hm]. exists (Some x). split; [|done].
    by eapply list_elem_of_lookup_2.
Qed.

(** The tracks [forEach] reaches are those at some position. *)
Lemma flatten_elem tr st :
  tr ∈ flatten st <-> exists m n, track_at m n st = Some tr.
Proof.
  unfold flatten, track_at. rewrite list_elem_of_In, in_concat. split.
  - intros (l & Hl & Htr). apply in_map_iff in Hl as (row & <- & Hrow).
    apply list_elem_of_In, omap_id_elem in Hrow as [m Hm].
    apply list_elem_of_In, omap_id_elem in Htr as [n Hn].
    exists m, n. rewrite Hm. simpl. by rewrite Hn.
  - intros (m & n & Hmn).
    destruct (JsArray.elems st !! m) as [[row|]|] eqn:Hm; try done.
    simpl in Hmn.
    destruct (JsArray.elems row !! n) as [[tr'|]|] eqn:Hn; try done.
    simpl in Hmn. injection Hmn as ->.
    exists (JsArray.values row). split.
    + apply in_map, list_elem_of_In, omap_id_elem. eauto.
    + apply list_elem_of_In, omap_id_elem. eauto.
Qed.
End TableByPosition.

(** ** What every output track of the splitter looks like *)

Section SubTrackShape.
Context (formatType : Z).
Implicit Types (st : JsArray.t (JsArray.t Track.t)) (tr mt : Track.t).

Lemma table_all_empty Q : table_all Q JsArray.empty.
Proof. intros m n tr Hat. by rewrite track_at_empty in Hat. Qed.

(** One step of either loop keeps a property of the reachable sub tracks,
    when the new or updated sub track has it. *)
Lemma touch_table_all Q mt c i f st :
  (JsArray.is_index c = true -> JsArray.is_index i = true ->
   forall tr0,
     tr0 = fresh_subtrack formatType mt c i \/ Q c i tr0 -> Q c i (f tr0)) ->
  table_all Q st -> table_all Q (touch formatType mt c i f st).
Proof.
  intros Hf Hall m n tr. unfold touch. rewrite track_at_put.
  destruct (JsArray.is_index c) eqn:Hc, (JsArray.is_index i) eqn:Hi;
    simpl; try apply Hall.
  repeat case_bool_decide; simpl; try apply Hall.
  subst m n. intros [= <-]. rewrite !index_of_nat by done.
  split; [done|]. split; [done|]. apply Hf; [done..|].
  rewrite subtrack_at_track_at by done.
  destruct (track_at (Z.to_nat c) (Z.to_nat i) st) as [tr0|] eqn:Hat; simpl.
  - right. destruct (Hall _ _ _ Hat) as (_ & _ & HQ).
    by rewrite !index_of_nat in HQ.
  - by left.
Qed.

Lemma push_control_controls k c obj :
  concat (map snd (Track.push_control k c obj))
  ≡ₚ concat (map snd obj) ++ [c].
Proof.
  induction obj as [|[k' l] obj IH]; simpl; [done|].
  case_bool_decide as Hk; simpl.
  - rewrite <- !app_assoc. f_equiv. apply Permutation_cons_append.
  - destruct (Track.key_before k k'); simpl.
    + apply Permutation_cons_append.
    + rewrite IH. by rewrite app_assoc.
Qed.

Lemma resolve_note_key mt note :
  note_has_key (Note.channel (resolve_note mt note))
    (Note.instrument (resolve_note mt note)) (resolve_note mt note) = true.
Proof. unfold note_has_key. by rewrite !bool_decide_eq_true_2. Qed.

Lemma resolve_control_key mt cc :
  control_has_key (ControlChange.channel (resolve_control mt cc))
    (ControlChange.instrument (resolve_control mt cc))
    (resolve_control mt cc) = true.
Proof. unfold control_has_key. by rewrite !bool_decide_eq_true_2. Qed.

Lemma add_note_made_from mt st note :
  table_all (made_from formatType mt) st ->
  table_all (made_from formatType mt) (add_note formatType mt st note).
Proof.
  rewrite add_note_touch. apply touch_table_all.
  intros _ _ tr0 [->|(Hc & Hi & Hname & Hty & Hid & Hns & Hcs & Hlen)];
    unfold made_from; simpl.
  - repeat split; try done; try lia.
    repeat constructor. apply resolve_note_key.
  - repeat split; try done.
    + apply Forall_app. split; [done|].
      repeat constructor. apply resolve_note_key.
    + rewrite length_app. simpl. lia.
Qed.

Lemma add_control_made_from mt k st cc :
  table_all (made_from formatType mt) st ->
  table_all (made_from formatType mt) (add_control formatType mt k st cc).
Proof.
  rewrite add_control_touch. apply touch_table_all.
  intros _ _ tr0 Htr0.
  assert (Track.channelNumber tr0
            = ControlChange.channel (resolve_control mt cc)
          /\ Track.instrumentNumber tr0
            = ControlChange.instrument (resolve_control mt cc)
          /\ Track.name tr0 = Track.name mt
          /\ Track.midiType tr0 = Some formatType
          /\ Track.id tr0 = None
          /\ Forall (fun n =>
               note_has_key (ControlChange.channel (resolve_control mt cc))
                 (ControlChange.instrument (resolve_control mt cc)) n = true)
               (Track.notes tr0)
          /\ Forall (fun x =>
               control_has_key (ControlChange.channel (resolve_control mt cc))
                 (ControlChange.instrument (resolve_control mt cc)) x = true)
               (controls_of tr0))
    as (Hc & Hi & Hname & Hty & Hid & Hns & Hcs).
  { destruct Htr0 as [->|(Hc & Hi & Hname & Hty & Hid & Hns & Hcs & _)].
    - repeat split; constructor.
    - done. }
  unfold made_from, controls_of in *. simpl.
  repeat split; try done.
  - rewrite push_control_controls. apply Forall_app. split; [done|].
    repeat constructor. apply resolve_control_key.
  - rewrite push_control_controls, length_app. simpl. lia.
Qed.

Lemma subTracks_of_made_from mt :
  table_all (made_from formatType mt) (subTracks_of formatType mt).
Proof.
  unfold subTracks_of.
  assert (forall ns st, table_all (made_from formatType mt) st ->
            table_all (made_from formatType mt)
              (fold_left (add_note formatType mt) ns st)) as Hnotes.
  { induction ns as [|n ns IH]; intros st Hst; simpl; [done|].
    by apply IH, add_note_made_from. }
  assert (forall entries st, table_all (made_from formatType mt) st ->
            table_all (made_from formatType mt)
              (fold_left (add_controls formatType mt) entries st)) as Hcs.
  { induction entries as [|[k l] entries IH]; intros st Hst; simpl; [done|].
    apply IH. unfold add_controls. simpl. clear IH. revert st Hst.
    induction l as [|cc l IHl]; intros st Hst; simpl; [done|].
    by apply IHl, add_control_made_from. }
  apply Hcs, Hnotes, table_all_empty.
Qed.

(** The tracks pushed for one raw track: the reachable sub tracks, each
    with an id. *)
Lemma number_from_same l : forall j tr',
  tr' ∈ number_from j l -> exists tr, tr ∈ l /\ same_but_id tr tr'.
Proof.
  induction l as [|x l IH]; intros j tr' Hin; simpl in Hin.
  - by apply elem_of_nil in Hin.
  - apply elem_of_cons in Hin as [->|Hin].
    + exists x. split; [apply list_elem_of_here|by exists j].
    + destruct (IH _ _ Hin) as (tr & Htr & Hsame).
      exists tr. split; [by apply list_elem_of_further|done].
Qed.

Lemma split_made_from mixedTracks : forall out tr',
  tr' ∈ fold_left (split_track formatType) mixedTracks out ->
  tr' ∈ out
  \/ exists mt tr,
       mt ∈ mixedTracks /\ same_but_id tr tr'
       /\ made_from formatType mt (Track.channelNumber tr)
            (Track.instrumentNumber tr) tr.
Proof.
  induction mixedTracks as [|mt rest IH]; intros out tr' Hin; simpl in Hin.
  - by left.
  - destruct (IH _ _ Hin) as [Hout|(mt' & tr & Hmt & Hsame & Hmade)].
    + unfold split_track in Hout. apply elem_of_app in Hout as [Hout|Hnew].
      * by left.
      * right. destruct (number_from_same _ _ _ Hnew) as (tr & Htr & Hsame).
        apply flatten_elem in Htr as (m & n & Hat).
        destruct (subTracks_of_made_from mt m n tr Hat) as (_ & _ & Hmade).
        exists mt, tr. split; [apply list_elem_of_here|]. split; [done|].
        pose proof Hmade as (Hc & Hi & _). by rewrite Hc, Hi.
    + right. exists mt', tr. split; [by apply list_elem_of_further|done].
Qed.
End SubTrackShape.

Section SplitOutput.
Context (formatType : Z).

Lemma split_track_shape (mixedTracks : list Track.t) tr' :
  tr' ∈ split formatType mixedTracks ->
  exists mt tr,
    mt ∈ mixedTracks /\ same_but_id tr tr'
    /\ made_from formatType mt (Track.channelNumber tr)
         (Track.instrumentNumber tr) tr.
Proof.
  intros Hin. destruct (split_made_from formatType mixedTracks [] tr' Hin)
    as [Hnil|H]; [by apply elem_of_nil in Hnil|done].
Qed.

Lemma number_from_ids l : forall j,
  map Track.id (number_from j l) = map Some (seq j (length l)).
Proof.
  induction l as [|tr l IH]; intros j; simpl; [done|]. by rewrite IH.
Qed.

Lemma split_ids (mixedTracks : list Track.t) : forall out,
  map Track.id out = map Some (seq 0 (length out)) ->
  map Track.id (fold_left (split_track formatType) mixedTracks out)
  = map Some
      (seq 0 (length (fold_left (split_track formatType) mixedTracks out))).
Proof.
  induction mixedTracks as [|mt rest IH]; intros out Hout; simpl; [done|].
  apply IH. unfold split_track.
  assert (forall l j, length (number_from j l) = length l) as Hlen.
  { induction l as [|tr l IHl]; intros j; simpl; [done|]. by rewrite IHl. }
  rewrite map_app, number_from_ids, Hout, length_app, Hlen.
  rewrite (seq_app (length out)), map_app. done.
Qed.
End SplitOutput.

Lemma applyTempoChanges_ids changes bpm midi :
  map Track.id (Midi.tracks (applyTempoChanges changes bpm midi))
  = map Track.id (Midi.tracks midi).
Proof.
  destruct changes as [|c cs]; [done|]. simpl. rewrite map_map.
  by apply map_ext.
Qed.

(** X1.  The tracks of a decoded Midi are numbered by their position: the
    ids are 0, 1, 2, ... in the order of [this.tracks], across all raw
    tracks. *)
Theorem decode_ids_are_positions
    (cleanName : string -> string) (instrumentByName : string -> Z)
    (formatType : Z) (header : Header.t) (tracksData : list (list Event)) :
  let tracks :=
    Midi.tracks
      (decode cleanName instrumentByName formatType header tracksData) in
  map Track.id tracks = map Some (seq 0 (length tracks)).
Proof.
  intros tracks. subst tracks. unfold decode.
  assert (forall l l' : list Track.t,
            map Track.id l = map Track.id l' -> length l = length l') as Hlen.
  { intros l l' H. by rewrite <- (length_map Track.id l), H, length_map. }
  rewrite (Hlen _ _ (applyTempoChanges_ids _ _ _)), applyTempoChanges_ids.
  simpl. unfold split. by apply split_ids.
Qed.

(** X2.  The splitter makes no empty track: every output track holds at
    least one note or control change. *)
Theorem split_tracks_not_empty
    (formatType : Z) (mixedTracks : list Track.t) :
  Forall
    (fun tr => (0 < length (Track.notes tr) + length (controls_of tr))%nat)
    (split formatType mixedTracks).
Proof.
  apply Forall_forall. intros tr' Hin.
  destruct (split_track_shape formatType mixedTracks tr' Hin)
    as (mt & tr & _ & [j ->] & Hmade).
  by destruct Hmade as (_ & _ & _ & _ & _ & _ & _ & Hlen).
Qed.

(** X3.  Every note and every control change of an output track carries
    the channel and the instrument of that track. *)
Theorem split_tracks_homogeneous
    (formatType : Z) (mixedTracks : list Track.t) :
  Forall
    (fun tr =>
       Forall (fun n => Note.channel n = Track.channelNumber tr
                        /\ Note.instrument n = Track.instrumentNumber tr)
         (Track.notes tr)
       /\ Forall (fun x =>
                    ControlChange.channel x = Track.channelNumber tr
                    /\ ControlChange.instrument x = Track.instrumentNumber tr)
            (controls_of tr))
    (split formatType mixedTracks).
Proof.
  apply Forall_forall. intros tr' Hin.
  destruct (split_track_shape formatType mixedTracks tr' Hin)
    as (mt & tr & _ & [j ->] & Hmade).
  destruct Hmade as (_ & _ & _ & _ & _ & Hns & Hcs & _).
  unfold controls_of in *. simpl. split.
  - eapply Forall_impl; [exact Hns|]. intros n Hn.
    unfold note_has_key in Hn. apply andb_true_iff in Hn as [H1 H2].
    by apply bool_decide_eq_true_1 in H1, H2.
  - eapply Forall_impl; [exact Hcs|]. intros x Hx.
    unfold control_has_key in Hx. apply andb_true_iff in Hx as [H1 H2].
    by apply bool_decide_eq_true_1 in H1, H2.
Qed.

(** X4.  Every output track has the name of the raw track it was split
    from and the file's format type as its [midiType]. *)
Theorem split_tracks_inherit
    (formatType : Z) (mixedTracks : list Track.t) :
  Forall
    (fun tr =>
       Track.midiType tr = Some formatType
       /\ exists mt, mt ∈ mixedTracks /\ Track.name tr = Track.name mt)
    (split formatType mixedTracks).
Proof.
  apply Forall_forall. intros tr' Hin.
  destruct (split_track_shape formatType mixedTracks tr' Hin)
    as (mt & tr & Hmt & [j ->] & Hmade).
  destruct Hmade as (_ & _ & Hname & Hty & _). simpl.
  split; [done|]. by exists mt.
Qed.

(** X5.  A raw track without notes and control changes (a title or tempo
    track) adds no track to the output. *)
Theorem split_skips_empty_track
    (formatType : Z) (out : list Track.t) (mixedTrack : Track.t) :
  Track.notes mixedTrack = [] -> controls_of mixedTrack = [] ->
  split_track formatType out mixedTrack = out.
Proof.
  intros Hn Hc. unfold split_track, subTracks_of. rewrite Hn. simpl.
  assert (forall st,
            fold_left (add_controls formatType mixedTrack)
              (Track.controlChanges mixedTrack) st = st) as ->.
  { unfold controls_of in Hc. revert Hc.
    generalize (Track.controlChanges mixedTrack).
    induction l as [|[k cs] l IH]; intros Hc st; simpl in *; [done|].
    apply app_eq_nil in Hc as [-> Hc]. simpl. by apply IH. }
  simpl. by rewrite app_nil_r.
Qed.

(** On a track that has a name and nothing else. *)
Lemma split_skips_empty_track_witness :
  let title := Track.new (Some "Title"%string) (-1) (-1) in
  Track.notes title = [] /\ controls_of title = []
  /\ split_track 1 [Sample.track] title = [Sample.track].
Proof.
  split; [reflexivity|]. split; [reflexivity|].
  apply (split_skips_empty_track 1 [Sample.track]
           (Track.new (Some "Title"%string) (-1) (-1))); reflexivity.
Defined.

(** ** The order of the output tracks *)

Section OutputOrder.
Context (formatType : Z).
Implicit Types (st : JsArray.t (JsArray.t Track.t)) (tr mt : Track.t).

Lemma touch_track_at mt c i f st m n :
  track_at m n (touch formatType mt c i f st)
  = if JsArray.is_index c && JsArray.is_index i
       && bool_decide (m = Z.to_nat c) && bool_decide (n = Z.to_nat i)
    then Some (f (default (fresh_subtrack formatType mt c i)
                    (track_at m n st)))
    else track_at m n st.
Proof.
  unfold touch. rewrite track_at_put.
  destruct (JsArray.is_index c) eqn:Hc, (JsArray.is_index i) eqn:Hi;
    simpl; try done.
  repeat case_bool_decide; simpl; try done. subst m n.
  by rewrite subtrack_at_track_at.
Qed.

(** Values met by [forEach] come in the order of their positions. *)
Lemma omap_id_sorted {A} (R : A -> A -> Prop) (l : list (option A)) :
  (forall m1 m2 x y, (m1 < m2)%nat ->
     l !! m1 = Some (Some x) -> l !! m2 = Some (Some y) -> R x y) ->
  StronglySorted R (omap id l).
Proof.
  induction l as [|o l IH]; intros HR; simpl; [constructor|].
  assert (StronglySorted R (omap id l)) as Hl.
  { apply IH. intros m1 m2 x y Hlt H1 H2.
    apply (HR (S m1) (S m2)); [lia|done..]. }
  destruct o as [x|]; simpl; [|done]. constructor; [done|].
  apply Forall_forall. intros y Hy. apply omap_id_elem in Hy as [m Hm].
  apply (HR 0%nat (S m)); [lia|done..].
Qed.

Lemma flatten_sorted (R : Track.t -> Track.t -> Prop)
    (rows : list (option (JsArray.t Track.t))) :
  (forall m1 n1 m2 n2 x y,
     track_at m1 n1 (JsArray.mk rows ∅) = Some x ->
     track_at m2 n2 (JsArray.mk rows ∅) = Some y ->
     (m1 < m2 \/ (m1 = m2 /\ n1 < n2))%nat -> R x y) ->
  StronglySorted R (flatten (JsArray.mk rows ∅)).
Proof.
  induction rows as [|o rows IH]; intros HR; [constructor|].
  assert (StronglySorted R (flatten (JsArray.mk rows ∅))) as Hrest.
  { apply IH. intros m1 n1 m2 n2 x y H1 H2 Hlt.
    apply (HR (S m1) n1 (S m2) n2); [done..|lia]. }
  destruct o as [row|]; [|done].
  change (flatten (JsArray.mk (Some row :: rows) ∅))
    with (JsArray.values row ++ flatten (JsArray.mk rows ∅)).
  apply StronglySorted_app_2; [| |done].
  - intros x y Hx Hy. apply omap_id_elem in Hx as [n1 Hn1].
    apply flatten_elem in Hy as (m2 & n2 & H2).
    apply (HR 0%nat n1 (S m2) n2); [|done|lia].
    unfold track_at. simpl. by rewrite Hn1.
  - apply omap_id_sorted. intros n1 n2 x y Hlt H1 H2.
    apply (HR 0%nat n1 0%nat n2); [| |lia];
      unfold track_at; simpl; by rewrite ?H1, ?H2.
Qed.

Lemma number_from_sorted (R : Track.t -> Track.t -> Prop) l :
  (forall a b j k, R a b -> R (Track.set_id j a) (Track.set_id k b)) ->
  StronglySorted R l -> forall j, StronglySorted R (number_from j l).
Proof.
  intros HR. induction 1 as [|x l Hl IH Hx]; intros j; simpl; constructor.
  - apply IH.
  - apply Forall_forall. intros y' Hy'.
    destruct (number_from_same _ _ _ Hy') as (y & Hy & [k ->]).
    apply HR. rewrite Forall_forall in Hx. by apply Hx.
Qed.

Lemma subTracks_of_sorted mt :
  StronglySorted track_key_lt (flatten (subTracks_of formatType mt)).
Proof.
  change (flatten (subTracks_of formatType mt))
    with (flatten (JsArray.mk (JsArray.elems (subTracks_of formatType mt)) ∅)).
  apply flatten_sorted. intros m1 n1 m2 n2 x y H1 H2 Hlt.
  destruct (subTracks_of_made_from formatType mt m1 n1 x H1)
    as (_ & _ & Hx1 & Hx2 & _).
  destruct (subTracks_of_made_from formatType mt m2 n2 y H2)
    as (_ & _ & Hy1 & Hy2 & _).
  unfold track_key_lt, key_lt, key_of. simpl.
  rewrite Hx1, Hx2, Hy1, Hy2. lia.
Qed.
End OutputOrder.

(** X6.  The tracks that one raw track adds to the output come in
    ascending order of channel and, within a channel, of instrument; in
    particular no two of them have the same (channel, instrument) pair. *)
Theorem split_track_order
    (formatType : Z) (out : list Track.t) (mixedTrack : Track.t) :
  exists added,
    split_track formatType out mixedTrack = out ++ added
    /\ StronglySorted track_key_lt added.
Proof.
  eexists. split; [reflexivity|].
  apply number_from_sorted; [|apply subTracks_of_sorted].
  intros a b j k Hab. exact Hab.
Qed.

(** ** The notes of an output track *)

Section NotesByKey.
Context (formatType : Z).
Implicit Types (st : JsArray.t (JsArray.t Track.t)) (tr mt : Track.t).

Lemma filter_none {A} (f : A -> bool) (l : list A) :
  (forall x, x ∈ l -> f x = false) -> List.filter f l = [].
Proof.
  induction l as [|x l IH]; intros Hf; simpl; [done|].
  rewrite (Hf x) by apply list_elem_of_here.
  apply IH. intros y Hy. apply Hf. by apply list_elem_of_further.
Qed.

Lemma note_has_key_index c i n :
  note_has_key c i n = true ->
  JsArray.is_index c = true -> JsArray.is_index i = true ->
  placeable n = true.
Proof.
  unfold note_has_key, placeable. intros Hk Hc Hi.
  apply andb_true_iff in Hk as [H1 H2].
  apply bool_decide_eq_true_1 in H1, H2. by rewrite H1, H2, Hc, Hi.
Qed.

(** No note seen so far has the key of a position that is still free. *)
Lemma free_position_no_note seen st m n :
  notes_by_key seen st -> track_at m n st = None ->
  JsArray.is_index (Z.of_nat m) = true ->
  JsArray.is_index (Z.of_nat n) = true ->
  List.filter (note_has_key (Z.of_nat m) (Z.of_nat n)) seen = [].
Proof.
  intros [_ Hseen] Hfree Hm Hn. apply filter_none. intros x Hx.
  destruct (note_has_key (Z.of_nat m) (Z.of_nat n) x) eqn:Hk; [|done].
  destruct (Hseen x Hx (note_has_key_index _ _ _ Hk Hm Hn)) as [tr Htr].
  unfold note_has_key in Hk. apply andb_true_iff in Hk as [H1 H2].
  apply bool_decide_eq_true_1 in H1, H2.
  rewrite H1, H2, !Nat2Z.id in Htr. congruence.
Qed.

Lemma add_note_by_key mt st note seen :
  notes_by_key seen st ->
  notes_by_key (seen ++ [resolve_note mt note])
    (add_note formatType mt st note).
Proof.
  intros Hinv. pose proof Hinv as [Hall Hseen].
  rewrite add_note_touch.
  pose proof (resolve_note_key mt note) as Hkey. revert Hkey.
  generalize (resolve_note mt note). intros note' Hkey. split.
  - intros m n tr. rewrite touch_track_at.
    destruct (JsArray.is_index (Note.channel note')
              && JsArray.is_index (Note.instrument note')
              && bool_decide (m = Z.to_nat (Note.channel note'))
              && bool_decide (n = Z.to_nat (Note.instrument note')))
      eqn:Hhere.
    + apply andb_true_iff in Hhere as [Hhere Hn].
      apply andb_true_iff in Hhere as [Hhere Hm].
      apply andb_true_iff in Hhere as [Hc Hi].
      apply bool_decide_eq_true_1 in Hm, Hn. subst m n.
      intros [= <-]. rewrite !index_of_nat by done.
      split; [done|]. split; [done|].
      cbn [Track.notes Track.set_notes].
      rewrite List.filter_app. cbn [List.filter]. rewrite Hkey. f_equal.
      destruct (track_at (Z.to_nat (Note.channel note'))
                  (Z.to_nat (Note.instrument note')) st) as [tr0|] eqn:Hat.
      * destruct (Hall _ _ _ Hat) as (_ & _ & Hns). cbn [default].
        by rewrite !index_of_nat in Hns.
      * cbn. symmetry.
        pose proof (free_position_no_note seen st _ _ Hinv Hat) as Hnone.
        rewrite !index_of_nat in Hnone by done. by apply Hnone.
    + intros Hat. destruct (Hall _ _ _ Hat) as (Hm & Hn & Hns).
      split; [done|]. split; [done|].
      rewrite List.filter_app. simpl.
      destruct (note_has_key (Z.of_nat m) (Z.of_nat n) note') eqn:Hk.
      * exfalso. unfold note_has_key in Hk.
        apply andb_true_iff in Hk as [H1 H2].
        apply bool_decide_eq_true_1 in H1, H2.
        rewrite H1, H2, Hm, Hn, !Nat2Z.id in Hhere. simpl in Hhere.
        by rewrite !bool_decide_eq_true_2 in Hhere.
      * by rewrite app_nil_r.
  - intros x Hx Hp. rewrite touch_track_at.
    apply elem_of_app in Hx as [Hx|Hx].
    + case_match; [by eexists|]. by apply Hseen.
    + apply list_elem_of_singleton in Hx. subst x.
      unfold placeable in Hp. apply andb_true_iff in Hp as [Hc Hi].
      rewrite Hc, Hi, !bool_decide_eq_true_2 by done. simpl. by eexists.
Qed.

Lemma add_control_by_key mt k st cc seen :
  notes_by_key seen st ->
  notes_by_key seen (add_control formatType mt k st cc).
Proof.
  intros Hinv. pose proof Hinv as [Hall Hseen].
  rewrite add_control_touch. split.
  - intros m n tr. rewrite touch_track_at. case_match eqn:Hhere.
    + apply andb_true_iff in Hhere as [Hhere Hn].
      apply andb_true_iff in Hhere as [Hhere Hm].
      apply andb_true_iff in Hhere as [Hc Hi].
      apply bool_decide_eq_true_1 in Hm, Hn. subst m n.
      intros [= <-]. rewrite !index_of_nat by done.
      split; [done|]. split; [done|]. simpl.
      destruct (track_at _ _ st) as [tr0|] eqn:Hat.
      * destruct (Hall _ _ _ Hat) as (_ & _ & Hns). simpl.
        by rewrite !index_of_nat in Hns.
      * simpl. symmetry.
        pose proof (free_position_no_note seen st _ _ Hinv Hat) as Hnone.
        rewrite !index_of_nat in Hnone by done. by apply Hnone.
    + apply Hall.
  - intros x Hx Hp. rewrite touch_track_at.
    case_match; [by eexists|]. by apply Hseen.
Qed.

Lemma subTracks_of_by_key mt :
  notes_by_key (resolved_notes mt) (subTracks_of formatType mt).
Proof.
  unfold subTracks_of, resolved_notes.
  assert (forall ns seen st, notes_by_key seen st ->
            notes_by_key (seen ++ map (resolve_note mt) ns)
              (fold_left (add_note formatType mt) ns st)) as Hnotes.
  { induction ns as [|n ns IH]; intros seen st Hst; simpl.
    - by rewrite app_nil_r.
    - replace (seen ++ resolve_note mt n :: map (resolve_note mt) ns)
        with ((seen ++ [resolve_note mt n]) ++ map (resolve_note mt) ns)
        by (by rewrite <- app_assoc).
      by apply IH, add_note_by_key. }
  assert (forall entries seen st, notes_by_key seen st ->
            notes_by_key seen
              (fold_left (add_controls formatType mt) entries st)) as Hcs.
  { induction entries as [|[k l] entries IH]; intros seen st Hst; simpl;
      [done|].
    apply IH. unfold add_controls. simpl. clear IH. revert st Hst.
    induction l as [|cc l IHl]; intros st Hst; simpl; [done|].
    by apply IHl, add_control_by_key. }
  apply Hcs. apply (Hnotes _ [] JsArray.empty).
  split; [apply table_all_empty|]. intros n Hn. by apply elem_of_nil in Hn.
Qed.
End NotesByKey.

(** X7.  In every track that a raw track adds to the output, the notes
    are exactly the raw track's notes (channel and instrument resolved)
    that carry the track's channel and instrument, in their original
    order. *)
Theorem split_track_notes_in_order
    (formatType : Z) (out : list Track.t) (mixedTrack : Track.t) :
  exists added,
    split_track formatType out mixedTrack = out ++ added
    /\ Forall
         (fun tr =>
            Track.notes tr
            = List.filter
                (note_has_key (Track.channelNumber tr)
                   (Track.instrumentNumber tr))
                (resolved_notes mixedTrack))
         added.
Proof.
  eexists. split; [reflexivity|]. apply Forall_forall. intros tr' Hin.
  destruct (number_from_same _ _ _ Hin) as (tr & Htr & [j ->]). simpl.
  apply flatten_elem in Htr as (m & n & Hat).
  destruct (subTracks_of_by_key formatType mixedTrack) as [Hall _].
  destruct (Hall m n tr Hat) as (_ & _ & Hns).
  destruct (subTracks_of_made_from formatType mixedTrack m n tr Hat)
    as (_ & _ & Hc & Hi & _).
  by rewrite Hc, Hi.
Qed.

(** ** The splitter keeps the control changes *)

Section SplitControls.
Context (formatType : Z).
Implicit Types (st : JsArray.t (JsArray.t Track.t)) (tr mt : Track.t).

Lemma controls_of_tracks_app (l1 l2 : list Track.t) :
  controls_of_tracks (l1 ++ l2)
  = controls_of_tracks l1 ++ controls_of_tracks l2.
Proof. unfold controls_of_tracks. by rewrite map_app, concat_app. Qed.

(** Replacing a sub track by one that has [extra] more control changes. *)
Lemma put_subtrack_controls c i tr st extra :
  controls_of tr
  ≡ₚ controls_of_tracks (option_list (subtrack_at c i st)) ++ extra ->
  controls_of_tracks (flatten (put_subtrack c i tr st))
  ≡ₚ controls_of_tracks (flatten st)
     ++ (if JsArray.is_index c && JsArray.is_index i then extra else []).
Proof.
  intros Hcs. destruct (flatten_put c i tr st) as (xs & ys & -> & ->).
  rewrite !controls_of_tracks_app.
  destruct (JsArray.is_index c && JsArray.is_index i).
  - unfold controls_of_tracks at 2. simpl. rewrite app_nil_r, Hcs.
    rewrite <- !app_assoc. do 2 f_equiv. apply Permutation_app_comm.
  - by rewrite app_nil_r.
Qed.

Lemma new_or_existing_controls mt c i st :
  controls_of
    (default (Track.set_midiType formatType (Track.new (Track.name mt) i c))
       (subtrack_at c i st))
  = controls_of_tracks (option_list (subtrack_at c i st)).
Proof.
  destruct (subtrack_at c i st); simpl; [|done].
  unfold controls_of_tracks. simpl. by rewrite app_nil_r.
Qed.

Lemma add_control_controls mt k st cc :
  controls_of_tracks (flatten (add_control formatType mt k st cc))
  ≡ₚ controls_of_tracks (flatten st)
     ++ (if placeable_control (resolve_control mt cc)
         then [resolve_control mt cc] else []).
Proof.
  unfold add_control. rewrite update_getSubtrack.
  apply put_subtrack_controls. unfold controls_of at 1. simpl.
  rewrite push_control_controls. f_equiv.
  by rewrite <- (new_or_existing_controls mt).
Qed.

Lemma add_note_controls mt st n :
  controls_of_tracks (flatten (add_note formatType mt st n))
  ≡ₚ controls_of_tracks (flatten st).
Proof.
  unfold add_note. rewrite update_getSubtrack.
  rewrite put_subtrack_controls with (extra := []).
  - destruct (_ && _); by rewrite app_nil_r.
  - unfold controls_of at 1. simpl. rewrite app_nil_r.
    by rewrite <- (new_or_existing_controls mt).
Qed.

Lemma subTracks_of_controls mt :
  controls_of_tracks (flatten (subTracks_of formatType mt))
  ≡ₚ List.filter placeable_control (resolved_controls mt).
Proof.
  unfold subTracks_of, resolved_controls, controls_of.
  assert (forall ns st,
            controls_of_tracks
              (flatten (fold_left (add_note formatType mt) ns st))
            ≡ₚ controls_of_tracks (flatten st)) as Hnotes.
  { induction ns as [|n ns IH]; intros st; simpl; [done|].
    by rewrite IH, add_note_controls. }
  assert (forall l k st,
            controls_of_tracks
              (flatten (fold_left (add_control formatType mt k) l st))
            ≡ₚ controls_of_tracks (flatten st)
               ++ List.filter placeable_control
                    (map (resolve_control mt) l)) as Hlist.
  { induction l as [|cc l IH]; intros k st; simpl.
    - by rewrite app_nil_r.
    - rewrite IH, add_control_controls. rewrite <- app_assoc. f_equiv.
      by destruct (placeable_control (resolve_control mt cc)). }
  assert (forall entries st,
            controls_of_tracks
              (flatten (fold_left (add_controls formatType mt) entries st))
            ≡ₚ controls_of_tracks (flatten st)
               ++ List.filter placeable_control
                    (map (resolve_control mt) (concat (map snd entries))))
    as Hentries.
  { induction entries as [|[k l] entries IH]; intros st; simpl.
    - by rewrite app_nil_r.
    - rewrite IH. unfold add_controls. simpl. rewrite Hlist.
      rewrite map_app, List.filter_app. by rewrite <- app_assoc. }
  rewrite Hentries, Hnotes. done.
Qed.

Lemma number_from_controls l : forall k,
  controls_of_tracks (number_from k l) = controls_of_tracks l.
Proof.
  induction l as [|tr l IH]; intros k; [done|].
  unfold controls_of_tracks in *. simpl. by rewrite IH.
Qed.

Lemma split_controls mixedTracks : forall out,
  controls_of_tracks (fold_left (split_track formatType) mixedTracks out)
  ≡ₚ controls_of_tracks out
     ++ concat (map (fun mt =>
                       List.filter placeable_control (resolved_controls mt))
                  mixedTracks).
Proof.
  induction mixedTracks as [|mt rest IH]; intros out; simpl.
  - by rewrite app_nil_r.
  - rewrite IH. unfold split_track.
    rewrite controls_of_tracks_app, number_from_controls,
      subTracks_of_controls.
    by rewrite <- app_assoc.
Qed.

Lemma in_range_filter_controls mt :
  raw_controls_in_range mt ->
  List.filter placeable_control (resolved_controls mt) = resolved_controls mt.
Proof.
  intros [Hi Hall]. unfold resolved_controls.
  induction Hall as [|x xs [Hc Hx] Hxs IH]; simpl; [done|].
  rewrite IH.
  assert (placeable_control (resolve_control mt x) = true) as ->; [|done].
  unfold placeable_control, resolve_control, resolve_channel,
    resolve_instrument, JsArray.is_index. simpl.
  repeat case_bool_decide; lia.
Qed.
End SplitControls.

(** X8.  The splitter drops and duplicates no control change: the control
    changes of the output tracks are those of the raw tracks (channel and
    instrument resolved), each exactly once.  The raw tracks are those of
    the data model: control-change channels 0-15, instruments -1 or
    0-127. *)
Theorem split_preserves_controls
    (formatType : Z) (mixedTracks : list Track.t) :
  Forall raw_controls_in_range mixedTracks ->
  controls_of_tracks (split formatType mixedTracks)
  ≡ₚ concat (map resolved_controls mixedTracks)
  /\ length (controls_of_tracks (split formatType mixedTracks))
     = length (controls_of_tracks mixedTracks).
Proof.
  intros Hr.
  assert (controls_of_tracks (split formatType mixedTracks)
          ≡ₚ concat (map resolved_controls mixedTracks)) as Hp.
  { unfold split. rewrite split_controls. simpl.
    induction Hr as [|mt rest Hmt Hrest IH]; simpl; [done|].
    by rewrite in_range_filter_controls, IH. }
  split; [done|]. rewrite Hp. unfold controls_of_tracks, resolved_controls.
  clear. induction mixedTracks as [|mt rest IH]; simpl; [done|].
  by rewrite !length_app, length_map, IH.
Qed.

(** On the one track of the small Midi. *)
Lemma split_preserves_controls_witness :
  Forall raw_controls_in_range [Sample.track]
  /\ length (controls_of_tracks (split 1 [Sample.track]))
     = length (controls_of_tracks [Sample.track]).
Proof.
  assert (Forall raw_controls_in_range [Sample.track]) as Hr.
  { repeat constructor; simpl; lia. }
  split; [exact Hr|].
  apply (split_preserves_controls 1 [Sample.track] Hr).
Defined.

(** ** The warp on time-sorted elements *)

Section WarpSorted.
Context (changes : list Control.t) (bpm : Qc).
Context {A : Type} `{Element A}.

Lemma skip_changes_index_ge fuel t : forall w,
  (index w <= index (skip_changes changes bpm fuel t w))%nat.
Proof.
  induction fuel as [|fuel IH]; intros w; simpl; [done|].
  destruct (changes !! (index w + 1)%nat) as [next|]; [|done].
  case_match; [|done].
  etransitivity; [|apply IH]. simpl. lia.
Qed.

Lemma skip_changes_S fuel t w :
  skip_changes changes bpm (S fuel) t w
  = match changes !! (index w + 1)%nat with
    | Some next =>
        if Qcleb (Control.time next) t then
          skip_changes changes bpm fuel t
            (mkWarp (Control.time next)
               (newTime w + (Control.time next - oldTime w) * speed w)%Qc
               (index w + 1) (bpm / Control.value next)%Qc)
        else w
    | None => w
    end.
Proof. reflexivity. Qed.

(** Skipping up to [t'] and then up to a later [t] is skipping up to
    [t]. *)
Lemma skip_changes_compose fuel t' t : forall w,
  (t' <= t)%Qc ->
  (length changes - (index w + 1) <= fuel)%nat ->
  skip_changes changes bpm fuel t (skip_changes changes bpm fuel t' w)
  = skip_changes changes bpm fuel t w.
Proof.
  intros w Hle. revert w.
  induction fuel as [|fuel IH]; intros w Hfuel; [done|].
  rewrite (skip_changes_S fuel t' w), (skip_changes_S fuel t w).
  destruct (changes !! (index w + 1)%nat) as [next|] eqn:Hnext.
  2:{ rewrite skip_changes_S. by rewrite Hnext. }
  destruct (Qcleb (Control.time next) t') eqn:Hpast.
  2:{ rewrite skip_changes_S. by rewrite Hnext. }
  assert (Qcleb (Control.time next) t = true) as ->.
  { apply Qcleb_le. apply Qcleb_le in Hpast. by eapply Qcle_trans. }
  set (w' := mkWarp (Control.time next)
               (newTime w + (Control.time next - oldTime w) * speed w)%Qc
               (index w + 1) (bpm / Control.value next)%Qc).
  rewrite skip_changes_fuel.
  - apply IH. simpl. lia.
  - pose proof (skip_changes_index_ge fuel t' w') as Hge. simpl in Hge. lia.
Qed.

Lemma skip_changes_settled fuel t : forall w,
  settled changes bpm t w ->
  settled changes bpm t (skip_changes changes bpm fuel t w).
Proof.
  induction fuel as [|fuel IH]; intros w Hw; simpl; [done|].
  destruct (changes !! (index w + 1)%nat) as [next|] eqn:Hnext; [|done].
  destruct (Qcleb (Control.time next) t) eqn:Hpast; [|done].
  apply IH. exists next. simpl. rewrite Nat.add_1_r in Hnext.
  rewrite Nat.add_1_r. by apply Qcleb_le in Hpast.
Qed.

(** An element that follows [e'] in time is retimed from the state left
    by [e'] as it is from the initial state. *)
Lemma retime_after (e' e : A) :
  (time e' <= time e)%Qc ->
  retime changes bpm (fst (retime changes bpm warp0 e')) e
  = retime changes bpm warp0 e.
Proof.
  intros Hle. unfold retime at 2.
  destruct (changes !! index warp0) as [first|] eqn:Hfirst; [|done].
  destruct (Qcltb (time e') (Control.time first)) eqn:Hbefore; [done|].
  apply Qcltb_ge in Hbefore. cbn [fst].
  set (w1 := mkWarp (Control.time first) (newTime warp0) (index warp0)
               (bpm / Control.value first)%Qc).
  assert (settled changes bpm (time e') w1) as Hw1 by (by exists first).
  pose proof (skip_changes_settled (length changes) (time e') w1 Hw1)
    as (current & Hcur & Hold & Hspeed & Hpast).
  set (w := skip_changes changes bpm (length changes) (time e') w1) in *.
  unfold retime. rewrite Hcur, Hfirst.
  rewrite (proj2 (Qcltb_ge (time e) (Control.time current)))
    by (by eapply Qcle_trans).
  rewrite (proj2 (Qcltb_ge (time e) (Control.time first)))
    by (by eapply Qcle_trans).
  assert (mkWarp (Control.time current) (newTime w) (index w)
            (bpm / Control.value current)%Qc = w) as ->.
  { rewrite <- Hold, <- Hspeed. by destruct w. }
  fold w1. subst w. rewrite skip_changes_compose; [done|done|].
  simpl. lia.
Qed.

Lemma retime_all_after (l : list A) : forall e',
  Forall (fun e => (time e' <= time e)%Qc) l ->
  StronglySorted (fun a b => (time a <= time b)%Qc) l ->
  retime_all changes bpm (fst (retime changes bpm warp0 e')) l
  = map (fun e => snd (retime changes bpm warp0 e)) l.
Proof.
  induction l as [|e l IH]; intros e' Hall Hsorted; simpl; [done|].
  apply Forall_cons in Hall as [He Hall].
  apply StronglySorted_inv in Hsorted as [Hsorted Hfirst].
  rewrite (retime_after e' e He).
  destruct (retime changes bpm warp0 e) as [w' e1] eqn:Hre. simpl. f_equal.
  specialize (IH e Hfirst Hsorted). by rewrite Hre in IH.
Qed.

Lemma applyTempo_sorted_pointwise (l : list A) :
  StronglySorted (fun a b => (time a <= time b)%Qc) l ->
  applyTempo changes bpm l
  = map (fun e => snd (retime changes bpm warp0 e)) l.
Proof.
  intros Hsorted. destruct l as [|e l]; [done|]. unfold applyTempo.
  apply StronglySorted_inv in Hsorted as [Hsorted Hfirst].
  cbn [retime_all map].
  destruct (retime changes bpm warp0 e) as [w' e1] eqn:Hre. f_equal.
  pose proof (retime_all_after l e Hfirst Hsorted) as Hrest.
  by rewrite Hre in Hrest.
Qed.

(** Elements before the first breakpoint keep their times. *)
Lemma retime_all_before first (l : list A) :
  changes !! 0%nat = Some first ->
  Forall (fun e => (time e < Control.time first)%Qc) l ->
  retime_all changes bpm warp0 l = l.
Proof.
  intros Hfirst. induction 1 as [|e l He Hl IH]; simpl; [done|].
  unfold retime. simpl. rewrite Hfirst.
  rewrite (proj2 (Qcltb_lt _ _) He). by rewrite IH.
Qed.
End WarpSorted.

(** X9.  On elements given in non-decreasing order of time, the shared
    scan state of [applyTempo] makes no difference: every element is
    retimed exactly as it would be if it were scanned alone from the
    initial state. *)
Theorem applyTempo_sorted_is_pointwise
    (changes : list Control.t) (bpm : Qc) {A : Type} `{Element A}
    (elements : list A) :
  StronglySorted (fun a b => (time a <= time b)%Qc) elements ->
  applyTempo changes bpm elements
  = map (fun e => snd (retime changes bpm warp0 e)) elements.
Proof. apply applyTempo_sorted_pointwise. Qed.

(** On two notes one second apart and the breakpoint (0.5 s, 60 BPM). *)
Lemma applyTempo_sorted_is_pointwise_witness :
  let later := Note.mk 62 (Z2Qc 2) None (Z2Qc 1) 0 0 in
  let changes := [Control.mk (Q2Qc (1 # 2)) (Z2Qc 60)] in
  StronglySorted (fun a b : Note.t => (time a <= time b)%Qc)
    [Sample.note; later]
  /\ applyTempo changes (Z2Qc 120) [Sample.note; later]
     = map (fun e => snd (retime changes (Z2Qc 120) warp0 e))
         [Sample.note; later].
Proof.
  assert (StronglySorted (fun a b : Note.t => (time a <= time b)%Qc)
            [Sample.note; Note.mk 62 (Z2Qc 2) None (Z2Qc 1) 0 0]) as Hs.
  { repeat constructor. simpl. by apply Qcleb_le. }
  split; [exact Hs|].
  apply (applyTempo_sorted_is_pointwise
           [Control.mk (Q2Qc (1 # 2)) (Z2Qc 60)] (Z2Qc 120) _ Hs).
Defined.

(** X10.  Elements that all lie before the first breakpoint are left as
    they are, whatever the breakpoints and the reference tempo. *)
Theorem applyTempo_before_first_breakpoint
    (first : Control.t) (later : list Control.t) (bpm : Qc)
    {A : Type} `{Element A} (elements : list A) :
  Forall (fun e => (time e < Control.time first)%Qc) elements ->
  applyTempo (first :: later) bpm elements = elements.
Proof.
  intros Hall. destruct elements as [|e l]; [done|].
  unfold applyTempo. by apply (retime_all_before _ _ first).
Qed.

(** On the small Midi's note (at 1 s) and a breakpoint at 2 s. *)
Lemma applyTempo_before_first_breakpoint_witness :
  Forall (fun e : Note.t => (time e < Control.time (Control.mk (Z2Qc 2) (Z2Qc 60)))%Qc)
    [Sample.note]
  /\ applyTempo [Control.mk (Z2Qc 2) (Z2Qc 60)] (Z2Qc 120) [Sample.note]
     = [Sample.note].
Proof.
  assert (Forall (fun e : Note.t =>
                    (time e < Control.time (Control.mk (Z2Qc 2) (Z2Qc 60)))%Qc)
            [Sample.note]) as Hall.
  { repeat constructor. }
  split; [exact Hall|].
  apply (applyTempo_before_first_breakpoint
           (Control.mk (Z2Qc 2) (Z2Qc 60)) [] (Z2Qc 120) _ Hall).
Defined.

(** ** A tempo curve that stays at the reference tempo *)

Section ReferenceTempo.
Context (changes : list Control.t) (bpm : Qc).
Hypothesis bpm_nonzero : bpm <> Q2Qc 0.
Hypothesis all_reference : Forall (fun c => Control.value c = bpm) changes.

(** [bpm / changes[index].value] is [bpm / bpm], which is 1. *)
Lemma reference_speed c : c ∈ changes -> (bpm / Control.value c)%Qc = Q2Qc 1.
Proof.
  intros Hc. rewrite Forall_forall in all_reference.
  rewrite (all_reference c Hc). by field.
Qed.

Lemma skip_changes_speed fuel t : forall w,
  speed w = Q2Qc 1 -> speed (skip_changes changes bpm fuel t w) = Q2Qc 1.
Proof.
  induction fuel as [|fuel IH]; intros w Hw; simpl; [done|].
  destruct (changes !! (index w + 1)%nat) as [next|] eqn:Hnext; [|done].
  case_match; [|done]. apply IH. simpl.
  apply reference_speed. by eapply list_elem_of_lookup_2.
Qed.

Lemma retime_duration w (n : Note.t) :
  Note.duration (snd (retime changes bpm w n)) = Note.duration n.
Proof.
  unfold retime. destruct (changes !! index w) as [current|] eqn:Hc; [|done].
  case_match; [done|]. cbn [snd].
  rewrite skip_changes_speed
    by (simpl; apply reference_speed; by eapply list_elem_of_lookup_2).
  destruct n as [p t d v c i]. destruct d as [d|]; simpl; [|done].
  by rewrite Qcmult_1_r.
Qed.

Lemma retime_all_durations (l : list Note.t) : forall w,
  map Note.duration (retime_all changes bpm w l) = map Note.duration l.
Proof.
  induction l as [|n l IH]; intros w; simpl; [done|].
  pose proof (retime_duration w n) as Hn.
  destruct (retime changes bpm w n) as [w' n']. simpl in *.
  by rewrite Hn, IH.
Qed.

Lemma applyTempo_durations (l : list Note.t) :
  map Note.duration (applyTempo changes bpm l) = map Note.duration l.
Proof. destruct l; [done|]. apply retime_all_durations. Qed.
End ReferenceTempo.

(** X11.  A tempo curve that never leaves the reference tempo changes no
    duration: every speed is [bpm / bpm], that is 1, so line 397 multiplies
    every duration by 1, wherever the breakpoints lie. *)
Theorem applyTempoChanges_reference_durations
    (changes : list Control.t) (bpm : Qc) (midi : Midi.t) :
  bpm <> Q2Qc 0 ->
  Forall (fun c => Control.value c = bpm) changes ->
  map (fun tr => map Note.duration (Track.notes tr))
    (Midi.tracks (applyTempoChanges changes bpm midi))
  = map (fun tr => map Note.duration (Track.notes tr)) (Midi.tracks midi).
Proof.
  intros Hbpm Hall. unfold applyTempoChanges.
  destruct changes as [|c0 cs] eqn:Hchanges; [done|]. rewrite <- Hchanges in *.
  cbn [Midi.tracks]. rewrite map_map. apply map_ext. intros tr.
  unfold applyTempo_track. cbn [Track.notes Track.set_controlChanges
    Track.set_notes]. by apply applyTempo_durations.
Qed.

(** On the small Midi, with 120 BPM restated at 1/3 s and at 1 s. *)
Lemma applyTempoChanges_reference_durations_witness :
  let changes :=
    [Control.mk (Q2Qc (1 # 3)) (Z2Qc 120); Control.mk (Z2Qc 1) (Z2Qc 120)] in
  Z2Qc 120 <> Q2Qc 0
  /\ Forall (fun c => Control.value c = Z2Qc 120) changes
  /\ map (fun tr => map Note.duration (Track.notes tr))
       (Midi.tracks (applyTempoChanges changes (Z2Qc 120) Sample.midi))
     = map (fun tr => map Note.duration (Track.notes tr))
         (Midi.tracks Sample.midi).
Proof.
  assert (Z2Qc 120 <> Q2Qc 0) as Hbpm by (intros Heq; discriminate Heq).
  assert (Forall (fun c => Control.value c = Z2Qc 120)
            [Control.mk (Q2Qc (1 # 3)) (Z2Qc 120);
             Control.mk (Z2Qc 1) (Z2Qc 120)])
    as Hall by (repeat constructor).
  split; [exact Hbpm|]. split; [exact Hall|].
  apply (applyTempoChanges_reference_durations _ (Z2Qc 120) Sample.midi
           Hbpm Hall).
Defined.

(** ** [load], for every delivery *)

(** X12.  The promise that [load] returns is never rejected, and it is
    fulfilled with a Midi exactly when the response arrived with ready
    state 4 and status 200 and was decoded. *)
Theorem load_never_rejects
    {Bytes ErrorEvent : Type}
    (cleanName : string -> string) (instrumentByName : string -> Z)
    (Decoder : Bytes -> option MidiData) (parseHeader : MidiData -> Header.t)
    (d : @Delivery Bytes ErrorEvent) :
  let returned :=
    fst (load cleanName instrumentByName Decoder parseHeader d) in
  (forall reason, returned <> Promise.Rejected reason)
  /\ (forall midi,
        returned = Promise.Fulfilled (Decoded midi)
        <-> exists response,
              d = OnLoad 4 200 response
              /\ decode_response cleanName instrumentByName Decoder
                   parseHeader response = Some midi).
Proof.
  simpl. unfold load, request.
  destruct d as [readyState status response|event]; simpl.
  - destruct (bool_decide (readyState = 4)) eqn:Hr;
      destruct (bool_decide (status = 200)) eqn:Hs; simpl.
    + apply bool_decide_eq_true_1 in Hr, Hs. subst.
      destruct (decode_response _ _ _ _ response) as [m|] eqn:Hd; simpl.
      * split; [done|]. intros midi. split.
        -- intros [= ->]. by exists response.
        -- intros (r & [= <-] & Hr). congruence.
      * split; [done|]. intros midi. split; [done|].
        intros (r & [= <-] & Hr). congruence.
    + apply bool_decide_eq_false_1 in Hs.
      split; [done|]. intros midi. split; [done|].
      intros (r & [= _ Hst _] & _). done.
    + apply bool_decide_eq_false_1 in Hr.
      split; [done|]. intros midi. split; [done|].
      intros (r & [= Hrs _ _] & _). done.
    + apply bool_decide_eq_false_1 in Hr.
      split; [done|]. intros midi. split; [done|].
      intros (r & [= Hrs _ _] & _). done.
  - split; [done|]. intros midi. split; [done|]. intros (r & Hr & _). done.
Qed.

(** ** [startTime] and [duration] *)

Section Extent.
Context (Track_startTime Track_duration : Track.t -> Qc).

Lemma Qcmin_le_l x y : (Qcmin x y <= x)%Qc.
Proof.
  unfold Qcmin. destruct (Qcleb x y) eqn:Hxy; [apply Qcle_refl|].
  apply Qcleb_gt in Hxy. by apply Qclt_le_weak.
Qed.

Lemma Qcmin_le_r x y : (Qcmin x y <= y)%Qc.
Proof.
  unfold Qcmin. destruct (Qcleb x y) eqn:Hxy; [|apply Qcle_refl].
  by apply Qcleb_le.
Qed.

Lemma Qcmax_ge_l x y : (x <= Qcmax x y)%Qc.
Proof.
  unfold Qcmax. destruct (Qcleb x y) eqn:Hxy; [|apply Qcle_refl].
  by apply Qcleb_le.
Qed.

Lemma Qcmax_ge_r x y : (y <= Qcmax x y)%Qc.
Proof.
  unfold Qcmax. destruct (Qcleb x y) eqn:Hxy; [apply Qcle_refl|].
  apply Qcleb_gt in Hxy. by apply Qclt_le_weak.
Qed.

Lemma fold_min_spec (l : list Qc) : forall a,
  let m := fold_left Qcmin l a in
  (m <= a)%Qc /\ Forall (fun x => (m <= x)%Qc) l /\ (m = a \/ m ∈ l).
Proof.
  induction l as [|x l IH]; intros a; simpl.
  - split; [apply Qcle_refl|]. split; [constructor|by left].
  - destruct (IH (Qcmin a x)) as (Hle & Hall & Hin).
    split; [eapply Qcle_trans; [exact Hle|apply Qcmin_le_l]|].
    split.
    + constructor; [|done]. eapply Qcle_trans; [exact Hle|apply Qcmin_le_r].
    + destruct Hin as [Heq|Hin]; [|right; by apply list_elem_of_further].
      rewrite Heq. unfold Qcmin. destruct (Qcleb a x); [by left|].
      right. apply list_elem_of_here.
Qed.

Lemma fold_max_spec (l : list Qc) : forall a,
  let m := fold_left Qcmax l a in
  (a <= m)%Qc /\ Forall (fun x => (x <= m)%Qc) l /\ (m = a \/ m ∈ l).
Proof.
  induction l as [|x l IH]; intros a; simpl.
  - split; [apply Qcle_refl|]. split; [constructor|by left].
  - destruct (IH (Qcmax a x)) as (Hle & Hall & Hin).
    split; [eapply Qcle_trans; [apply Qcmax_ge_l|exact Hle]|].
    split.
    + constructor; [|done]. eapply Qcle_trans; [apply Qcmax_ge_r|exact Hle].
    + destruct Hin as [Heq|Hin]; [|right; by apply list_elem_of_further].
      rewrite Heq. unfold Qcmax. destruct (Qcleb a x); [|by left].
      right. apply list_elem_of_here.
Qed.
End Extent.

(** X13.  [startTime] is the earliest start of a track and [duration] the
    latest end of a track: no track starts before the one or ends after
    the other, each is the value of some track, and both are 0 for a Midi
    without tracks. *)
Theorem startTime_duration_extent
    (Track_startTime Track_duration : Track.t -> Qc)
    (tracks : list Track.t) :
  let start := startTime Track_startTime tracks in
  let finish := duration_of Track_duration tracks in
  Forall (fun t => (start <= Track_startTime t)%Qc
                   /\ (Track_duration t <= finish)%Qc) tracks
  /\ match tracks with
     | [] => start = Q2Qc 0 /\ finish = Q2Qc 0
     | _ => (exists t, t ∈ tracks /\ start = Track_startTime t)
            /\ (exists t, t ∈ tracks /\ finish = Track_duration t)
     end.
Proof.
  simpl. unfold startTime, duration_of.
  destruct tracks as [|t0 ts]; simpl; [by split|].
  destruct (fold_min_spec (map Track_startTime ts) (Track_startTime t0))
    as (Hmin & Hmins & Hminin).
  destruct (fold_max_spec (map Track_duration ts) (Track_duration t0))
    as (Hmax & Hmaxs & Hmaxin).
  rewrite Forall_fmap in Hmins. rewrite Forall_fmap in Hmaxs. split.
  - constructor; [done|]. apply Forall_forall. intros t Ht.
    rewrite Forall_forall in Hmins, Hmaxs. split.
    + by apply (Hmins t).
    + by apply (Hmaxs t).
  - split.
    + destruct Hminin as [->|Hin].
      * exists t0. split; [apply list_elem_of_here|done].
      * apply list_elem_of_fmap in Hin as (t & -> & Ht).
        exists t. split; [by apply list_elem_of_further|done].
    + destruct Hmaxin as [->|Hin].
      * exists t0. split; [apply list_elem_of_here|done].
      * apply list_elem_of_fmap in Hin as (t & -> & Ht).
        exists t. split; [by apply list_elem_of_further|done].
Qed.

(** ** [track] and [get] *)

Lemma find_app_default {A : Type} (f : A -> bool) (l : list A) (x : A) :
  f x = true -> List.find f (l ++ [x]) = Some (default x (List.find f l)).
Proof.
  intros Hx. induction l as [|y l IH]; simpl; [by rewrite Hx|].
  by destruct (f y).
Qed.

(** X14.  A track added with [track] is the last one: [get] with the old
    number of tracks returns it, every smaller number still returns the
    track it returned before, and [get] with the new track's name returns
    the first older track of that name when there is one, the new track
    otherwise. *)
Theorem get_after_track (name : option string) (midi : Midi.t) :
  let added := fst (add_track name midi) in
  let midi' := snd (add_track name midi) in
  get (ByNumber (Z.of_nat (length (Midi.tracks midi)))) midi' = Some added
  /\ (forall n, (n < Z.of_nat (length (Midi.tracks midi)))%Z ->
        get (ByNumber n) midi' = get (ByNumber n) midi)
  /\ get (ByName (Track.name added)) midi'
     = Some (default added (get (ByName (Track.name added)) midi)).
Proof.
  simpl. split; [|split].
  - destruct (Z.leb_spec 0 (Z.of_nat (length (Midi.tracks midi)))); [|lia].
    rewrite Nat2Z.id. rewrite lookup_app_r by lia.
    by rewrite Nat.sub_diag.
  - intros n Hn. destruct (Z.leb_spec 0 n); [|done].
    apply lookup_app_l. lia.
  - by apply find_app_default, bool_decide_eq_true_2.
Qed.

(** X15.  [get] with a name returns the first track of that name: the
    tracks before it have other names, and there is no result exactly when
    no track has the name. *)
Theorem get_by_name_first (trackName : option string) (midi : Midi.t) :
  match get (ByName trackName) midi with
  | Some t =>
      exists before after,
        Midi.tracks midi = before ++ t :: after
        /\ Track.name t = trackName
        /\ Forall (fun t' => Track.name t' <> trackName) before
  | None => Forall (fun t' => Track.name t' <> trackName) (Midi.tracks midi)
  end.
Proof.
  simpl. induction (Midi.tracks midi) as [|t l IH]; simpl; [constructor|].
  destruct (bool_decide (Track.name t = trackName)) eqn:Ht.
  - apply bool_decide_eq_true_1 in Ht. by exists [], l.
  - apply bool_decide_eq_false_1 in Ht.
    destruct (List.find _ l) as [t'|].
    + destruct IH as (before & after & -> & Hn & Hb).
      exists (t :: before), after. repeat split; [done|by constructor].
    + by constructor.
Qed.

(** ** [slice] shares the header *)

(** X16.  A slice holds the header object of the Midi it was cut from.
    Setting [bpm] on the slice rescales the tracks of the slice by the old
    tempo over the new one and writes the new tempo into that one header:
    the [bpm] getter of the original returns the new tempo afterwards,
    while the header's name, time signature and PPQ and every other header
    stay as they were. *)
Theorem slice_shares_header
    (Track_slice : Qc -> Qc -> Track.t -> Track.t)
    (Track_duration : Track.t -> Qc)
    (startTime endTime : option Qc) (bpm : Qc)
    (this : Store.MidiObject) (store : Store.t) (h : Header.t) :
  store !! Store.header this = Some h ->
  let copy := slice Track_slice Track_duration startTime endTime this in
  exists store',
    Store.header copy = Store.header this
    /\ set_bpm_stored bpm copy store
       = Some (Store.mkMidi (Store.header this)
                 (map (Track.scale (Header.bpm h / bpm)%Qc)
                    (Store.tracks copy)),
               store')
    /\ get_bpm this store' = Some bpm
    /\ store' !! Store.header this
       = Some (Header.mk (Header.name h) bpm (Header.timeSignature h)
                 (Header.PPQ h))
    /\ forall r, r <> Store.header this -> store' !! r = store !! r.
Proof.
  intros Hh copy.
  exists (<[Store.header this :=
             Header.mk (Header.name h) bpm (Header.timeSignature h)
               (Header.PPQ h)]> store).
  split; [done|]. split.
  - unfold set_bpm_stored. subst copy. unfold slice.
    cbn [Store.header Store.tracks]. by rewrite Hh.
  - unfold get_bpm. rewrite lookup_insert_eq. split; [done|].
    split; [done|]. intros r Hr. by rewrite lookup_insert_ne.
Qed.

(** On the small Midi at 120 BPM, whose track holds a note and a control
    change: the slice is set to 60 BPM. *)
Lemma slice_shares_header_witness :
  let this := Store.mkMidi 0 [Sample.track] in
  let store : Store.t := {[ 0%nat := Sample.header ]} in
  let copy := slice (fun _ _ t => t) (fun _ => Q2Qc 0) None None this in
  exists store',
    set_bpm_stored (Z2Qc 60) copy store
    = Some (Store.mkMidi 0
              (map (Track.scale (Header.bpm Sample.header / Z2Qc 60)%Qc)
                 (Store.tracks copy)),
            store')
    /\ get_bpm this store' = Some (Z2Qc 60).
Proof.
  destruct (slice_shares_header (fun _ _ t => t) (fun _ => Q2Qc 0) None None
              (Z2Qc 60) (Store.mkMidi 0 [Sample.track])
              {[ 0%nat := Sample.header ]} Sample.header)
    as (store' & _ & Hset & Hbpm & _); [reflexivity|].
  exists store'. split; [exact Hset|exact Hbpm].
Defined.

(** ** The event loop: instrument, header and controller 0 *)

Section EventLoop.
Context (cleanName : string -> string) (instrumentByName : string -> Z).
Implicit Types (s : Scan) (event : Event).

Lemma assign_channel_instrumentNumber event s :
  Track.instrumentNumber (track (assign_channel event s))
  = Track.instrumentNumber (track s).
Proof. unfold assign_channel, with_track. by repeat case_match. Qed.

Lemma assign_channel_header event s :
  header (assign_channel event s) = header s.
Proof. unfold assign_channel, with_track. by repeat case_match. Qed.

Lemma record_controller_header event s :
  header (record_controller event s) = header s.
Proof. unfold record_controller. by repeat case_match. Qed.

Lemma dispatch_header event s :
  header (dispatch cleanName instrumentByName event s) = header s.
Proof.
  unfold dispatch, with_track.
  destruct (body event); simpl; repeat case_match; done.
Qed.

Lemma on_event_header event s :
  header (on_event cleanName instrumentByName s event) = header s.
Proof.
  unfold on_event.
  by rewrite dispatch_header, record_controller_header,
    assign_channel_header.
Qed.

Lemma scan_header events : forall s,
  header (fold_left (on_event cleanName instrumentByName) events s)
  = header s.
Proof.
  induction events as [|event events IH]; intros s; simpl; [done|].
  by rewrite IH, on_event_header.
Qed.

(** Lines 139-158: an event gives the track its instrument only while the
    track has none. *)
Lemma dispatch_instrumentNumber event s :
  Track.instrumentNumber (track (dispatch cleanName instrumentByName event s))
  = if bool_decide (Track.instrumentNumber (track s) = -1)
    then default (-1) (instrument_value instrumentByName event)
    else Track.instrumentNumber (track s).
Proof.
  unfold dispatch, with_track, instrument_value.
  destruct (body event); simpl; repeat case_bool_decide; simpl;
    repeat case_match; simpl; congruence.
Qed.

Lemma on_event_instrumentNumber event s :
  Track.instrumentNumber (track (on_event cleanName instrumentByName s event))
  = if bool_decide (Track.instrumentNumber (track s) = -1)
    then default (-1) (instrument_value instrumentByName event)
    else Track.instrumentNumber (track s).
Proof.
  unfold on_event.
  by rewrite dispatch_instrumentNumber, record_controller_track,
    assign_channel_instrumentNumber.
Qed.

Lemma scan_instrumentNumber events : forall s,
  Track.instrumentNumber
    (track (fold_left (on_event cleanName instrumentByName) events s))
  = if bool_decide (Track.instrumentNumber (track s) = -1)
    then first_instrument (omap (instrument_value instrumentByName) events)
    else Track.instrumentNumber (track s).
Proof.
  induction events as [|event events IH]; intros s; simpl.
  - by case_bool_decide.
  - rewrite IH, on_event_instrumentNumber.
    destruct (decide (Track.instrumentNumber (track s) = -1)) as [Hs|Hs].
    + rewrite !(bool_decide_eq_true_2 _ Hs).
      destruct (instrument_value instrumentByName event) as [i|]; simpl.
      * unfold first_instrument at 2. simpl.
        destruct (Z.eqb_spec i (-1)) as [->|Hi]; simpl.
        -- done.
        -- by rewrite bool_decide_eq_false_2.
      * done.
    + by rewrite !(bool_decide_eq_false_2 _ Hs).
Qed.

(** The header after the raw tracks: the names of the tracks scanned so
    far have been offered to it in turn. *)
Lemma scan_tracks_header_from tracksData : forall g,
  exists added,
    mixedTracks (fold_left (on_track cleanName instrumentByName) tracksData g)
    = mixedTracks g ++ added
    /\ sharedHeader
         (fold_left (on_track cleanName instrumentByName) tracksData g)
       = fold_left (fun h tr => adopt_name tr h) added (sharedHeader g).
Proof.
  induction tracksData as [|trackData rest IH]; intros g; simpl.
  - exists []. by rewrite app_nil_r.
  - destruct (IH (on_track cleanName instrumentByName g trackData))
      as (added & Hm & Hh).
    exists (track (scan_track cleanName instrumentByName trackData g) :: added).
    rewrite Hm, Hh. unfold on_track. cbn [mixedTracks sharedHeader fold_left].
    split; [by rewrite <- app_assoc|].
    f_equal. f_equal. unfold scan_track. by rewrite scan_header.
Qed.

Lemma adopt_name_named tr h :
  name_is_falsy h = false -> adopt_name tr h = h.
Proof.
  unfold name_is_falsy, adopt_name.
  destruct (Header.name h) as [[|a n]|]; done.
Qed.

Lemma adopt_all_named trs : forall h,
  name_is_falsy h = false ->
  fold_left (fun h tr => adopt_name tr h) trs h = h.
Proof.
  induction trs as [|tr trs IH]; intros h Hh; simpl; [done|].
  rewrite adopt_name_named by done. by apply IH.
Qed.

Lemma adopt_all_first trs : forall h,
  name_is_falsy h = true ->
  fold_left (fun h tr => adopt_name tr h) trs h
  = match List.find names_file trs with
    | Some tr =>
        Header.mk (Track.name tr) (Header.bpm h) (Header.timeSignature h)
          (Header.PPQ h)
    | None => h
    end.
Proof.
  induction trs as [|tr trs IH]; intros h Hh; simpl; [done|].
  unfold names_file at 1.
  assert (adopt_name tr h
          = if Track.is_empty tr
            then match Track.name tr with
                 | Some (String a n) =>
                     Header.mk (Some (String a n)) (Header.bpm h)
                       (Header.timeSignature h) (Header.PPQ h)
                 | _ => h
                 end
            else h) as ->.
  { unfold adopt_name, name_is_falsy in *.
    destruct (Header.name h) as [[|a n]|]; done. }
  destruct (Track.is_empty tr); simpl; [|by apply IH].
  destruct (Track.name tr) as [[|a n]|] eqn:Hn; simpl; try by apply IH.
  rewrite adopt_all_named by done. by rewrite Hn.
Qed.

(** Lines 111-166 emit a control change under a controller number only
    when the number is truthy. *)
Lemma cc_controls k t v c i tr :
  controls_of (Track.cc k t v c i tr)
  ≡ₚ controls_of tr ++ [ControlChange.mk k t v c i].
Proof. unfold controls_of, Track.cc. simpl. apply push_control_controls. Qed.

Lemma dispatch_not_controller_zero event s :
  Forall not_controller_zero (controls_of (track s)) ->
  Forall not_controller_zero
    (controls_of (track (dispatch cleanName instrumentByName event s))).
Proof.
  intros Hs. unfold dispatch, with_track.
  destruct (body event) as [c n v|c n v|c ct v|c p|c v|c|text|text|us|];
    simpl; repeat case_match; simpl; try done;
    (rewrite cc_controls; apply Forall_app; split; [done|];
     constructor; [|done]; unfold not_controller_zero; simpl;
     try done; intros [= ->]; done).
Qed.

Lemma on_event_not_controller_zero event s :
  Forall not_controller_zero (controls_of (track s)) ->
  Forall not_controller_zero
    (controls_of (track (on_event cleanName instrumentByName s event))).
Proof.
  intros Hs. unfold on_event. apply dispatch_not_controller_zero.
  rewrite record_controller_track.
  destruct (assign_channel_track event (advance_time event s))
    as [->|(c & _ & _ & _ & ->)]; by rewrite advance_time_track.
Qed.

Lemma scan_not_controller_zero events : forall s,
  Forall not_controller_zero (controls_of (track s)) ->
  Forall not_controller_zero
    (controls_of
       (track (fold_left (on_event cleanName instrumentByName) events s))).
Proof.
  induction events as [|event events IH]; intros s Hs; simpl; [done|].
  by apply IH, on_event_not_controller_zero.
Qed.

Lemma scan_tracks_not_controller_zero tracksData : forall g,
  Forall (fun tr => Forall not_controller_zero (controls_of tr))
    (mixedTracks g) ->
  Forall (fun tr => Forall not_controller_zero (controls_of tr))
    (mixedTracks
       (fold_left (on_track cleanName instrumentByName) tracksData g)).
Proof.
  induction tracksData as [|trackData rest IH]; intros g Hg; simpl; [done|].
  apply IH. unfold on_track. simpl. apply Forall_app. split; [done|].
  constructor; [|done]. unfold scan_track.
  apply scan_not_controller_zero. simpl. constructor.
Qed.
End EventLoop.

(** X17.  The instrument number of each raw track is the first
    instrument number other than -1 that a program change or an
    instrument name of that track brings, and -1 when there is none;
    what other raw tracks hold plays no part. *)
Theorem raw_track_instrument_is_first
    (cleanName : string -> string) (instrumentByName : string -> Z)
    (header : Header.t) (tracksData : list (list Event)) :
  map Track.instrumentNumber
    (mixedTracks (scan_tracks cleanName instrumentByName header tracksData))
  = map (fun trackData =>
           first_instrument
             (omap (instrument_value instrumentByName) trackData))
      tracksData.
Proof.
  unfold scan_tracks.
  change (map _ tracksData)
    with (map Track.instrumentNumber (mixedTracks (mkShared [] [] ∅ header))
          ++ map (fun trackData =>
                    first_instrument
                      (omap (instrument_value instrumentByName) trackData))
               tracksData).
  generalize (mkShared [] [] ∅ header).
  induction tracksData as [|trackData rest IH]; intros g; simpl.
  - by rewrite app_nil_r.
  - rewrite IH. unfold on_track at 1. simpl.
    rewrite map_app, <- app_assoc. simpl. do 2 f_equal.
    unfold scan_track. by rewrite scan_instrumentNumber.
Qed.

Lemma applyTempoChanges_header changes bpm midi :
  Midi.header (applyTempoChanges changes bpm midi) = Midi.header midi.
Proof. by destruct changes. Qed.

(** X18.  [decode] keeps the header that [parseHeader] made, but for the
    name: a header without a name (or with an empty one) takes the name of
    the first raw track that is empty and has a non-empty name, if there
    is one.  Tempo, time signature and PPQ never change. *)
Theorem decode_header
    (cleanName : string -> string) (instrumentByName : string -> Z)
    (formatType : Z) (header : Header.t) (tracksData : list (list Event)) :
  Midi.header (decode cleanName instrumentByName formatType header tracksData)
  = if name_is_falsy header
    then match List.find names_file
                 (mixedTracks
                    (scan_tracks cleanName instrumentByName header tracksData))
         with
         | Some tr =>
             Header.mk (Track.name tr) (Header.bpm header)
               (Header.timeSignature header) (Header.PPQ header)
         | None => header
         end
    else header.
Proof.
  unfold decode. rewrite applyTempoChanges_header. simpl.
  unfold scan_tracks.
  destruct (scan_tracks_header_from cleanName instrumentByName tracksData
              (mkShared [] [] ∅ header)) as (added & -> & ->).
  simpl. destruct (name_is_falsy header) eqn:Hn.
  - by apply adopt_all_first.
  - by apply adopt_all_named.
Qed.

Section ControllerZero.
Context (formatType : Z).

Lemma split_not_controller_zero mixedTracks :
  Forall (fun tr => Forall not_controller_zero (controls_of tr)) mixedTracks ->
  Forall (fun tr => Forall not_controller_zero (controls_of tr))
    (split formatType mixedTracks).
Proof.
  intros Hraw. apply Forall_forall. intros tr Htr.
  apply Forall_forall. intros c Hc.
  assert (c ∈ controls_of_tracks (split formatType mixedTracks)) as Hin.
  { unfold controls_of_tracks. apply list_elem_of_In, in_concat.
    exists (controls_of tr). split; [|by apply list_elem_of_In].
    apply in_map. by apply list_elem_of_In. }
  unfold split in Hin. rewrite (split_controls formatType) in Hin.
  simpl in Hin. apply list_elem_of_In, in_concat in Hin as (l & Hl & Hcl).
  apply in_map_iff in Hl as (mt & <- & Hmt).
  apply filter_In in Hcl as [Hcl _].
  unfold resolved_controls in Hcl.
  apply list_elem_of_In, list_elem_of_fmap in Hcl as (c0 & -> & Hc0).
  rewrite Forall_forall in Hraw.
  specialize (Hraw mt (proj2 (list_elem_of_In _ _) Hmt)).
  rewrite Forall_forall in Hraw. exact (Hraw c0 Hc0).
Qed.

Lemma applyTempo_track_numbers changes bpm tr :
  map ControlChange.number (controls_of (applyTempo_track changes bpm tr))
  = map ControlChange.number (controls_of tr).
Proof.
  unfold controls_of, applyTempo_track. simpl.
  induction (Track.controlChanges tr) as [|[k l] ccs IH]; simpl; [done|].
  rewrite !map_app, IH. f_equal.
  by apply (applyTempo_rest changes bpm ControlChange.number).
Qed.

Lemma not_controller_zero_numbers (l : list ControlChange.t) :
  Forall not_controller_zero l
  <-> Forall (fun k => k <> Controller 0) (map ControlChange.number l).
Proof. by rewrite Forall_fmap. Qed.
End ControllerZero.

(** X19.  [decode] drops every controller event whose controller number
    is 0: no control change of the decoded Midi has controller number 0. *)
Theorem decode_drops_controller_zero
    (cleanName : string -> string) (instrumentByName : string -> Z)
    (formatType : Z) (header : Header.t) (tracksData : list (list Event)) :
  Forall (fun tr => Forall not_controller_zero (controls_of tr))
    (Midi.tracks
       (decode cleanName instrumentByName formatType header tracksData)).
Proof.
  unfold decode.
  set (g := scan_tracks cleanName instrumentByName header tracksData).
  assert (Forall (fun tr => Forall not_controller_zero (controls_of tr))
            (split formatType (mixedTracks g))) as Hsplit.
  { apply split_not_controller_zero. unfold g, scan_tracks.
    apply scan_tracks_not_controller_zero. constructor. }
  destruct (sharedTempoChanges g) as [|c cs]; [done|].
  simpl. apply Forall_fmap. eapply Forall_impl; [exact Hsplit|].
  intros tr Htr. simpl.
  apply not_controller_zero_numbers.
  rewrite applyTempo_track_numbers.
  by apply not_controller_zero_numbers.
Qed.

(** ** From note-on events to notes *)

Section NoteOns.
Context (cleanName : string -> string) (instrumentByName : string -> Z).
Implicit Types (s : Scan) (event : Event).

Lemma close_pending_sound pitch t c ns :
  map note_sound (Track.close_pending pitch t c ns) = map note_sound ns.
Proof.
  induction ns as [|n ns IH]; simpl; [done|].
  case_match; simpl; [done|]. by rewrite IH.
Qed.

Lemma dispatch_sound event s :
  map note_sound
    (Track.notes (track (dispatch cleanName instrumentByName event s)))
  = map note_sound (Track.notes (track s))
    ++ option_list (note_on_of event).
Proof.
  unfold dispatch, with_track, note_on_of.
  destruct (body event) as [c n v|c n v|c ct v|c p|c v|c|text|text|us|];
    simpl; repeat case_match; simpl;
    rewrite ?map_app, ?close_pending_sound, ?app_nil_r; done.
Qed.

Lemma on_event_sound event s :
  map note_sound
    (Track.notes (track (on_event cleanName instrumentByName s event)))
  = map note_sound (Track.notes (track s))
    ++ option_list (note_on_of event).
Proof.
  unfold on_event. rewrite dispatch_sound, record_controller_track.
  destruct (assign_channel_track event (advance_time event s))
    as [->|(c & _ & _ & _ & ->)]; by rewrite advance_time_track.
Qed.

Lemma omap_option_list {A B : Type} (f : A -> option B) (x : A) (l : list A) :
  omap f (x :: l) = option_list (f x) ++ omap f l.
Proof. simpl. by destruct (f x). Qed.

Lemma scan_sound events : forall s,
  map note_sound
    (Track.notes
       (track (fold_left (on_event cleanName instrumentByName) events s)))
  = map note_sound (Track.notes (track s)) ++ omap note_on_of events.
Proof.
  induction events as [|event events IH]; intros s.
  - simpl. by rewrite app_nil_r.
  - rewrite omap_option_list. cbn [fold_left].
    by rewrite IH, on_event_sound, <- app_assoc.
Qed.

Lemma omap_app_list {A B : Type} (f : A -> option B) (l1 l2 : list A) :
  omap f (l1 ++ l2) = omap f l1 ++ omap f l2.
Proof.
  induction l1 as [|x l1 IH]; [done|].
  rewrite <- app_comm_cons, !omap_option_list, IH. by rewrite app_assoc.
Qed.

Lemma scan_tracks_sound tracksData : forall g,
  map note_sound
    (notes_of_tracks
       (mixedTracks
          (fold_left (on_track cleanName instrumentByName) tracksData g)))
  = map note_sound (notes_of_tracks (mixedTracks g))
    ++ omap note_on_of (concat tracksData).
Proof.
  induction tracksData as [|trackData rest IH]; intros g; simpl.
  - by rewrite app_nil_r.
  - rewrite IH, omap_app_list. unfold on_track at 1. simpl.
    rewrite notes_of_tracks_app, map_app, <- app_assoc. f_equal.
    unfold notes_of_tracks at 1. simpl. rewrite app_nil_r.
    unfold scan_track. rewrite scan_sound. simpl. done.
Qed.

Lemma resolved_notes_sound mt :
  raw_track_in_range mt ->
  map note_sound (resolved_notes mt) = map note_sound (Track.notes mt).
Proof.
  intros [_ Hn]. unfold resolved_notes. rewrite map_map.
  induction Hn as [|n ns [Hc _] Hns IH]; simpl; [done|].
  rewrite IH. f_equal. unfold note_sound, resolve_note, resolve_channel.
  simpl. case_bool_decide; [lia|done].
Qed.

Lemma split_sound formatType mixedTracks :
  Forall raw_track_in_range mixedTracks ->
  map note_sound (notes_of_tracks (split formatType mixedTracks))
  ≡ₚ map note_sound (notes_of_tracks mixedTracks).
Proof.
  intros Hr. unfold split. rewrite (split_notes formatType). simpl.
  induction Hr as [|mt rest Hmt Hrest IH]; simpl; [done|].
  rewrite in_range_filter by done.
  unfold notes_of_tracks in *. simpl.
  by rewrite !map_app, IH, resolved_notes_sound.
Qed.

Lemma applyTempo_track_sound changes bpm tr :
  map note_sound (Track.notes (applyTempo_track changes bpm tr))
  = map note_sound (Track.notes tr).
Proof.
  unfold applyTempo_track. simpl.
  by apply (applyTempo_rest changes bpm note_sound).
Qed.

Lemma applyTempoChanges_sound changes bpm midi :
  map note_sound (notes_of_tracks (Midi.tracks (applyTempoChanges changes bpm midi)))
  = map note_sound (notes_of_tracks (Midi.tracks midi)).
Proof.
  destruct changes as [|c cs]; [done|].
  unfold applyTempoChanges. cbn [Midi.tracks].
  generalize (c :: cs). intros changes. unfold notes_of_tracks.
  induction (Midi.tracks midi) as [|tr l IH]; [done|].
  cbn [map concat]. by rewrite !map_app, IH, applyTempo_track_sound.
Qed.
End NoteOns.

(** X20.  Every note-on event becomes exactly one note of the decoded
    Midi, with the event's note number as pitch, its velocity over 127 and
    its channel, and there are no other notes; the tokens are those of the
    byte-codec (channels 0-15, program numbers 0-127) and the instrument
    numbers found for names are -1 or 0-127. *)
Theorem decode_notes_are_noteOns
    (cleanName : string -> string) (instrumentByName : string -> Z)
    (formatType : Z) (header : Header.t) (tracksData : list (list Event)) :
  (forall text, -1 <= instrumentByName text <= 127) ->
  Forall (Forall event_in_range) tracksData ->
  map note_sound
    (notes_of_tracks
       (Midi.tracks
          (decode cleanName instrumentByName formatType header tracksData)))
  ≡ₚ omap note_on_of (concat tracksData).
Proof.
  intros Hi Hev. unfold decode.
  rewrite applyTempoChanges_sound. simpl.
  rewrite split_sound
    by (by apply (scan_tracks_in_range cleanName instrumentByName Hi)).
  unfold scan_tracks. by rewrite scan_tracks_sound.
Qed.

Lemma decode_notes_are_noteOns_witness :
  map note_sound
    (notes_of_tracks
       (Midi.tracks
          (decode (fun text => text) (fun _ => 0) 1
             (Header.mk None (Q2Qc 120) (4, 4) 480)
             [[mkEvent 0 (ProgramChange 1 5); mkEvent 0 (NoteOn 1 60 100);
               mkEvent 480 (NoteOff 1 60 0)];
              [mkEvent 0 (NoteOn 0 64 127)]])))
  ≡ₚ omap note_on_of
       (concat
          [[mkEvent 0 (ProgramChange 1 5); mkEvent 0 (NoteOn 1 60 100);
            mkEvent 480 (NoteOff 1 60 0)];
           [mkEvent 0 (NoteOn 0 64 127)]]).
Proof.
  apply (decode_notes_are_noteOns (fun text => text) (fun _ => 0) 1
           (Header.mk None (Q2Qc 120) (4, 4) 480)
           [[mkEvent 0 (ProgramChange 1 5); mkEvent 0 (NoteOn 1 60 100);
             mkEvent 480 (NoteOff 1 60 0)];
            [mkEvent 0 (NoteOn 0 64 127)]]).
  - intros text. lia.
  - repeat constructor; simpl; lia.
Defined.

(** ** [toJSON] and [fromJSON] together *)

(** X21.  [fromJSON] undoes [toJSON] as far as the tracks' own
    [fromJSON] undoes their [toJSON]: the Midi read back holds the same
    header object and the same tracks. *)
Theorem fromJSON_toJSON
    {TrackJSON : Type} (Track_toJSON : Track.t -> TrackJSON)
    (Track_fromJSON : TrackJSON -> Track.t)
    (Track_startTime Track_duration : Track.t -> Qc)
    (this : Store.MidiObject) (store : Store.t) :
  (forall tr, Track_fromJSON (Track_toJSON tr) = tr) ->
  fromJSON Track_fromJSON
    (fst (toJSON Track_toJSON Track_startTime Track_duration this store))
  = this.
Proof.
  intros Hround.
  assert (forall l, map Track_fromJSON (map Track_toJSON l) = l) as Hmap.
  { induction l as [|tr l IH]; simpl; [done|]. by rewrite Hround, IH. }
  destruct this as [href trs]. unfold toJSON, fromJSON.
  cbn [json_header Store.header Store.tracks].
  destruct (store !! href) as [h|]; [destruct (name_is_falsy h)|];
    cbn [fst json_header json_tracks]; by rewrite Hmap.
Qed.

Lemma fromJSON_toJSON_witness :
  fromJSON (fun tr => tr)
    (fst (toJSON (fun tr => tr) (fun _ => Q2Qc 0) (fun _ => Q2Qc 0)
            (Store.mkMidi 0 [Track.new None (-1) (-1)])
            {[ 0%nat := Header.mk None (Q2Qc 120) (4, 4)%Z 480%Z ]}))
  = Store.mkMidi 0 [Track.new None (-1) (-1)].
Proof.
  apply (fromJSON_toJSON (fun tr => tr) (fun tr => tr)
           (fun _ => Q2Qc 0) (fun _ => Q2Qc 0)
           (Store.mkMidi 0 [Track.new None (-1) (-1)])
           {[ 0%nat := Header.mk None (Q2Qc 120) (4, 4)%Z 480%Z ]}).
  intros tr. reflexivity.
Defined.

(** X22.  A second [toJSON] changes nothing more: it returns the same
    record and leaves the headers as the first call left them. *)
Theorem toJSON_twice
    {TrackJSON : Type} (Track_toJSON : Track.t -> TrackJSON)
    (Track_startTime Track_duration : Track.t -> Qc)
    (this : Store.MidiObject) (store : Store.t) :
  let first :=
    toJSON Track_toJSON Track_startTime Track_duration this store in
  toJSON Track_toJSON Track_startTime Track_duration this (snd first) = first.
Proof.
  destruct this as [href trs]. unfold toJSON.
  cbn [json_header Store.header Store.tracks].
  destruct (store !! href) as [h|] eqn:Hh.
  - destruct (name_is_falsy h) eqn:Hn; cbn [snd].
    + rewrite lookup_insert_eq. cbn [name_is_falsy set_header_name Header.name].
      unfold set_header_name. cbn [Header.bpm Header.timeSignature Header.PPQ].
      by rewrite insert_insert_eq.
    + by rewrite Hh, Hn.
  - cbn [snd]. by rewrite Hh.
Qed.
